(** * gnp_pygame: the math helpers, the actor list and the particle emitter

    A shallow embedding of [gnipMath.py], of [ActorList] in [gnppygame.py]
    and of [gnpparticle.py], with the properties stated about them.

    Conventions of the embedding.
    - Python [int] is [Z]; Python [float] is the exact rational [Q] (rounding
      of binary floating point is not modelled), compared with [==].  The
      package declares Python 2, so [/] on two integers is integer division.
    - A call that can raise returns [Exn]; code that also draws from the
      [random] module runs in [M], which threads the state of the generator.
    - Objects that a list refers to live in a store indexed by references,
      so that [list.remove], which compares by identity, can be written out. *)

From Stdlib Require Import ZArith QArith Qround Qabs Lia Lqa List Bool String.
From stdpp Require Import base option list gmap.
From Equations Require Import Equations.

Set Default Proof Using "Type".
Set Warnings "-register-all".

(** ** Python values, exceptions and arithmetic *)

Inductive PyExc : Set :=
| AssertionError
| ZeroDivisionError
| IndexError
| AttributeError
| ValueError
| TypeError
| DanglingReference.  (* model only: a reference without its object *)

Inductive Exn (A : Type) : Type :=
| Ok (a : A)
| Raise (e : PyExc).

Arguments Ok {A} a.
Arguments Raise {A} e.

Definition exn_bind {A B} (c : Exn A) (k : A -> Exn B) : Exn B :=
  match c with
  | Ok a => k a
  | Raise e => Raise e
  end.

Notation "x <- c ;; k" := (exn_bind c (fun x => k))
  (at level 100, c at next level, right associativity).

(** [assert cond] *)
Definition py_assert (cond : bool) : Exn unit :=
  if cond then Ok tt else Raise AssertionError.

(** [a // b] on integers: floor division, [ZeroDivisionError] on [b = 0]. *)
Definition py_floordiv (a b : Z) : Exn Z :=
  if (b =? 0)%Z then Raise ZeroDivisionError else Ok (a / b)%Z.

(** [a / b] on floats: [ZeroDivisionError] on [b = 0]. *)
Definition py_truediv (a b : Q) : Exn Q :=
  if Qeq_bool b 0 then Raise ZeroDivisionError else Ok (a / b)%Q.

(** [int(x)] on a float: truncation toward zero. *)
Definition py_int (x : Q) : Z := Z.quot (Qnum x) (Zpos (Qden x)).

(** [a < b] on floats. *)
Definition Qltb (a b : Q) : bool := negb (Qle_bool b a).

(** The values a caller can pass where the code inspects the type with
    [isinstance]: tuples, lists, numbers, [pygame.Color] and [None]. *)
Inductive PyObj : Type :=
| PyNone
| PyInt (z : Z)
| PyFloat (q : Q)
| PyTuple (items : list PyObj)
| PyList (items : list PyObj)
| PyColor (r g b a : Z).

Definition is_tuple (o : PyObj) : bool :=
  match o with PyTuple _ => true | _ => false end.

Definition is_tuple_or_Color (o : PyObj) : bool :=
  match o with PyTuple _ | PyColor _ _ _ _ => true | _ => false end.

(** [list.remove(x)] on a list of references: drops the first occurrence,
    [ValueError] when there is none. *)
Fixpoint list_remove (x : nat) (l : list nat) : Exn (list nat) :=
  match l with
  | [] => Raise ValueError
  | y :: rest =>
      if Nat.eqb x y then Ok rest
      else
        rest' <- list_remove x rest ;;
        Ok (y :: rest')
  end.

(** [list.remove(x)] for elements compared with [==]. *)
Fixpoint py_remove {T} (eqb : T -> T -> bool) (x : T) (l : list T) : Exn (list T) :=
  match l with
  | [] => Raise ValueError
  | y :: rest =>
      if eqb x y then Ok rest
      else
        rest' <- py_remove eqb x rest ;;
        Ok (y :: rest')
  end.

(** [bool(o)]: what [if o:] tests. *)
Definition py_truthy (o : PyObj) : bool :=
  match o with
  | PyNone => false
  | PyInt z => negb (z =? 0)%Z
  | PyFloat q => negb (Qeq_bool q 0)
  | PyTuple l => negb (Nat.eqb (length l) 0)
  | PyList l => negb (Nat.eqb (length l) 0)
  | PyColor _ _ _ _ => true
  end.

(** [math.modf(x)[0]]: the fractional part, with the sign of [x]. *)
Definition math_modf_frac (x : Q) : Q := (x - inject_Z (py_int x))%Q.

(** *** The [random] module

    The generator is an infinite supply of values of [random.random()] and a
    cursor into it. *)
Record Rng : Type := mk_Rng { samples : nat -> Q; cursor : nat }.

(** Code that raises and draws random numbers. *)
Definition M (A : Type) : Type := Rng -> Exn (A * Rng).

Definition ret {A} (a : A) : M A := fun g => Ok (a, g).

Definition bind {A B} (c : M A) (k : A -> M B) : M B :=
  fun g =>
    match c g with
    | Ok (a, g') => k a g'
    | Raise e => Raise e
    end.

Definition lift {A} (c : Exn A) : M A :=
  fun g =>
    match c with
    | Ok a => Ok (a, g)
    | Raise e => Raise e
    end.

Notation "x <~ c ;; k" := (bind c (fun x => k))
  (at level 100, c at next level, right associativity).

Definition random_random : M Q :=
  fun g => Ok (samples g (cursor g), {| samples := samples g; cursor := S (cursor g) |}).

(** [random.uniform(a, b)] is [a + (b-a) * random()]. *)
Definition random_uniform (a b : Q) : M Q :=
  u <~ random_random ;;
  ret (a + (b - a) * u)%Q.

(** [random.choice(seq)] is [seq[int(random() * len(seq))]]: [IndexError] on
    an empty sequence. *)
Definition random_choice {A} (seq : list A) : M A :=
  u <~ random_random ;;
  match nth_error seq (Z.to_nat (py_int (u * inject_Z (Z.of_nat (length seq))))) with
  | Some a => ret a
  | None => lift (Raise IndexError)
  end.

(** [random.randint(a, b)] is [a + int(random() * (b + 1 - a))]. *)
Definition random_randint (a b : Z) : M Z :=
  u <~ random_random ;;
  ret (a + py_int (u * inject_Z (b + 1 - a)))%Z.

(** *** [pygame.Rect] *)
Record Rect : Type := mk_Rect {
  rect_x : Z;
  rect_y : Z;
  rect_width : Z;
  rect_height : Z
}.

Definition rect_left (r : Rect) : Z := rect_x r.
Definition rect_top (r : Rect) : Z := rect_y r.
Definition rect_right (r : Rect) : Z := (rect_x r + rect_width r)%Z.
Definition rect_bottom (r : Rect) : Z := (rect_y r + rect_height r)%Z.

(** *** The drawing surface

    What the code sends to pygame, in order. *)
Inductive DrawOp : Type :=
| set_at (pos : Z * Z) (color : PyObj)
| draw_circle (color : PyObj) (pos : Z * Z) (radius : Z).

Definition Surface : Type := list DrawOp.

(** ** gnipMath.py *)

Module gnipMath.

Definition NearestMultiple (num target : Z) : Exn Z :=
  half <- py_floordiv target 2 ;;
  q <- py_floordiv (num + half) target ;;
  Ok (q * target)%Z.

Definition InverseLerp (val min max : Q) : Exn Q :=
  let offset := (val - min)%Q in
  let delta := (max - min)%Q in
  py_truediv offset delta.

(** *** cRange *)

(** [_lo] and [_hi] do not exist as attributes before the first [Include]. *)
Record cRange : Type := mk_cRange {
  _isInitialized : bool;
  _lo : option Q;
  _hi : option Q
}.

(** What [__getattr__] does for a name other than ["lo"] and ["hi"]. *)
Definition getattr_other (self : cRange) : Exn Q :=
  _ <- py_assert (_isInitialized self) ;;
  Raise AttributeError.

(** [self._lo]: the instance attribute, and [__getattr__] when it is missing. *)
Definition self_lo (self : cRange) : Exn Q :=
  match _lo self with
  | Some v => Ok v
  | None => getattr_other self
  end.

Definition self_hi (self : cRange) : Exn Q :=
  match _hi self with
  | Some v => Ok v
  | None => getattr_other self
  end.

(** [r.name] for a name that normal lookup does not find. *)
Definition __getattr__ (self : cRange) (name : string) : Exn Q :=
  _ <- py_assert (_isInitialized self) ;;
  if String.eqb name "lo" then self_lo self
  else if String.eqb name "hi" then self_hi self
  else Raise AttributeError.

Definition Span (self : cRange) : Exn Q :=
  _ <- py_assert (_isInitialized self) ;;
  hi <- self_hi self ;;
  lo <- self_lo self ;;
  Ok (hi - lo)%Q.

Definition Mid (self : cRange) : Exn Q :=
  _ <- py_assert (_isInitialized self) ;;
  lo <- self_lo self ;;
  hi <- self_hi self ;;
  Ok ((lo + hi) / 2)%Q.

Definition Include (val : Q) (self : cRange) : Exn cRange :=
  if negb (_isInitialized self) then
    Ok {| _isInitialized := true; _lo := Some val; _hi := Some val |}
  else
    lo <- self_lo self ;;
    let self1 :=
      if Qltb val lo
      then {| _isInitialized := _isInitialized self; _lo := Some val; _hi := _hi self |}
      else self in
    hi <- self_hi self1 ;;
    Ok (if Qltb hi val
        then {| _isInitialized := _isInitialized self1; _lo := _lo self1; _hi := Some val |}
        else self1).

(** [cRange(lo, hi)], both arguments defaulting to [None]. *)
Definition cRange_init (lo hi : option Q) : Exn cRange :=
  let self := {| _isInitialized := false; _lo := None; _hi := None |} in
  match lo, hi with
  | None, None => Ok self
  | Some l, Some h =>
      self1 <- Include l self ;;
      Include h self1
  | _, _ => Raise AssertionError
  end.

(** A run of [Include] calls, in order. *)
Fixpoint IncludeAll (vals : list Q) (self : cRange) : Exn cRange :=
  match vals with
  | [] => Ok self
  | v :: rest =>
      self1 <- Include v self ;;
      IncludeAll rest self1
  end.

(** *** cVector2 *)

Record cVector2 : Type := mk_cVector2 { x : Q; y : Q }.

Definition cVector2_neg (self : cVector2) : cVector2 :=
  {| x := - x self; y := - y self |}.

Definition cVector2_add (self rhs : cVector2) : cVector2 :=
  {| x := x self + x rhs; y := y self + y rhs |}.

Definition cVector2_sub (self rhs : cVector2) : cVector2 :=
  {| x := x self - x rhs; y := y self - y rhs |}.

(** [vector * scalar]; the [isinstance] assertion holds for every number. *)
Definition cVector2_mul (self : cVector2) (rhs : Q) : cVector2 :=
  {| x := rhs * x self; y := rhs * y self |}.

(** [vector / scalar] is [self * (1.0 / rhs)]. *)
Definition cVector2_div (self : cVector2) (rhs : Q) : Exn cVector2 :=
  inv <- py_truediv 1 rhs ;;
  Ok (cVector2_mul self inv).

Definition AsIntTuple (self : cVector2) : Z * Z :=
  (py_int (x self), py_int (y self)).

(** [math.sqrt], [math.cos], [math.sin] and [math.pi] of the host. *)
Class Math : Type := {
  math_sqrt : Q -> Q;
  math_cos : Q -> Q;
  math_sin : Q -> Q;
  math_pi : Q
}.

Section Trig.
Context `{Math}.

Definition Magnitude (self : cVector2) : Q :=
  math_sqrt (x self ^ 2 + y self ^ 2).

Definition Normalize (self : cVector2) : Exn cVector2 :=
  _ <- py_assert (negb (Qeq_bool (Magnitude self) 0)) ;;
  cVector2_div self (Magnitude self).

Definition NormalizeSafe (self : cVector2) : Exn cVector2 :=
  if Qeq_bool (x self) 0 && Qeq_bool (y self) 0 then Ok self
  else Normalize self.

(** [v = cVector2(); v.SetFromPolar(angle, length)] *)
Definition SetFromPolar (angle length : Q) : cVector2 :=
  {| x := math_cos angle * length; y := math_sin angle * length |}.

Definition RandomDirection : M cVector2 :=
  angle <~ random_uniform 0 (2 * math_pi) ;;
  ret (SetFromPolar angle 1).

Definition RandomDirectionWithSpread (dir halfAngleSpread : Q) : M cVector2 :=
  offset <~ random_uniform (- halfAngleSpread) halfAngleSpread ;;
  ret (SetFromPolar (dir + offset) 1).
End Trig.

(** *** General math *)

Definition ApproxEqualTolerance : Q := 1 # 10000.

Definition ApproxEqual (val1 val2 : Q) : bool :=
  Qltb (Qabs (val1 - val2)) ApproxEqualTolerance.

(** The loop [while b: a, b = b, a % b] of [GCD]. *)
Equations? GCD (a b : Z) : Z by wf (Z.abs_nat b) lt :=
  GCD a b with Z.eq_dec b 0%Z := {
    | left _ => a
    | right Hne => GCD b (a mod b)%Z }.
Proof.
  pose proof (Z.mod_bound_or a b Hne). lia.
Qed.




(** [LinInterp] on two floats; the [isinstance] assertion holds. *)
Definition LinInterp (x1 x2 u : Q) : Q := (x1 + (x2 - x1) * u)%Q.

Definition Lerp : Q -> Q -> Q -> Q := LinInterp.

(** [LinInterp] on two vectors. *)
Definition LinInterp_vec (x1 x2 : cVector2) (u : Q) : cVector2 :=
  cVector2_add x1 (cVector2_mul (cVector2_sub x2 x1) u).

Definition QuadraticInterp (x0 x1 x2 u : Q) : Q :=
  (((2 * x0) - (4 * x1) + (2 * x2)) * u ^ 2 + ((-3 * x0) + (4 * x1) - x2) * u + x0)%Q.

Definition BiLinInterp (a b c d u v : Q) : Q :=
  let v1 := LinInterp a b u in
  let v2 := LinInterp d c u in
  LinInterp v1 v2 v.

(** [Clamp], on any values with a [<]. *)
Definition Clamp {T} (lt : T -> T -> bool) (val min max : T) : T :=
  if lt val min then min
  else if lt max val then max
  else val.

Definition ClampHi {T} (lt : T -> T -> bool) (val hi : T) : T :=
  if lt hi val then hi else val.

Definition ClampLo {T} (lt : T -> T -> bool) (val lo : T) : T :=
  if lt val lo then lo else val.

(** *** cRange, the other methods *)

Definition cRange_IncludeRange (range self : cRange) : Exn cRange :=
  _ <- py_assert (_isInitialized self) ;;
  _ <- py_assert (_isInitialized range) ;;
  lo <- self_lo range ;;
  self1 <- Include lo self ;;
  hi <- self_hi range ;;
  Include hi self1.

Definition cRange_Contains (val : Q) (self : cRange) : Exn bool :=
  _ <- py_assert (_isInitialized self) ;;
  lo <- self_lo self ;;
  if Qle_bool lo val then
    hi <- self_hi self ;;
    Ok (Qle_bool val hi)
  else Ok false.

Definition cRange_Clamp (val : Q) (self : cRange) : Exn Q :=
  _ <- py_assert (_isInitialized self) ;;
  lo <- self_lo self ;;
  hi <- self_hi self ;;
  Ok (Clamp Qltb val lo hi).

Definition cRange_ClampHi (val : Q) (self : cRange) : Exn Q :=
  _ <- py_assert (_isInitialized self) ;;
  hi <- self_hi self ;;
  Ok (ClampHi Qltb val hi).

Definition cRange_ClampLo (val : Q) (self : cRange) : Exn Q :=
  _ <- py_assert (_isInitialized self) ;;
  lo <- self_lo self ;;
  Ok (ClampLo Qltb val lo).

(** *** cPulseWave *)

Record cPulseWave : Type := mk_cPulseWave {
  _wavelength : Q;
  _amplitudeRange : cRange;
  _phaseShift : Q;
  _pulseWidth : Q
}.

Definition cPulseWave_init (wavelength : Q) (amplitudeRange : cRange)
    (phaseShift pulseWidth : Q) : Exn cPulseWave :=
  _ <- py_assert (Qle_bool 0 phaseShift && Qle_bool phaseShift 1) ;;
  _ <- py_assert (Qle_bool 0 pulseWidth && Qle_bool pulseWidth 1) ;;
  Ok {| _wavelength := wavelength;
        _amplitudeRange := amplitudeRange;
        _phaseShift := phaseShift;
        _pulseWidth := pulseWidth |}.

Definition cPulseWave_Get (t : Q) (self : cPulseWave) : Exn Q :=
  ratio <- py_truediv t (_wavelength self) ;;
  let fractional := math_modf_frac (ratio + _phaseShift self) in
  if Qltb fractional (_pulseWidth self)
  then __getattr__ (_amplitudeRange self) "lo"
  else __getattr__ (_amplitudeRange self) "hi".

End gnipMath.

(** ** gnppygame.py: ActorList *)

Module gnppygame.

(** The identity of an object. *)
Definition ref : Type := nat.

(** The protocol of the objects an [ActorList] holds: [step], [draw],
    [can_reap] and [reap].  [S] is what a [step] may change besides the actor
    itself. *)
Class Actor (A S : Type) : Type := {
  actor_step : Q -> A -> S -> Exn (A * S);
  actor_draw : A -> Surface -> Exn Surface;
  actor_can_reap : A -> bool;
  actor_reap : A -> Exn A
}.

(** An [ActorList] is a Python list of references; [heap] holds the objects
    they point to and [next_ref] is the identity the next new object gets. *)
Record ActorList (A : Type) : Type := mk_ActorList {
  heap : gmap nat A;
  next_ref : ref;
  items : list ref
}.

Arguments mk_ActorList {A} heap next_ref items.
Arguments heap {A} a.
Arguments next_ref {A} a.
Arguments items {A} a.

Section ActorList.
Context {A S : Type} `{Actor A S}.

(** [ActorList()] *)
Definition ActorList_init : ActorList A :=
  {| heap := ∅; next_ref := 0%nat; items := [] |}.

(** [self.append(obj)] for an object that already exists. *)
Definition append (r : ref) (self : ActorList A) : ActorList A :=
  {| heap := heap self; next_ref := next_ref self; items := items self ++ [r] |}.

(** [self.append(obj)] for a newly constructed [obj]. *)
Definition append_new (obj : A) (self : ActorList A) : ActorList A :=
  {| heap := <[next_ref self := obj]> (heap self);
     next_ref := Datatypes.S (next_ref self);
     items := items self ++ [next_ref self] |}.

Definition len (self : ActorList A) : nat := length (items self).

(** The first loop of [step].  Besides the new state it returns
    [actors_to_delete] and, as a record of what happened, the receivers of
    [actor.step] in call order. *)
Fixpoint step_loop (time_delta : Q) (todo : list ref) (h : gmap nat A) (s : S)
    (actors_to_delete stepped : list ref)
  : Exn (gmap nat A * S * list ref * list ref) :=
  match todo with
  | [] => Ok (h, s, actors_to_delete, stepped)
  | r :: rest =>
      match h !! r with
      | None => Raise DanglingReference
      | Some actor =>
          res <- actor_step time_delta actor s ;;
          let h' := <[r := fst res]> h in
          step_loop time_delta rest h' (snd res)
            (if actor_can_reap (fst res) then actors_to_delete ++ [r]
             else actors_to_delete)
            (stepped ++ [r])
      end
  end.

(** The second loop of [step]. *)
Fixpoint remove_loop (actors_to_delete : list ref) (l : list ref) : Exn (list ref) :=
  match actors_to_delete with
  | [] => Ok l
  | actor_to_del :: rest =>
      l' <- list_remove actor_to_del l ;;
      remove_loop rest l'
  end.

(** [self.step(time_delta)]; the last component lists the actors stepped. *)
Definition step (time_delta : Q) (self : ActorList A) (s : S)
  : Exn (ActorList A * S * list ref) :=
  res <- step_loop time_delta (items self) (heap self) s [] [] ;;
  let '(h, s', actors_to_delete, stepped) := res in
  l <- remove_loop actors_to_delete (items self) ;;
  Ok ({| heap := h; next_ref := next_ref self; items := l |}, s', stepped).

Fixpoint draw_loop (todo : list ref) (h : gmap nat A) (surface : Surface)
    (drawn : list ref) : Exn (Surface * list ref) :=
  match todo with
  | [] => Ok (surface, drawn)
  | r :: rest =>
      match h !! r with
      | None => Raise DanglingReference
      | Some actor =>
          surface' <- actor_draw actor surface ;;
          draw_loop rest h surface' (drawn ++ [r])
      end
  end.

(** [self.draw(surface)]; the second component lists the actors drawn. *)
Definition draw (self : ActorList A) (surface : Surface) : Exn (Surface * list ref) :=
  draw_loop (items self) (heap self) surface [].

Fixpoint reap_loop (todo : list ref) (h : gmap nat A) : Exn (gmap nat A) :=
  match todo with
  | [] => Ok h
  | r :: rest =>
      match h !! r with
      | None => Raise DanglingReference
      | Some actor =>
          actor' <- actor_reap actor ;;
          reap_loop rest (<[r := actor']> h)
      end
  end.

(** [self.reap()] *)
Definition reap (self : ActorList A) : Exn (ActorList A) :=
  h <- reap_loop (items self) (heap self) ;;
  Ok {| heap := h; next_ref := next_ref self; items := [] |}.

(** What a frame driver does with the list: [step] and [draw] calls. *)
Inductive Call : Type :=
| CallStep (time_delta : Q)
| CallDraw.

(** A run of calls on one list.  The last two components collect the actors
    stepped and the actors drawn over the whole run. *)
Fixpoint run_calls (calls : list Call) (self : ActorList A) (s : S) (surface : Surface)
    (stepped drawn : list ref)
  : Exn (ActorList A * S * Surface * list ref * list ref) :=
  match calls with
  | [] => Ok (self, s, surface, stepped, drawn)
  | CallStep time_delta :: rest =>
      res <- step time_delta self s ;;
      let '(self', s', stepped') := res in
      run_calls rest self' s' surface (stepped ++ stepped') drawn
  | CallDraw :: rest =>
      res <- draw self surface ;;
      run_calls rest self s (fst res) stepped (drawn ++ snd res)
  end.
End ActorList.

(** *** General utilities *)

Definition rnd_point (xmax ymax : Z) : M (Z * Z) :=
  x <~ random_randint 0 xmax ;;
  y <~ random_randint 0 ymax ;;
  ret (x, y).

Definition rnd_color : M PyObj :=
  r <~ random_randint 0 255 ;;
  g <~ random_randint 0 255 ;;
  b <~ random_randint 0 255 ;;
  ret (PyTuple [PyInt r; PyInt g; PyInt b; PyInt 255]).

(** The generator [random_no_repeat(items)]: its state is the last value it
    yielded, [None] before the first [next()].  [items] is the list as it is
    when the generator is resumed. *)
Definition random_no_repeat_next {T} (eqb : T -> T -> bool) (items : list T)
    (last : option T) : M (T * option T) :=
  match last with
  | None =>
      v <~ random_choice items ;;
      ret (v, Some v)
  | Some l =>
      if Nat.eqb (length items) 1 then
        match items with
        | v :: _ => ret (v, Some v)
        | [] => lift (Raise IndexError)
        end
      else
        v <~ random_choice (List.filter (fun item => negb (eqb item l)) items) ;;
        ret (v, Some v)
  end.

(** [n] successive [next()] calls on the generator. *)
Fixpoint random_no_repeat_take {T} (eqb : T -> T -> bool) (items : list T)
    (n : nat) (last : option T) : M (list T) :=
  match n with
  | O => ret []
  | Datatypes.S n' =>
      r <~ random_no_repeat_next eqb items last ;;
      rest <~ random_no_repeat_take eqb items n' (snd r) ;;
      ret (fst r :: rest)
  end.

(** The generator [cycle_through_items(items)]: its state is [idx], [None]
    before the first [next()].  A resumed generator first advances [idx]. *)
Definition cycle_through_items_next {T} (items : list T) (state : option nat)
  : Exn (T * option nat) :=
  let idx :=
    match state with
    | None => 0%nat
    | Some i => if (length items <=? Datatypes.S i)%nat then 0%nat else Datatypes.S i
    end in
  match nth_error items idx with
  | Some v => Ok (v, Some idx)
  | None => Raise IndexError
  end.

Fixpoint cycle_through_items_take {T} (items : list T) (n : nat) (state : option nat)
  : Exn (list T) :=
  match n with
  | O => Ok []
  | Datatypes.S n' =>
      r <- cycle_through_items_next items state ;;
      rest <- cycle_through_items_take items n' (snd r) ;;
      Ok (fst r :: rest)
  end.

(** *** Rect utilities *)

Definition clamp_point_to_rect (p : Z * Z) (r : Rect) : Z * Z :=
  (gnipMath.Clamp Z.ltb (fst p) (rect_left r) (rect_right r - 1)%Z,
   gnipMath.Clamp Z.ltb (snd p) (rect_top r) (rect_bottom r - 1)%Z).


Definition split_rect_vertically (r : Rect) (pieces : Z) : Exn (list Rect) :=
  step <- py_floordiv (rect_height r) pieces ;;
  Ok (map (fun i => mk_Rect (rect_x r) (Z.of_nat i * step + rect_y r)%Z (rect_width r) step)
        (seq 0 (Z.to_nat pieces))).

(** *** ScreenFader *)

Module ScreenFader.

(** [_alpha] is the alpha last given to [_fade_surf.set_alpha]. *)
Record t : Type := mk {
  _color : PyObj;
  _length : Q;
  _start_alpha : Z;
  _end_alpha : Z;
  _alpha : Q;
  _elapsed_time : Q
}.

Definition init (color : PyObj) (length : Q) (start_alpha end_alpha : Z) : Exn t :=
  _ <- py_assert ((0 <=? start_alpha)%Z && (start_alpha <=? 255)%Z) ;;
  _ <- py_assert ((0 <=? end_alpha)%Z && (end_alpha <=? 255)%Z) ;;
  _ <- py_assert (Qle_bool 0 length) ;;
  Ok {| _color := color;
        _length := length;
        _start_alpha := start_alpha;
        _end_alpha := end_alpha;
        _alpha := inject_Z start_alpha;
        _elapsed_time := 0 |}.

Definition step (time_delta : Q) (self : t) : Exn t :=
  let elapsed := (_elapsed_time self + time_delta)%Q in
  ratio <- py_truediv elapsed (_length self) ;;
  let new_alpha :=
    gnipMath.LinInterp (inject_Z (_start_alpha self)) (inject_Z (_end_alpha self))
      (gnipMath.Clamp Qltb ratio 0%Q 1%Q) in
  Ok {| _color := _color self;
        _length := _length self;
        _start_alpha := _start_alpha self;
        _end_alpha := _end_alpha self;
        _alpha := new_alpha;
        _elapsed_time := elapsed |}.

Definition can_reap (self : t) : bool :=
  Qle_bool (_length self) (_elapsed_time self).

End ScreenFader.

(** *** The prototype particle system *)

Module ParticleProto.

Record t : Type := mk {
  _position : gnipMath.cVector2;
  _velocity : gnipMath.cVector2;
  _lifetime_remaining : Q;
  _color : PyObj
}.

Definition can_reap (self : t) : bool :=
  Qle_bool (_lifetime_remaining self) 0.

Definition step (time_delta : Q) (self : t) : Exn t :=
  _ <- py_assert (negb (can_reap self)) ;;
  let position :=
    gnipMath.cVector2_add (_position self)
      (gnipMath.cVector2_mul (_velocity self) time_delta) in
  let lifetime := (_lifetime_remaining self - time_delta)%Q in
  Ok {| _position := position;
        _velocity := _velocity self;
        _lifetime_remaining := if Qltb lifetime 0 then 0 else lifetime;
        _color := _color self |}.

Definition draw (self : t) (surface : Surface) : Exn Surface :=
  _ <- py_assert (negb (can_reap self)) ;;
  Ok (surface ++ [draw_circle (_color self) (gnipMath.AsIntTuple (_position self)) 4]).

End ParticleProto.

Module ParticleSystemProto.

(** [_particles] is never shared and nothing is ever removed from it, so the
    list holds the particles themselves. *)
Record t : Type := mk {
  _position : gnipMath.cVector2;
  _particles : list ParticleProto.t
}.

Section Init.
Context `{gnipMath.Math}.

(** The loop of [__init__], run [count] times. *)
Fixpoint init_loop (count : nat) (lifetime_range velocity_range : Q * Q)
    (color : PyObj) (self : t) : M t :=
  match count with
  | O => ret self
  | Datatypes.S count' =>
      dir <~ gnipMath.RandomDirection ;;
      speed <~ random_uniform (fst velocity_range) (snd velocity_range) ;;
      lifetime <~ random_uniform (fst lifetime_range) (snd lifetime_range) ;;
      c <~ (if py_truthy color then ret color else rnd_color) ;;
      let p := ParticleProto.mk (_position self) (gnipMath.cVector2_mul dir speed)
                 lifetime c in
      init_loop count' lifetime_range velocity_range color
        {| _position := _position self; _particles := _particles self ++ [p] |}
  end.

Definition init (start_pos : gnipMath.cVector2) (num_particles : Z)
    (lifetime_range velocity_range : Q * Q) (color : PyObj) : M t :=
  init_loop (Z.to_nat num_particles) lifetime_range velocity_range color
    {| _position := start_pos; _particles := [] |}.
End Init.

Fixpoint step_loop (time_delta : Q) (todo : list ParticleProto.t)
  : Exn (list ParticleProto.t) :=
  match todo with
  | [] => Ok []
  | particle :: rest =>
      particle' <- (if negb (ParticleProto.can_reap particle)
                    then ParticleProto.step time_delta particle
                    else Ok particle) ;;
      rest' <- step_loop time_delta rest ;;
      Ok (particle' :: rest')
  end.

Definition step (time_delta : Q) (self : t) : Exn t :=
  ps <- step_loop time_delta (_particles self) ;;
  Ok {| _position := _position self; _particles := ps |}.

Fixpoint draw_loop (todo : list ParticleProto.t) (surface : Surface) : Exn Surface :=
  match todo with
  | [] => Ok surface
  | particle :: rest =>
      surface' <- (if negb (ParticleProto.can_reap particle)
                   then ParticleProto.draw particle surface
                   else Ok surface) ;;
      draw_loop rest surface'
  end.

Definition draw (self : t) (surface : Surface) : Exn Surface :=
  draw_loop (_particles self) surface.

Definition can_reap (self : t) : bool :=
  Nat.eqb (length (_particles self)) 0.

(** A run of [step] calls, one per frame. *)
Fixpoint run_frames (dts : list Q) (self : t) : Exn t :=
  match dts with
  | [] => Ok self
  | dt :: rest =>
      self' <- step dt self ;;
      run_frames rest self'
  end.

End ParticleSystemProto.

(** *** TimerManager *)

Module TimerManager.

(** A timer is [(trigger_time, callback)].  A callback is known by its
    identity; calling it is recorded and does not touch the manager. *)
Record t : Type := mk {
  _elapsed_seconds : Q;
  _timers : list (Q * nat)
}.

Definition init : t := {| _elapsed_seconds := 0; _timers := [] |}.

Definition add (timer_delay : Q) (callback : nat) (self : t) : t :=
  let trigger_time := (_elapsed_seconds self + timer_delay)%Q in
  {| _elapsed_seconds := _elapsed_seconds self;
     _timers := _timers self ++ [(trigger_time, callback)] |}.

(** [==] on two timers. *)
Definition timer_eqb (t1 t2 : Q * nat) : bool :=
  Qeq_bool (fst t1) (fst t2) && Nat.eqb (snd t1) (snd t2).

(** The first loop of [step]: the callbacks called so far and
    [timers_to_del]. *)
Fixpoint fire_loop (elapsed : Q) (todo : list (Q * nat)) (called : list nat)
    (timers_to_del : list (Q * nat)) : list nat * list (Q * nat) :=
  match todo with
  | [] => (called, timers_to_del)
  | timer :: rest =>
      if Qltb (fst timer) elapsed
      then fire_loop elapsed rest (called ++ [snd timer]) (timers_to_del ++ [timer])
      else fire_loop elapsed rest called timers_to_del
  end.

(** The second loop of [step]. *)
Fixpoint delete_loop (timers_to_del timers : list (Q * nat)) : Exn (list (Q * nat)) :=
  match timers_to_del with
  | [] => Ok timers
  | timer :: rest =>
      timers' <- py_remove timer_eqb timer timers ;;
      delete_loop rest timers'
  end.

(** [self.step(time_delta)]; [called] collects the callbacks called. *)
Definition step (time_delta : Q) (self : t) (called : list nat) : Exn (t * list nat) :=
  let elapsed := (_elapsed_seconds self + time_delta)%Q in
  let fired := fire_loop elapsed (_timers self) called [] in
  timers <- delete_loop (snd fired) (_timers self) ;;
  Ok ({| _elapsed_seconds := elapsed; _timers := timers |}, fst fired).

End TimerManager.

End gnppygame.

(** ** gnpactor.py *)

Module gnpactor.
Import gnipMath gnppygame.

(** [Dot], a [LifetimeActor] drawn as one pixel. *)
Module Dot.

Record t : Type := mk {
  lifetime_remaining : Q;
  _position : cVector2;
  _color : PyObj
}.

Definition step (time_delta : Q) (self : t) : t :=
  {| lifetime_remaining := (lifetime_remaining self - time_delta)%Q;
     _position := _position self;
     _color := _color self |}.

Definition can_reap (self : t) : bool :=
  Qle_bool (lifetime_remaining self) 0.

Definition reap (self : t) : t :=
  {| lifetime_remaining := 0;
     _position := _position self;
     _color := _color self |}.

Definition draw (self : t) (surface : Surface) : Surface :=
  surface ++ [set_at (AsIntTuple (_position self)) (_color self)].

End Dot.

#[export] Instance Dot_Actor : Actor Dot.t unit := {
  actor_step dt d s := Ok (Dot.step dt d, s);
  actor_draw d surface := Ok (Dot.draw d surface);
  actor_can_reap := Dot.can_reap;
  actor_reap d := Ok (Dot.reap d)
}.

(** [GrowingCircle], a [LifetimeActor] whose radius follows its lifetime. *)
Module GrowingCircle.

Record t : Type := mk {
  lifetime_remaining : Q;
  _position : cVector2;
  _starting_radius : Q;
  _radius : Q;
  _ending_radius : Q;
  _color : PyObj;
  _total_lifetime : Q
}.

Definition init (position : cVector2) (starting_radius ending_radius : Q)
    (color : PyObj) (lifetime : Q) : t :=
  {| lifetime_remaining := lifetime;
     _position := position;
     _starting_radius := starting_radius;
     _radius := starting_radius;
     _ending_radius := ending_radius;
     _color := color;
     _total_lifetime := lifetime |}.

Definition step (time_delta : Q) (self : t) : Exn t :=
  let remaining := (lifetime_remaining self - time_delta)%Q in
  u <- py_truediv remaining (_total_lifetime self) ;;
  Ok {| lifetime_remaining := remaining;
        _position := _position self;
        _starting_radius := _starting_radius self;
        _radius := Lerp (_ending_radius self) (_starting_radius self) u;
        _ending_radius := _ending_radius self;
        _color := _color self;
        _total_lifetime := _total_lifetime self |}.

Definition can_reap (self : t) : bool :=
  Qle_bool (lifetime_remaining self) 0.

Definition draw (self : t) (surface : Surface) : Surface :=
  surface ++ [draw_circle (_color self) (AsIntTuple (_position self)) (py_int (_radius self))].

(** A run of [step] calls, one per frame. *)
Fixpoint run_frames (dts : list Q) (self : t) : Exn t :=
  match dts with
  | [] => Ok self
  | dt :: rest =>
      self' <- step dt self ;;
      run_frames rest self'
  end.

End GrowingCircle.

End gnpactor.

(** ** gnpparticle.py *)

Module gnpparticle.
Import gnipMath gnppygame.

(** *** The emit rate *)

Inductive EmitterRate : Type :=
| Rate_Burst (_num_particles : Z) (_is_complete : bool)
| Rate_DelayConstant (_delta_carryover _emitDelay : Q)
| Rate_DelayRange (_delta_carryover _lo _hi : Q)
| Rate_DelayRangeWithLifetime (_delta_carryover _lo _hi _emitter_lifetime_remaining : Q).

(** The constructors of the classes. *)
Definition EmitterRate_Burst (num_particles : Z) : EmitterRate :=
  Rate_Burst num_particles false.

Definition EmitterRate_DelayConstant (emit_delay : Q) : EmitterRate :=
  Rate_DelayConstant 0 emit_delay.

Definition EmitterRate_DelayRange (range_lo range_hi : Q) : EmitterRate :=
  Rate_DelayRange 0 range_lo range_hi.


Definition _get_delay (self : EmitterRate) : M Q :=
  match self with
  | Rate_Burst _ _ => lift (Raise AttributeError)
  | Rate_DelayConstant _ d => ret d
  | Rate_DelayRange _ lo hi => random_uniform lo hi
  | Rate_DelayRangeWithLifetime _ lo hi _ => random_uniform lo hi
  end.

Definition get_carryover (self : EmitterRate) : Q :=
  match self with
  | Rate_Burst _ _ => 0
  | Rate_DelayConstant c _ => c
  | Rate_DelayRange c _ _ => c
  | Rate_DelayRangeWithLifetime c _ _ _ => c
  end.

Definition set_carryover (c : Q) (self : EmitterRate) : EmitterRate :=
  match self with
  | Rate_Burst n b => Rate_Burst n b
  | Rate_DelayConstant _ d => Rate_DelayConstant c d
  | Rate_DelayRange _ lo hi => Rate_DelayRange c lo hi
  | Rate_DelayRangeWithLifetime _ lo hi t => Rate_DelayRangeWithLifetime c lo hi t
  end.

(** [EmitterRate_DelayBase.how_many] *)
Definition DelayBase_how_many (delta_time : Q) (self : EmitterRate) : M (Z * EmitterRate) :=
  let total_time := (delta_time + get_carryover self)%Q in
  emit_delay <~ _get_delay self ;;
  ratio <~ lift (py_truediv total_time emit_delay) ;;
  let emit_count := py_int ratio in
  ret (emit_count,
       set_carryover (total_time - inject_Z emit_count * emit_delay)%Q self).

Definition how_many (delta_time : Q) (self : EmitterRate) : M (Z * EmitterRate) :=
  match self with
  | Rate_Burst n _ => ret (n, Rate_Burst n true)
  | Rate_DelayConstant _ _ => DelayBase_how_many delta_time self
  | Rate_DelayRange _ _ _ => DelayBase_how_many delta_time self
  | Rate_DelayRangeWithLifetime c lo hi t =>
      DelayBase_how_many delta_time
        (Rate_DelayRangeWithLifetime c lo hi (t - delta_time)%Q)
  end.

Definition is_complete (self : EmitterRate) : bool :=
  match self with
  | Rate_Burst _ b => b
  | Rate_DelayConstant _ _ => false
  | Rate_DelayRange _ _ _ => false
  | Rate_DelayRangeWithLifetime _ _ _ t => Qle_bool t 0
  end.

(** A driver: [how_many] called once per frame, the counts collected. *)
Fixpoint run_frames (dts : list Q) (self : EmitterRate) : M (list Z * EmitterRate) :=
  match dts with
  | [] => ret ([], self)
  | dt :: rest =>
      r <~ how_many dt self ;;
      rs <~ run_frames rest (snd r) ;;
      ret (fst r :: fst rs, snd rs)
  end.

Definition sumZ (l : list Z) : Z := fold_right Z.add 0%Z l.
Definition sumQ (l : list Q) : Q := fold_right Qplus 0%Q l.

(** *** Speed, direction, lifetime and colour *)

Inductive EmitterSpeed : Type :=
| EmitterSpeed_Constant (_speed : Q)
| EmitterSpeed_Range (_lo _hi : Q).

Definition get_speed (self : EmitterSpeed) : M Q :=
  match self with
  | EmitterSpeed_Constant s => ret s
  | EmitterSpeed_Range lo hi => random_uniform lo hi
  end.

Inductive EmitterDirection : Type :=
| EmitterDirection_360
| Direction_Constant (_dir : cVector2)
| EmitterDirection_AngleWithSpread (_dir _half_angle_spread : Q).

Inductive EmitterLifetime : Type :=
| EmitterLifetime_Constant (_lifetime : Q)
| EmitterLifetime_Range (_lo _hi : Q).

Definition get_lifetime (self : EmitterLifetime) : M Q :=
  match self with
  | EmitterLifetime_Constant l => ret l
  | EmitterLifetime_Range lo hi => random_uniform lo hi
  end.

Inductive EmitterColor : Type :=
| EmitterColor_Constant (_color : PyObj)
| Color_Choice (colorChoices : list PyObj).

(** The loop of assertions in [EmitterColor_Choice.__init__]. *)
Fixpoint check_colors (color_choices : list PyObj) : Exn unit :=
  match color_choices with
  | [] => Ok tt
  | color :: rest =>
      _ <- py_assert (is_tuple_or_Color color) ;;
      check_colors rest
  end.

(** [EmitterColor_Choice(color_choices)] *)
Definition EmitterColor_Choice (color_choices : PyObj) : Exn EmitterColor :=
  _ <- py_assert (is_tuple color_choices) ;;
  match color_choices with
  | PyTuple l =>
      _ <- check_colors l ;;
      Ok (Color_Choice l)
  | _ => Raise AssertionError
  end.

Definition get_color (self : EmitterColor) : M PyObj :=
  match self with
  | EmitterColor_Constant c => ret c
  | Color_Choice l => random_choice l
  end.

(** *** Fields *)

Inductive EmitterField : Type :=
| cEmitterField_Constant (_accel_vect : cVector2)
| EmitterField_TrubulenceHACK (_freq_percentage _magnitude : Q)
| EmitterField_Drag (_percent_per_second : Q)
| EmitterField_PointAttract (_attract_point : cVector2) (_accel_mag : Q)
    (_falloff_radius : option Q).

Section Policies.
Context `{Math}.

(** [EmitterDirection_Constant(dir_vect)] *)
Definition EmitterDirection_Constant (dir_vect : cVector2) : Exn EmitterDirection :=
  d <- Normalize dir_vect ;;
  Ok (Direction_Constant d).

Definition get_direction (self : EmitterDirection) : M cVector2 :=
  match self with
  | EmitterDirection_360 => RandomDirection
  | Direction_Constant d => ret d
  | EmitterDirection_AngleWithSpread d spread => RandomDirectionWithSpread d spread
  end.

Definition get_accel_vector (self : EmitterField) (position cur_vel : cVector2)
  : M cVector2 :=
  match self with
  | cEmitterField_Constant a => ret a
  | EmitterField_TrubulenceHACK freq mag =>
      dir_vect <~ RandomDirection ;;
      u <~ random_random ;;
      if Qltb u freq then ret (cVector2_mul dir_vect mag)
      else ret {| x := 0; y := 0 |}
  | EmitterField_Drag k => ret (cVector2_neg (cVector2_mul cur_vel k))
  | EmitterField_PointAttract point mag falloff =>
      attract_dir <~ lift (NormalizeSafe (cVector2_sub point position)) ;;
      match falloff with
      | None => ret (cVector2_mul attract_dir mag)
      | Some radius =>
          _ <~ lift (py_assert (Qltb 0 radius)) ;;
          let distance := Magnitude (cVector2_sub point position) in
          if Qltb radius distance then ret {| x := 0; y := 0 |}
          else
            multiplier <~ lift (py_truediv (radius - distance) radius) ;;
            ret (cVector2_mul attract_dir (multiplier * mag))
      end
  end.
End Policies.

(** *** Particle *)

Module Particle.

Record t : Type := mk {
  _position : cVector2;
  _velocity : cVector2;
  _lifetime_remaining : Q;
  _color : PyObj;
  _size : Z
}.

Definition can_reap (self : t) : bool :=
  Qle_bool (_lifetime_remaining self) 0.

Definition step (time_delta : Q) (self : t) : Exn t :=
  _ <- py_assert (negb (can_reap self)) ;;
  let position := cVector2_add (_position self) (cVector2_mul (_velocity self) time_delta) in
  let lifetime := (_lifetime_remaining self - time_delta)%Q in
  Ok {| _position := position;
        _velocity := _velocity self;
        _lifetime_remaining := if Qltb lifetime 0 then 0 else lifetime;
        _color := _color self;
        _size := _size self |}.

Definition draw (self : t) (surface : Surface) : Exn Surface :=
  _ <- py_assert (negb (can_reap self)) ;;
  if (_size self =? 0)%Z
  then Ok (surface ++ [set_at (AsIntTuple (_position self)) (_color self)])
  else Ok (surface ++ [draw_circle (_color self) (AsIntTuple (_position self)) (_size self)]).

(** [p._velocity = v] *)
Definition set_velocity (v : cVector2) (self : t) : t :=
  {| _position := _position self;
     _velocity := v;
     _lifetime_remaining := _lifetime_remaining self;
     _color := _color self;
     _size := _size self |}.

End Particle.

(** A [Particle] follows the actor protocol, except that it has no [reap]. *)
#[export] Instance Particle_Actor : Actor Particle.t unit := {
  actor_step dt p s := p' <- Particle.step dt p ;; Ok (p', s);
  actor_draw := Particle.draw;
  actor_can_reap := Particle.can_reap;
  actor_reap _ := Raise AttributeError
}.

(** *** Emitter *)

Module Emitter.

Record t : Type := mk {
  _position : cVector2;
  _particles : ActorList Particle.t;
  _rate_obj : EmitterRate;
  _speed_obj : EmitterSpeed;
  _direction_obj : EmitterDirection;
  _lifetime_obj : EmitterLifetime;
  _color_obj : EmitterColor;
  _start_size : Z;
  _field_obj : option EmitterField;
  _can_emit : bool
}.

(** [Emitter(position, rate_obj, ..., size, field_obj)] *)
Definition init (position : cVector2) (rate_obj : EmitterRate) (speed_obj : EmitterSpeed)
    (direction_obj : EmitterDirection) (lifetime_obj : EmitterLifetime)
    (color_obj : EmitterColor) (size : Z) (field_obj : option EmitterField) : t :=
  {| _position := position;
     _particles := ActorList_init;
     _rate_obj := rate_obj;
     _speed_obj := speed_obj;
     _direction_obj := direction_obj;
     _lifetime_obj := lifetime_obj;
     _color_obj := color_obj;
     _start_size := size;
     _field_obj := field_obj;
     _can_emit := true |}.

Definition set_particles (ps : ActorList Particle.t) (self : t) : t :=
  {| _position := _position self;
     _particles := ps;
     _rate_obj := _rate_obj self;
     _speed_obj := _speed_obj self;
     _direction_obj := _direction_obj self;
     _lifetime_obj := _lifetime_obj self;
     _color_obj := _color_obj self;
     _start_size := _start_size self;
     _field_obj := _field_obj self;
     _can_emit := _can_emit self |}.

Definition set_rate (r : EmitterRate) (self : t) : t :=
  {| _position := _position self;
     _particles := _particles self;
     _rate_obj := r;
     _speed_obj := _speed_obj self;
     _direction_obj := _direction_obj self;
     _lifetime_obj := _lifetime_obj self;
     _color_obj := _color_obj self;
     _start_size := _start_size self;
     _field_obj := _field_obj self;
     _can_emit := _can_emit self |}.

Definition set_can_emit (b : bool) (self : t) : t :=
  {| _position := _position self;
     _particles := _particles self;
     _rate_obj := _rate_obj self;
     _speed_obj := _speed_obj self;
     _direction_obj := _direction_obj self;
     _lifetime_obj := _lifetime_obj self;
     _color_obj := _color_obj self;
     _start_size := _start_size self;
     _field_obj := _field_obj self;
     _can_emit := b |}.

Definition set_position (pos : cVector2) (self : t) : t :=
  {| _position := pos;
     _particles := _particles self;
     _rate_obj := _rate_obj self;
     _speed_obj := _speed_obj self;
     _direction_obj := _direction_obj self;
     _lifetime_obj := _lifetime_obj self;
     _color_obj := _color_obj self;
     _start_size := _start_size self;
     _field_obj := _field_obj self;
     _can_emit := _can_emit self |}.

Definition start (self : t) : t := set_can_emit true self.
Definition stop (self : t) : t := set_can_emit false self.

Definition can_reap (self : t) : bool :=
  let pending_particles := negb (len (_particles self) =? 0)%nat in
  negb pending_particles && is_complete (_rate_obj self).

Section Stepping.
Context `{Math}.

(** The body of the loop of [_emit], run [count] times. *)
Fixpoint emit_loop (count : nat) (self : t) : M t :=
  match count with
  | O => ret self
  | Datatypes.S count' =>
      speed <~ get_speed (_speed_obj self) ;;
      dir <~ get_direction (_direction_obj self) ;;
      let velocity := cVector2_mul dir speed in
      lifetime <~ get_lifetime (_lifetime_obj self) ;;
      color <~ get_color (_color_obj self) ;;
      let p := Particle.mk (_position self) velocity lifetime color (_start_size self) in
      emit_loop count' (set_particles (append_new p (_particles self)) self)
  end.

(** [range(n)] is empty for [n <= 0]. *)
Definition _emit (time_delta : Q) (self : t) : M t :=
  if negb (is_complete (_rate_obj self)) then
    r <~ how_many time_delta (_rate_obj self) ;;
    emit_loop (Z.to_nat (fst r)) (set_rate (snd r) self)
  else ret self.

(** The loop [for p in self._particles: p._velocity += ...]. *)
Fixpoint field_loop (field : EmitterField) (time_delta : Q) (todo : list ref)
    (h : gmap nat Particle.t) : M (gmap nat Particle.t) :=
  match todo with
  | [] => ret h
  | r :: rest =>
      match h !! r with
      | None => lift (Raise DanglingReference)
      | Some p =>
          accel <~ get_accel_vector field (Particle._position p) (Particle._velocity p) ;;
          let v := cVector2_add (Particle._velocity p) (cVector2_mul accel time_delta) in
          field_loop field time_delta rest (<[r := Particle.set_velocity v p]> h)
      end
  end.

Definition apply_field (time_delta : Q) (self : t) : M t :=
  match _field_obj self with
  | Some field =>
      h <~ field_loop field time_delta (items (_particles self)) (heap (_particles self)) ;;
      ret (set_particles
             {| heap := h;
                next_ref := next_ref (_particles self);
                items := items (_particles self) |} self)
  | None => ret self
  end.

Definition step (time_delta : Q) (self : t) : M t :=
  _ <~ lift (py_assert (negb (can_reap self))) ;;
  self1 <~ (if _can_emit self then _emit time_delta self else ret self) ;;
  self2 <~ apply_field time_delta self1 ;;
  res <~ lift (gnppygame.step time_delta (_particles self2) tt) ;;
  ret (set_particles (fst (fst res)) self2).
End Stepping.

Definition draw (self : t) (surface : Surface) : Exn Surface :=
  _ <- py_assert (negb (can_reap self)) ;;
  res <- gnppygame.draw (_particles self) surface ;;
  Ok (fst res).

End Emitter.

(** An [Emitter] is itself an actor, stepped with the random generator. *)
#[export] Instance Emitter_Actor `{Math} : Actor Emitter.t Rng := {
  actor_step := Emitter.step;
  actor_draw := Emitter.draw;
  actor_can_reap := Emitter.can_reap;
  actor_reap _ := Raise AttributeError
}.

End gnpparticle.

(** * Predicates used in the statements *)

(** Both bounds of a range can be read, and they are in order. *)
Definition lo_le_hi (r : gnipMath.cRange) : Prop :=
  exists lo hi,
    gnipMath.__getattr__ r "lo" = Ok lo /\
    gnipMath.__getattr__ r "hi" = Ok hi /\
    (lo <= hi)%Q.

(** The range holds both bounds as attributes, in order. *)
Definition cRange_inv (r : gnipMath.cRange) : Prop :=
  exists lo hi,
    r = gnipMath.mk_cRange true (Some lo) (Some hi) /\ (lo <= hi)%Q.

(** Every reference in the list is below the next identity to be handed
    out, and no object is in the list twice: what [append_new] keeps. *)
Definition ActorList_wf {A} (al : gnppygame.ActorList A) : Prop :=
  NoDup (gnppygame.items al) /\
  Forall (fun r => r < gnppygame.next_ref al)%nat (gnppygame.items al).

(** A list holding one particle that has one second to live. *)
Definition example_particle : gnpparticle.Particle.t :=
  gnpparticle.Particle.mk
    (gnipMath.mk_cVector2 0 0) (gnipMath.mk_cVector2 1 0) 1
    (PyTuple [PyInt 255; PyInt 255; PyInt 255]) 0.

Definition example_list : gnppygame.ActorList gnpparticle.Particle.t :=
  gnppygame.append_new example_particle gnppygame.ActorList_init.

(** The same particle and list after [step 1]. *)
Definition example_particle_dead : gnpparticle.Particle.t :=
  gnpparticle.Particle.mk
    (gnipMath.mk_cVector2 1 0) (gnipMath.mk_cVector2 1 0) 0
    (PyTuple [PyInt 255; PyInt 255; PyInt 255]) 0.

Definition example_list_stepped : gnppygame.ActorList gnpparticle.Particle.t :=
  {| gnppygame.heap := <[0%nat := example_particle_dead]> ∅;
     gnppygame.next_ref := 1;
     gnppygame.items := [] |}.

(** An emitter that bursts two particles to the right under gravity.  None
    of its policies calls into the host math functions, so any will do. *)
Definition example_math : gnipMath.Math :=
  {| gnipMath.math_sqrt := fun _ => 0%Q;
     gnipMath.math_cos := fun _ => 1%Q;
     gnipMath.math_sin := fun _ => 0%Q;
     gnipMath.math_pi := 3%Q |}.

Definition example_rng : Rng := mk_Rng (fun _ => 0%Q) 0.

Definition example_color : PyObj := PyTuple [PyInt 255; PyInt 255; PyInt 255].

Definition example_gravity : gnipMath.cVector2 := gnipMath.mk_cVector2 0 10.

Definition example_emitter : gnpparticle.Emitter.t :=
  gnpparticle.Emitter.init (gnipMath.mk_cVector2 10 20)
    (gnpparticle.EmitterRate_Burst 2)
    (gnpparticle.EmitterSpeed_Constant 3)
    (gnpparticle.Direction_Constant (gnipMath.mk_cVector2 1 0))
    (gnpparticle.EmitterLifetime_Constant 2)
    (gnpparticle.EmitterColor_Constant example_color)
    0
    (Some (gnpparticle.cEmitterField_Constant example_gravity)).

(** The two particles as emitted, after the first [step (1/2)] and after the
    second. *)
Definition example_emitted_particle : gnpparticle.Particle.t :=
  gnpparticle.Particle.mk
    (gnipMath.mk_cVector2 10 20) (gnipMath.mk_cVector2 3 0) 2 example_color 0.

Definition example_particle_1 : gnpparticle.Particle.t :=
  gnpparticle.Particle.mk
    (gnipMath.mk_cVector2 (46 # 4) (90 # 4)) (gnipMath.mk_cVector2 (6 # 2) (10 # 2))
    (3 # 2) example_color 0.

Definition example_particle_2 : gnpparticle.Particle.t :=
  gnpparticle.Particle.mk
    (gnipMath.mk_cVector2 (416 # 32) (880 # 32)) (gnipMath.mk_cVector2 (12 # 4) (40 # 4))
    (4 # 4) example_color 0.

Definition example_emitter_with (p : gnpparticle.Particle.t) : gnpparticle.Emitter.t :=
  gnpparticle.Emitter.set_rate (gnpparticle.Rate_Burst 2 true)
    (gnpparticle.Emitter.set_particles
       {| gnppygame.heap := <[1%nat := p]> (<[0%nat := p]> ∅);
          gnppygame.next_ref := 2;
          gnppygame.items := [0%nat; 1%nat] |}
       example_emitter).


(** The object behind [r] exists and reports [can_reap()]. *)
Definition reapable_in {A S} `{gnppygame.Actor A S} (h : gmap nat A) (r : gnppygame.ref)
  : bool :=
  match h !! r with
  | Some a => gnppygame.actor_can_reap a
  | None => false
  end.

(** A dot that lives for [lifetime] seconds. *)
Definition example_dot (lifetime : Q) : gnpactor.Dot.t :=
  gnpactor.Dot.mk lifetime (gnipMath.mk_cVector2 0 0) PyNone.

(** The list after [count] copies of a new particle were appended to it. *)
Fixpoint append_copies (count : nat) (p : gnpparticle.Particle.t)
    (al : gnppygame.ActorList gnpparticle.Particle.t)
  : gnppygame.ActorList gnpparticle.Particle.t :=
  match count with
  | O => al
  | S count' => append_copies count' p (gnppygame.append_new p al)
  end.

(** An emitter that bursts [n] particles, each with the same speed,
    direction, lifetime and colour, and has no field. *)
Definition burst_emitter (position : gnipMath.cVector2) (n : Z) (speed : Q)
    (dir : gnipMath.cVector2) (lifetime : Q) (color : PyObj) (size : Z)
  : gnpparticle.Emitter.t :=
  gnpparticle.Emitter.init position
    (gnpparticle.EmitterRate_Burst n)
    (gnpparticle.EmitterSpeed_Constant speed)
    (gnpparticle.Direction_Constant dir)
    (gnpparticle.EmitterLifetime_Constant lifetime)
    (gnpparticle.EmitterColor_Constant color)
    size None.

(** An emitter with a drag field that holds one particle, and its one
    particle after [step (1/2)]. *)
Definition example_drag_emitter (p : gnpparticle.Particle.t) : gnpparticle.Emitter.t :=
  gnpparticle.Emitter.mk (gnipMath.mk_cVector2 10 20)
    {| gnppygame.heap := <[0%nat := p]> ∅;
       gnppygame.next_ref := 1;
       gnppygame.items := [0%nat] |}
    (gnpparticle.Rate_Burst 1 true)
    (gnpparticle.EmitterSpeed_Constant 3)
    (gnpparticle.Direction_Constant (gnipMath.mk_cVector2 1 0))
    (gnpparticle.EmitterLifetime_Constant 2)
    (gnpparticle.EmitterColor_Constant example_color)
    0
    (Some (gnpparticle.EmitterField_Drag (1 # 2)))
    true.

Definition example_particle_dragged : gnpparticle.Particle.t :=
  gnpparticle.Particle.mk
    (gnipMath.mk_cVector2 (1616 # 128) (3120 # 128))
    (gnipMath.mk_cVector2 (36 # 16) (60 # 16))
    (4 # 4) example_color 0.

(** * Properties *)

(** ** gnipMath *)

Section MathProperties.
Import gnipMath.
Local Open Scope Z_scope.

Lemma NearestMultiple_value (num target : Z) :
  target <> 0 ->
  NearestMultiple num target = Ok ((num + target / 2) / target * target).
Proof.
  intros Hne. unfold NearestMultiple, py_floordiv. simpl.
  destruct (Z.eqb_spec target 0) as [->|_]; [contradiction|reflexivity].
Qed.

(** The result differs from [num] by at most half of [target], and by less
    than half on the upper side. *)
Lemma NearestMultiple_offset (num target : Z) :
  0 < target ->
  let r := (num + target / 2) / target * target in
  - (target / 2) <= num - r /\ 2 * (num - r) < target.
Proof.
  intros Hpos r. subst r.
  pose proof (Z.div_mod (num + target / 2) target ltac:(lia)) as Hdm.
  pose proof (Z.mod_pos_bound (num + target / 2) target Hpos) as Hrem.
  pose proof (Z.div_mod target 2 ltac:(lia)) as Hhalf.
  pose proof (Z.mod_pos_bound target 2 ltac:(lia)) as Hhalf_rem.
  lia.
Qed.

(** C9: for every integer [num] and every positive [target],
    [NearestMultiple num target] returns a multiple of [target] that is at
    least as close to [num] as every other multiple, and among the multiples
    at the same distance it is the larger one (a tie rounds upward);
    [NearestMultiple 6 4] is [8] and [NearestMultiple (-120) 90] is [-90]. *)
Theorem NearestMultiple_nearest (num target : Z) :
  0 < target ->
  exists r,
    NearestMultiple num target = Ok r /\
    Z.divide target r /\
    (forall m, Z.divide target m -> Z.abs (num - r) <= Z.abs (num - m)) /\
    (forall m, Z.divide target m -> Z.abs (num - m) = Z.abs (num - r) -> m <= r) /\
    NearestMultiple 6 4 = Ok 8 /\
    NearestMultiple (-120) 90 = Ok (-90).
Proof.
  intros Hpos.
  exists ((num + target / 2) / target * target).
  pose proof (NearestMultiple_offset num target Hpos) as Hoff. cbv zeta in Hoff.
  pose proof (Z.div_mod target 2 ltac:(lia)) as Hhalf.
  pose proof (Z.mod_pos_bound target 2 ltac:(lia)) as Hhalf_rem.
  set (q := (num + target / 2) / target) in *.
  set (k := target / 2) in *.
  split; [apply NearestMultiple_value; lia|].
  split; [exists q; reflexivity|].
  split; [|split; [|split; reflexivity]].
  - intros m [j ->].
    destruct (Z.eq_dec j q) as [->|Hne]; [lia|].
    assert (j <= q - 1 \/ q + 1 <= j) as [Hlt|Hgt] by lia; nia.
  - intros m [j ->] Hdist.
    destruct (Z_le_gt_dec j q) as [Hle|Hgt]; [nia|].
    exfalso. assert (q + 1 <= j) by lia. nia.
Qed.

Lemma NearestMultiple_nearest_witness :
  0 < 4 /\
  exists r,
    NearestMultiple 6 4 = Ok r /\
    Z.divide 4 r /\
    (forall m, Z.divide 4 m -> Z.abs (6 - r) <= Z.abs (6 - m)) /\
    (forall m, Z.divide 4 m -> Z.abs (6 - m) = Z.abs (6 - r) -> m <= r) /\
    NearestMultiple 6 4 = Ok 8 /\
    NearestMultiple (-120) 90 = Ok (-90).
Proof.
  split; [lia|]. apply (NearestMultiple_nearest 6 4). lia.
Defined.

End MathProperties.

Section RationalOrder.
Local Open Scope Q_scope.

Lemma Qltb_true (a b : Q) : Qltb a b = true <-> a < b.
Proof.
  unfold Qltb. rewrite negb_true_iff.
  destruct (Qle_bool b a) eqn:E.
  - apply Qle_bool_iff in E. split; [discriminate|].
    intros Hlt. exfalso. exact (Qlt_not_le _ _ Hlt E).
  - split; [|reflexivity]. intros _.
    apply Qnot_le_lt. intros Hle. apply Qle_bool_iff in Hle. congruence.
Qed.

Lemma Qltb_false (a b : Q) : Qltb a b = false <-> b <= a.
Proof.
  unfold Qltb. rewrite negb_false_iff. apply Qle_bool_iff.
Qed.

End RationalOrder.

Section InterpolationProperties.
Import gnipMath.
Local Open Scope Q_scope.

Lemma Qeq_bool_sub_zero (lo hi : Q) : Qeq_bool (hi - lo) 0 = Qeq_bool lo hi.
Proof.
  destruct (Qeq_bool lo hi) eqn:E.
  - apply Qeq_bool_iff in E. apply Qeq_bool_iff. rewrite E. ring.
  - destruct (Qeq_bool (hi - lo) 0) eqn:E'; [|reflexivity].
    apply Qeq_bool_iff in E'.
    assert (lo == hi) as Heq by lra.
    apply Qeq_bool_iff in Heq. congruence.
Qed.

(** C8: [InverseLerp val lo hi] raises [ZeroDivisionError] when [lo] equals
    [hi] and returns [(val - lo) / (hi - lo)] otherwise;
    [InverseLerp 75 0 100] and [InverseLerp 25 100 0] are both [0.75]; for a
    value outside the range the result is outside [0, 1]
    ([InverseLerp 50 10 20] is above 1, [InverseLerp (-3) 0 4] is negative). *)
Theorem InverseLerp_spec (val lo hi : Q) :
  InverseLerp val lo hi =
    (if Qeq_bool lo hi then Raise ZeroDivisionError
     else Ok ((val - lo) / (hi - lo))) /\
  (exists r, InverseLerp 75 0 100 = Ok r /\ r == 3 # 4) /\
  (exists r, InverseLerp 25 100 0 = Ok r /\ r == 3 # 4) /\
  (exists r, InverseLerp 50 10 20 = Ok r /\ 1 < r) /\
  (exists r, InverseLerp (-3) 0 4 = Ok r /\ r < 0).
Proof.
  split.
  - unfold InverseLerp, py_truediv. cbv zeta.
    rewrite Qeq_bool_sub_zero. reflexivity.
  - repeat split; eexists; (split; [vm_compute; reflexivity | reflexivity]).
Qed.

End InterpolationProperties.

Section RangeProperties.
Import gnipMath.
Local Open Scope Q_scope.

Lemma Include_first (v : Q) :
  Include v (mk_cRange false None None) = Ok (mk_cRange true (Some v) (Some v)).
Proof. reflexivity. Qed.

Lemma Include_keeps_inv (v : Q) (r : cRange) :
  cRange_inv r -> exists r', Include v r = Ok r' /\ cRange_inv r'.
Proof.
  intros (lo & hi & -> & Hle).
  unfold Include. simpl.
  destruct (Qltb v lo) eqn:Hlo; simpl.
  - apply Qltb_true in Hlo.
    destruct (Qltb hi v) eqn:Hhi.
    + apply Qltb_true in Hhi. exfalso.
      apply (Qlt_irrefl v).
      apply Qlt_le_trans with lo; [exact Hlo|].
      apply Qle_trans with hi; [exact Hle|]. apply Qlt_le_weak, Hhi.
    + eexists; split; [reflexivity|]. exists v, hi. split; [reflexivity|].
      apply Qle_trans with lo; [apply Qlt_le_weak, Hlo | exact Hle].
  - apply Qltb_false in Hlo.
    destruct (Qltb hi v) eqn:Hhi.
    + apply Qltb_true in Hhi.
      eexists; split; [reflexivity|]. exists lo, v. split; [reflexivity|exact Hlo].
    + eexists; split; [reflexivity|]. exists lo, hi. split; [reflexivity|exact Hle].
Qed.

Lemma IncludeAll_keeps_inv (vs : list Q) (r : cRange) :
  cRange_inv r -> exists r', IncludeAll vs r = Ok r' /\ cRange_inv r'.
Proof.
  revert r. induction vs as [|v vs IH]; intros r Hinv.
  - exists r. split; [reflexivity|exact Hinv].
  - destruct (Include_keeps_inv v r Hinv) as (r1 & Hr1 & Hinv1).
    destruct (IH r1 Hinv1) as (r2 & Hr2 & Hinv2).
    exists r2. split; [|exact Hinv2]. simpl. rewrite Hr1. exact Hr2.
Qed.

Lemma cRange_inv_reads (r : cRange) : cRange_inv r -> lo_le_hi r.
Proof.
  intros (lo & hi & -> & Hle). exists lo, hi.
  split; [reflexivity|]. split; [reflexivity|exact Hle].
Qed.

(** C6: a range initialised by its first [Include], or by the two-argument
    constructor, has [lo <= hi] after any further [Include] calls; from the
    empty range, [Include 5] then [Include (-3)] gives [lo = -3], [hi = 5],
    [Span() = 8] and [Mid() = 1]; on a range that was never initialised,
    reading [lo] or [hi] and calling [Span] or [Mid] raise [AssertionError]. *)
Theorem cRange_invariants :
  (forall (v : Q) (vs : list Q),
     exists r0 r, cRange_init None None = Ok r0 /\
                  IncludeAll (v :: vs) r0 = Ok r /\ lo_le_hi r) /\
  (forall (a b : Q) (vs : list Q),
     exists r0 r, cRange_init (Some a) (Some b) = Ok r0 /\
                  IncludeAll vs r0 = Ok r /\ lo_le_hi r) /\
  (exists r0 r s m,
     cRange_init None None = Ok r0 /\
     IncludeAll [5; -3] r0 = Ok r /\
     __getattr__ r "lo" = Ok (-3) /\
     __getattr__ r "hi" = Ok 5 /\
     Span r = Ok s /\ s == 8 /\
     Mid r = Ok m /\ m == 1) /\
  (exists r0,
     cRange_init None None = Ok r0 /\
     __getattr__ r0 "lo" = Raise AssertionError /\
     __getattr__ r0 "hi" = Raise AssertionError /\
     Span r0 = Raise AssertionError /\
     Mid r0 = Raise AssertionError).
Proof.
  split; [|split; [|split]].
  - intros v vs. eexists. 
    assert (cRange_inv (mk_cRange true (Some v) (Some v))) as Hinv.
    { exists v, v. split; [reflexivity|apply Qle_refl]. }
    destruct (IncludeAll_keeps_inv vs _ Hinv) as (r & Hr & Hinv').
    exists r. split; [reflexivity|]. split; [|apply cRange_inv_reads, Hinv'].
    simpl. exact Hr.
  - intros a b vs.
    assert (cRange_inv (mk_cRange true (Some a) (Some a))) as Hinv.
    { exists a, a. split; [reflexivity|apply Qle_refl]. }
    destruct (Include_keeps_inv b _ Hinv) as (r0 & Hr0 & Hinv0).
    destruct (IncludeAll_keeps_inv vs _ Hinv0) as (r & Hr & Hinv').
    exists r0, r. split; [|split; [exact Hr|apply cRange_inv_reads, Hinv']].
    unfold cRange_init. rewrite Include_first. simpl. exact Hr0.
  - do 4 eexists. split; [reflexivity|].
    split; [vm_compute; reflexivity|].
    split; [reflexivity|]. split; [reflexivity|].
    split; [vm_compute; reflexivity|]. split; [reflexivity|].
    split; [vm_compute; reflexivity|reflexivity].
  - eexists. split; [reflexivity|]. repeat split.
Qed.

End RangeProperties.

(** ** gnpparticle: the emit rate *)

Section RateProperties.
Import gnipMath gnppygame gnpparticle.
Local Open Scope Q_scope.

(** [int()] truncates; on a non-negative number that is the floor. *)
Lemma py_int_floor (q : Q) : 0 <= q -> py_int q = Qfloor q.
Proof.
  destruct q as [n d]. unfold Qle, py_int, Qfloor. simpl. intros Hn.
  apply Z.quot_div_nonneg; lia.
Qed.

Lemma Qfloor_unique (q : Q) (n : Z) :
  inject_Z n <= q -> q < inject_Z (n + 1) -> Qfloor q = n.
Proof.
  intros Hlo Hhi.
  pose proof (Qfloor_resp_le _ _ Hlo) as H1. rewrite Qfloor_Z in H1.
  pose proof (Qfloor_le q) as H2.
  assert (inject_Z (Qfloor q) < inject_Z (n + 1)) as H3
    by (eapply Qle_lt_trans; eassumption).
  rewrite <- Zlt_Qlt in H3. lia.
Qed.

Lemma Qdiv_floor_remainder (a d : Q) :
  0 < d ->
  let n := Qfloor (a / d) in
  0 <= a - inject_Z n * d /\ a - inject_Z n * d < d.
Proof.
  intros Hd n.
  pose proof (Qfloor_le (a / d)) as Hlo.
  pose proof (Qlt_floor (a / d)) as Hhi.
  fold n in Hlo, Hhi. rewrite inject_Z_plus in Hhi.
  assert (a / d * d == a) as Hq by (field; lra).
  split.
  - assert (inject_Z n * d <= a / d * d) as H1
      by (apply Qmult_le_compat_r; [exact Hlo | lra]).
    lra.
  - assert (a / d * d < (inject_Z n + inject_Z 1) * d) as H1
      by (apply Qmult_lt_compat_r; [exact Hd | exact Hhi]).
    change (inject_Z 1) with 1 in H1. lra.
Qed.

(** One call of [how_many] on a constant delay, for a non-negative total. *)
Lemma DelayConstant_how_many (delay c dt : Q) (g : Rng) :
  0 < delay -> 0 <= dt + c ->
  how_many dt (Rate_DelayConstant c delay) g =
    Ok ((Qfloor ((dt + c) / delay),
         Rate_DelayConstant ((dt + c) - inject_Z (Qfloor ((dt + c) / delay)) * delay) delay),
        g).
Proof.
  intros Hd Htot.
  unfold how_many, DelayBase_how_many, bind, lift, ret, _get_delay, py_truediv. simpl.
  destruct (Qeq_bool delay 0) eqn:E.
  { apply Qeq_bool_iff in E. lra. }
  rewrite py_int_floor; [reflexivity|].
  apply Qle_shift_div_l; lra.
Qed.

Lemma run_frames_cons (dt : Q) (rest : list Q) (self : EmitterRate) (g : Rng) :
  run_frames (dt :: rest) self g =
    match how_many dt self g with
    | Ok (r, g') =>
        match run_frames rest (snd r) g' with
        | Ok (rs, g'') => Ok ((fst r :: fst rs, snd rs), g'')
        | Raise e => Raise e
        end
    | Raise e => Raise e
    end.
Proof.
  cbn [run_frames]. unfold bind at 1.
  destruct (how_many dt self g) as [[r g']|e]; [|reflexivity].
  unfold bind at 1.
  destruct (run_frames rest (snd r) g') as [[rs g'']|e]; reflexivity.
Qed.

(** The accumulator: the carry-over stays in [[0, delay)] and no time is lost. *)
Lemma DelayConstant_run (delay : Q) (dts : list Q) (g : Rng) :
  0 < delay -> Forall (Qle 0) dts ->
  forall c, 0 <= c -> c < delay ->
  exists counts c',
    run_frames dts (Rate_DelayConstant c delay) g =
      Ok ((counts, Rate_DelayConstant c' delay), g) /\
    0 <= c' /\ c' < delay /\
    inject_Z (sumZ counts) * delay + c' == c + sumQ dts.
Proof.
  intros Hd Hnn. induction Hnn as [|dt rest Hdt _ IH]; intros c Hc0 Hc1.
  - exists [], c. split; [reflexivity|].
    split; [exact Hc0|]. split; [exact Hc1|].
    unfold sumZ, sumQ. simpl. change (inject_Z 0) with 0. lra.
  - pose proof (DelayConstant_how_many delay c dt g Hd ltac:(lra)) as Hstep.
    pose proof (Qdiv_floor_remainder (dt + c) delay Hd) as [Hr0 Hr1].
    set (n := Qfloor ((dt + c) / delay)) in *.
    destruct (IH _ Hr0 Hr1) as (counts & c' & Hrun & Hc'0 & Hc'1 & Hsum).
    exists (n :: counts), c'.
    split.
    + rewrite run_frames_cons, Hstep. cbn [snd fst]. rewrite Hrun. reflexivity.
    + split; [exact Hc'0|]. split; [exact Hc'1|].
      unfold sumZ, sumQ in *. cbn [fold_right]. rewrite inject_Z_plus. lra.
Qed.

(** C1: for a constant delay [delay > 0] driven from carry-over 0 with
    non-negative frame times [dts]: each call in the run computes
    [total = dt + carryover], returns [floor (total / delay)] and leaves
    [carryover = total - count * delay]; and the counts of the whole run add
    up to [floor (T / delay)] for [T] the sum of the frame times, hence within
    1 of it, however [T] is split into frames. *)
Theorem DelayConstant_accumulator (delay : Q) (dts : list Q) (g : Rng) :
  0 < delay -> Forall (Qle 0) dts ->
  (forall pre dt post, dts = pre ++ dt :: post ->
     exists counts carryover,
       run_frames pre (EmitterRate_DelayConstant delay) g =
         Ok ((counts, Rate_DelayConstant carryover delay), g) /\
       how_many dt (Rate_DelayConstant carryover delay) g =
         Ok ((Qfloor ((dt + carryover) / delay),
              Rate_DelayConstant
                ((dt + carryover) - inject_Z (Qfloor ((dt + carryover) / delay)) * delay)
                delay),
             g)) /\
  exists counts rate',
    run_frames dts (EmitterRate_DelayConstant delay) g = Ok ((counts, rate'), g) /\
    sumZ counts = Qfloor (sumQ dts / delay) /\
    (Z.abs (sumZ counts - Qfloor (sumQ dts / delay)) <= 1)%Z.
Proof.
  intros Hd Hnn. split.
  - intros pre dt post ->.
    apply Forall_app in Hnn as [Hpre Hrest].
    apply Forall_cons_iff in Hrest as [Hdt _].
    destruct (DelayConstant_run delay pre g Hd Hpre 0 ltac:(lra) Hd)
      as (counts & c & Hrun & Hc0 & _ & _).
    exists counts, c. split; [exact Hrun|].
    apply DelayConstant_how_many; [exact Hd | lra].
  - destruct (DelayConstant_run delay dts g Hd Hnn 0 ltac:(lra) Hd)
      as (counts & c & Hrun & Hc0 & Hc1 & Hsum).
    exists counts, (Rate_DelayConstant c delay).
    split; [exact Hrun|].
    assert (sumZ counts = Qfloor (sumQ dts / delay)) as Heq.
    { symmetry. apply Qfloor_unique.
      - apply Qle_shift_div_l; [exact Hd | lra].
      - apply Qlt_shift_div_r; [exact Hd |]. rewrite inject_Z_plus.
        change (inject_Z 1) with 1. lra. }
    split; [exact Heq|]. rewrite Heq. lia.
Qed.

Lemma DelayConstant_accumulator_witness :
  0 < 1 # 4 /\ Forall (Qle 0) [1 # 10; 3 # 10; 1 # 2] /\
  exists counts rate',
    run_frames [1 # 10; 3 # 10; 1 # 2] (EmitterRate_DelayConstant (1 # 4))
      (mk_Rng (fun _ => 0) 0) = Ok ((counts, rate'), mk_Rng (fun _ => 0) 0) /\
    sumZ counts = Qfloor (sumQ [1 # 10; 3 # 10; 1 # 2] / (1 # 4)) /\
    (Z.abs (sumZ counts - Qfloor (sumQ [1 # 10; 3 # 10; 1 # 2] / (1 # 4))) <= 1)%Z.
Proof.
  assert (0 < 1 # 4) as Hd by reflexivity.
  assert (Forall (Qle 0) [1 # 10; 3 # 10; 1 # 2]) as Hnn
    by (repeat constructor; discriminate).
  split; [exact Hd|]. split; [exact Hnn|].
  exact (proj2 (DelayConstant_accumulator (1 # 4) [1 # 10; 3 # 10; 1 # 2]
                  (mk_Rng (fun _ => 0) 0) Hd Hnn)).
Defined.

(** Outside that domain [int()] and the floor differ: for a negative total the
    count is rounded toward zero. *)
Lemma how_many_negative_total (g : Rng) :
  how_many (- (1 # 2)) (EmitterRate_DelayConstant 1) g =
    Ok ((0%Z, Rate_DelayConstant (- (1 # 2) + 0 - inject_Z 0 * 1) 1), g) /\
  Qfloor ((- (1 # 2) + 0) / 1) = (-1)%Z.
Proof. split; reflexivity. Qed.

(** C5: a burst of [n] is not complete before [how_many] is called; the first
    call returns [n], whatever the frame time, and after it the burst is
    complete. *)
Theorem Burst_completion (n : Z) (dt : Q) (g : Rng) :
  is_complete (EmitterRate_Burst n) = false /\
  exists rate',
    how_many dt (EmitterRate_Burst n) g = Ok ((n, rate'), g) /\
    is_complete rate' = true.
Proof.
  split; [reflexivity|].
  exists (Rate_Burst n true). split; reflexivity.
Qed.

End RateProperties.

(** ** gnppygame: ActorList *)

Section ActorListProperties.
Import gnppygame.
Context {A S : Type} `{Actor A S}.

Lemma exn_bind_Ok {X Y} (c : Exn X) (k : X -> Exn Y) (y : Y) :
  exn_bind c k = Ok y -> exists x, c = Ok x /\ k x = Ok y.
Proof.
  destruct c as [x|e]; simpl; [|discriminate]. intros Hk. exists x. split; [reflexivity|exact Hk].
Qed.

Lemma list_remove_subset (x : nat) (l l' : list nat) :
  list_remove x l = Ok l' -> forall y, y ∈ l' -> y ∈ l.
Proof.
  revert l'. induction l as [|z l IH]; intros l' Hrm y Hy; simpl in Hrm; [discriminate|].
  destruct (Nat.eqb_spec x z) as [->|Hne].
  - injection Hrm as <-. apply elem_of_cons. right. exact Hy.
  - apply exn_bind_Ok in Hrm as (l1 & Hl1 & Hok). injection Hok as <-.
    apply elem_of_cons in Hy as [->|Hy].
    + apply elem_of_cons. left. reflexivity.
    + apply elem_of_cons. right. exact (IH _ Hl1 _ Hy).
Qed.

Lemma list_remove_NoDup (x : nat) (l l' : list nat) :
  list_remove x l = Ok l' -> NoDup l -> NoDup l' /\ x ∉ l'.
Proof.
  revert l'. induction l as [|z l IH]; intros l' Hrm Hnd; simpl in Hrm; [discriminate|].
  apply NoDup_cons in Hnd as [Hz Hnd].
  destruct (Nat.eqb_spec x z) as [->|Hne].
  - injection Hrm as <-. split; assumption.
  - apply exn_bind_Ok in Hrm as (l1 & Hl1 & Hok). injection Hok as <-.
    destruct (IH _ Hl1 Hnd) as [Hnd1 Hx1]. split.
    + apply NoDup_cons. split; [|exact Hnd1].
      intros Hin. apply Hz. exact (list_remove_subset _ _ _ Hl1 _ Hin).
    + intros Hin. apply elem_of_cons in Hin as [->|Hin]; [congruence|contradiction].
Qed.

Lemma list_remove_other (x : nat) (l l' : list nat) :
  list_remove x l = Ok l' -> forall y, y <> x -> y ∈ l -> y ∈ l'.
Proof.
  revert l'. induction l as [|z l IH]; intros l' Hrm y Hne Hy; simpl in Hrm; [discriminate|].
  destruct (Nat.eqb_spec x z) as [->|Hxz].
  - injection Hrm as <-. apply elem_of_cons in Hy as [->|Hy]; [congruence|exact Hy].
  - apply exn_bind_Ok in Hrm as (l1 & Hl1 & Hok). injection Hok as <-.
    apply elem_of_cons in Hy as [->|Hy].
    + apply elem_of_cons. left. reflexivity.
    + apply elem_of_cons. right. exact (IH _ Hl1 _ Hne Hy).
Qed.

Lemma remove_loop_subset (dead l l' : list ref) :
  remove_loop dead l = Ok l' -> forall y, y ∈ l' -> y ∈ l.
Proof.
  revert l. induction dead as [|d dead IH]; intros l Hrm y Hy; simpl in Hrm.
  - injection Hrm as <-. exact Hy.
  - apply exn_bind_Ok in Hrm as (l1 & Hl1 & Hrest).
    exact (list_remove_subset _ _ _ Hl1 _ (IH _ Hrest _ Hy)).
Qed.

Lemma remove_loop_NoDup (dead l l' : list ref) :
  remove_loop dead l = Ok l' -> NoDup l -> NoDup l'.
Proof.
  revert l. induction dead as [|d dead IH]; intros l Hrm Hnd; simpl in Hrm.
  - injection Hrm as <-. exact Hnd.
  - apply exn_bind_Ok in Hrm as (l1 & Hl1 & Hrest).
    exact (IH _ Hrest (proj1 (list_remove_NoDup _ _ _ Hl1 Hnd))).
Qed.

Lemma remove_loop_removes (dead l l' : list ref) :
  remove_loop dead l = Ok l' -> NoDup l -> forall r, r ∈ dead -> r ∉ l'.
Proof.
  revert l. induction dead as [|d dead IH]; intros l Hrm Hnd r Hr; simpl in Hrm.
  - apply elem_of_nil in Hr. contradiction.
  - apply exn_bind_Ok in Hrm as (l1 & Hl1 & Hrest).
    destruct (list_remove_NoDup _ _ _ Hl1 Hnd) as [Hnd1 Hd1].
    apply elem_of_cons in Hr as [->|Hr].
    + intros Hin. apply Hd1. exact (remove_loop_subset _ _ _ Hrest _ Hin).
    + exact (IH _ Hrest Hnd1 _ Hr).
Qed.

Lemma remove_loop_keeps (dead l l' : list ref) :
  remove_loop dead l = Ok l' -> forall r, r ∉ dead -> r ∈ l -> r ∈ l'.
Proof.
  revert l. induction dead as [|d dead IH]; intros l Hrm r Hr Hin; simpl in Hrm.
  - injection Hrm as <-. exact Hin.
  - apply exn_bind_Ok in Hrm as (l1 & Hl1 & Hrest).
    apply not_elem_of_cons in Hr as [Hne Hr].
    exact (IH _ Hrest _ Hr (list_remove_other _ _ _ Hl1 _ Hne Hin)).
Qed.

(** The first loop of [step]: every actor of [todo] is stepped once, in order;
    an actor's object is the result of its own [step]; and the actors to
    delete are those whose [can_reap] holds after their step. *)
Lemma step_loop_spec (dt : Q) (todo : list ref) :
  forall (h : gmap nat A) (s : S) (dead stepped : list ref)
         (h' : gmap nat A) (s' : S) (dead' stepped' : list ref),
  NoDup todo ->
  step_loop dt todo h s dead stepped = Ok (h', s', dead', stepped') ->
  stepped' = stepped ++ todo /\
  (forall r, r ∉ todo -> h' !! r = h !! r) /\
  (forall r a, r ∈ todo -> h !! r = Some a ->
     exists a' sa sb, actor_step dt a sa = Ok (a', sb) /\ h' !! r = Some a') /\
  (forall r, r ∈ dead' <->
     r ∈ dead \/ (r ∈ todo /\ exists a', h' !! r = Some a' /\ actor_can_reap a' = true)).
Proof.
  induction todo as [|r0 todo IH]; intros h s dead stepped h' s' dead' stepped' Hnd Hrun.
  - simpl in Hrun. injection Hrun as <- <- <- <-.
    split; [symmetry; apply app_nil_r|]. split; [reflexivity|]. split.
    + intros r a Hr. apply elem_of_nil in Hr. contradiction.
    + intros r. split; [tauto|]. intros [Hr|[Hr _]]; [exact Hr|].
      apply elem_of_nil in Hr. contradiction.
  - apply NoDup_cons in Hnd as [Hr0 Hnd].
    simpl in Hrun. destruct (h !! r0) as [a0|] eqn:Hh0; [|discriminate].
    apply exn_bind_Ok in Hrun as ([a1 s1] & Hstep & Hrun). simpl in Hrun.
    destruct (IH _ _ _ _ _ _ _ _ Hnd Hrun) as (Hstepped & Hframe & Hobj & Hdead).
    assert (h' !! r0 = Some a1) as Hh'0.
    { rewrite (Hframe _ Hr0). apply lookup_insert_eq. }
    split; [rewrite Hstepped, <- app_assoc; reflexivity|]. split; [|split].
    + intros r Hr. apply not_elem_of_cons in Hr as [Hne Hr].
      rewrite (Hframe _ Hr). apply lookup_insert_ne. congruence.
    + intros r a Hr Hha. apply elem_of_cons in Hr as [->|Hr].
      * exists a1, s, s1. rewrite Hh0 in Hha. injection Hha as <-.
        split; [exact Hstep|exact Hh'0].
      * apply (Hobj r a Hr). rewrite lookup_insert_ne; [exact Hha|].
        intros ->. contradiction.
    + intros r. rewrite Hdead. split.
      * intros [Hin|(Hr & a' & Ha' & Hreap)].
        -- destruct (actor_can_reap a1) eqn:Hreap1; [|left; exact Hin].
           apply elem_of_app in Hin as [Hin|Hin]; [left; exact Hin|].
           apply list_elem_of_singleton in Hin as ->.
           right. split; [apply elem_of_cons; left; reflexivity|].
           exists a1. split; assumption.
        -- right. split; [apply elem_of_cons; right; exact Hr|].
           exists a'. split; assumption.
      * intros [Hin|(Hr & a' & Ha' & Hreap)].
        -- left. destruct (actor_can_reap a1); [|exact Hin].
           apply elem_of_app. left. exact Hin.
        -- apply elem_of_cons in Hr as [->|Hr].
           ++ left. rewrite Hh'0 in Ha'. injection Ha' as <-. rewrite Hreap.
              apply elem_of_app. right. apply list_elem_of_singleton. reflexivity.
           ++ right. split; [exact Hr|]. exists a'. split; assumption.
Qed.

(** [step] as a whole, on a list without repeated objects. *)
Lemma step_spec (dt : Q) (al al' : ActorList A) (s s' : S) (stepped : list ref) :
  NoDup (items al) ->
  step dt al s = Ok (al', s', stepped) ->
  stepped = items al /\
  next_ref al' = next_ref al /\
  NoDup (items al') /\
  (forall r, r ∈ items al' -> r ∈ items al) /\
  (forall r, r ∉ items al -> heap al' !! r = heap al !! r) /\
  (forall r a, r ∈ items al -> heap al !! r = Some a ->
     exists a' sa sb, actor_step dt a sa = Ok (a', sb) /\ heap al' !! r = Some a') /\
  (forall r a', r ∈ items al -> heap al' !! r = Some a' ->
     (r ∈ items al' <-> actor_can_reap a' = false)).
Proof.
  intros Hnd Hstep. unfold step in Hstep.
  apply exn_bind_Ok in Hstep as ([[[h1 s1] dead] stepped1] & Hloop & Hrest).
  apply exn_bind_Ok in Hrest as (l & Hrm & Hok). injection Hok as <- <- <-.
  destruct (step_loop_spec _ _ _ _ _ _ _ _ _ _ Hnd Hloop) as (Hst & Hframe & Hobj & Hdead).
  simpl. split; [exact Hst|]. split; [reflexivity|].
  split; [exact (remove_loop_NoDup _ _ _ Hrm Hnd)|].
  split; [exact (remove_loop_subset _ _ _ Hrm)|].
  split; [exact Hframe|]. split; [exact Hobj|].
  intros r a' Hr Ha'. split.
  - intros Hin. destruct (actor_can_reap a') eqn:Hreap; [|reflexivity].
    exfalso. apply (remove_loop_removes _ _ _ Hrm Hnd r); [|exact Hin].
    apply Hdead. right. split; [exact Hr|]. exists a'. split; assumption.
  - intros Hreap. apply (remove_loop_keeps _ _ _ Hrm); [|exact Hr].
    intros Hin. apply Hdead in Hin as [Hin|(_ & a2 & Ha2 & Hreap2)].
    + apply elem_of_nil in Hin. contradiction.
    + rewrite Ha' in Ha2. injection Ha2 as <-. congruence.
Qed.

Lemma draw_loop_spec (todo : list ref) :
  forall (h : gmap nat A) (surface surface' : Surface) (drawn drawn' : list ref),
  draw_loop todo h surface drawn = Ok (surface', drawn') ->
  drawn' = drawn ++ todo.
Proof.
  induction todo as [|r0 todo IH]; intros h surface surface' drawn drawn' Hrun; simpl in Hrun.
  - injection Hrun as <- <-. symmetry. apply app_nil_r.
  - destruct (h !! r0) as [a0|]; [|discriminate].
    apply exn_bind_Ok in Hrun as (surface1 & _ & Hrun).
    rewrite (IH _ _ _ _ _ Hrun), <- app_assoc. reflexivity.
Qed.

(** [draw] calls [actor.draw] on exactly the members of the list, in order. *)
Lemma draw_spec (al : ActorList A) (surface surface' : Surface) (drawn : list ref) :
  draw al surface = Ok (surface', drawn) -> drawn = items al.
Proof.
  intros Hdraw. exact (draw_loop_spec _ _ _ _ _ _ Hdraw).
Qed.

(** Once an actor is out of the list, no later [step] or [draw] reaches it. *)
Lemma run_calls_absent (calls : list Call) (r : ref) :
  forall (al al' : ActorList A) (s s' : S) (surface surface' : Surface)
         (stepped drawn stepped' drawn' : list ref),
  NoDup (items al) -> r ∉ items al -> r ∉ stepped -> r ∉ drawn ->
  run_calls calls al s surface stepped drawn = Ok (al', s', surface', stepped', drawn') ->
  (r ∉ stepped') /\ (r ∉ drawn') /\ (r ∉ items al').
Proof.
  induction calls as [|c calls IH];
    intros al al' s s' surface surface' stepped drawn stepped' drawn' Hnd Hr Hs Hd Hrun.
  - simpl in Hrun. injection Hrun as <- <- <- <- <-. repeat split; assumption.
  - destruct c as [dt|]; simpl in Hrun.
    + apply exn_bind_Ok in Hrun as ([[al1 s1] stepped1] & Hstep & Hrun).
      destruct (step_spec _ _ _ _ _ _ Hnd Hstep) as (-> & _ & Hnd1 & Hsub & _).
      apply (IH _ _ _ _ _ _ _ _ _ _ Hnd1) in Hrun; [exact Hrun| |  |exact Hd].
      * intros Hin. apply Hr, Hsub, Hin.
      * intros Hin. apply elem_of_app in Hin as [Hin|Hin]; contradiction.
    + apply exn_bind_Ok in Hrun as ([surface1 drawn1] & Hdraw & Hrun).
      apply draw_spec in Hdraw. simpl in Hdraw, Hrun. subst drawn1.
      apply (IH _ _ _ _ _ _ _ _ _ _ Hnd Hr Hs) in Hrun; [exact Hrun|].
      intros Hin. apply elem_of_app in Hin as [Hin|Hin]; contradiction.
Qed.

(** C2, as amended: in a list that holds no actor twice, an actor whose
    [can_reap] is true after its step is taken out of the list by that same
    [step] call; the next [draw] does not draw it, and no later [step] or
    [draw] on the list reaches it. *)
Theorem ActorList_reaps_within_step (dt : Q) (al al' : ActorList A) (s s' : S)
    (stepped : list ref) (r : ref) (a' : A) :
  NoDup (items al) ->
  r ∈ items al ->
  step dt al s = Ok (al', s', stepped) ->
  heap al' !! r = Some a' ->
  actor_can_reap a' = true ->
  r ∈ stepped /\
  (r ∉ items al') /\
  (forall surface surface' drawn,
     draw al' surface = Ok (surface', drawn) -> r ∉ drawn) /\
  (forall calls s0 surface al'' s'' surface' stepped' drawn',
     run_calls calls al' s0 surface [] [] = Ok (al'', s'', surface', stepped', drawn') ->
     (r ∉ stepped') /\ (r ∉ drawn') /\ (r ∉ items al'')).
Proof.
  intros Hnd Hr Hstep Ha' Hreap.
  destruct (step_spec _ _ _ _ _ _ Hnd Hstep) as (-> & _ & Hnd' & _ & _ & _ & Hkeep).
  assert (r ∉ items al') as Hout.
  { intros Hin. apply (Hkeep r a' Hr Ha') in Hin. congruence. }
  split; [exact Hr|]. split; [exact Hout|]. split.
  - intros surface surface' drawn Hdraw. apply draw_spec in Hdraw. subst drawn. exact Hout.
  - intros calls s0 surface al'' s'' surface' stepped' drawn' Hrun.
    apply (run_calls_absent calls r _ _ _ _ _ _ _ _ _ _ Hnd' Hout) in Hrun;
      [exact Hrun| |]; intros Hin; apply elem_of_nil in Hin; exact Hin.
Qed.

End ActorListProperties.

Section ActorListExamples.
Import gnppygame gnpparticle.

Lemma example_list_step :
  step 1 example_list tt = Ok (example_list_stepped, tt, [0%nat]).
Proof. vm_compute. reflexivity. Qed.

Lemma ActorList_reaps_within_step_witness :
  NoDup (items example_list) /\
  0%nat ∈ items example_list /\
  step 1 example_list tt = Ok (example_list_stepped, tt, [0%nat]) /\
  heap example_list_stepped !! 0%nat = Some example_particle_dead /\
  Particle.can_reap example_particle_dead = true /\
  (0%nat ∉ items example_list_stepped) /\
  (forall surface surface' drawn,
     draw example_list_stepped surface = Ok (surface', drawn) -> 0%nat ∉ drawn).
Proof.
  assert (NoDup (items example_list)) as Hnd by (apply NoDup_singleton).
  assert (0%nat ∈ items example_list) as Hin
    by (apply list_elem_of_singleton; reflexivity).
  assert (step 1 example_list tt = Ok (example_list_stepped, tt, [0%nat])) as Hstep
    by (vm_compute; reflexivity).
  assert (heap example_list_stepped !! 0%nat = Some example_particle_dead) as Hobj
    by (vm_compute; reflexivity).
  assert (Particle.can_reap example_particle_dead = true) as Hreap by reflexivity.
  split; [exact Hnd|]. split; [exact Hin|]. split; [exact Hstep|].
  split; [exact Hobj|]. split; [exact Hreap|].
  pose proof (ActorList_reaps_within_step 1 example_list example_list_stepped tt tt
                [0%nat] 0%nat example_particle_dead Hnd Hin Hstep Hobj Hreap)
    as (_ & Hout & Hdraw & _).
  split; [exact Hout | exact Hdraw].
Defined.

(** The particle of [example_list] is alive before [step 1] and reapable after
    it; the [draw] that follows draws nothing, so the particle is not drawn
    once more after the step in which it died. *)
Lemma ActorList_dead_actor_not_drawn :
  Particle.can_reap example_particle = false /\
  items example_list = [0%nat] /\
  heap example_list !! 0%nat = Some example_particle /\
  step 1 example_list tt = Ok (example_list_stepped, tt, [0%nat]) /\
  heap example_list_stepped !! 0%nat = Some example_particle_dead /\
  Particle.can_reap example_particle_dead = true /\
  draw example_list_stepped [] = Ok ([], []) /\
  ~ (exists surface drawn,
       draw example_list_stepped [] = Ok (surface, drawn) /\
       count_occ Nat.eq_dec drawn 0%nat = 1%nat).
Proof.
  split; [reflexivity|]. split; [reflexivity|]. split; [reflexivity|].
  split; [exact example_list_step|].
  split; [vm_compute; reflexivity|].
  split; [reflexivity|].
  split; [reflexivity|].
  intros (surface & drawn & Hdraw & Hcount).
  vm_compute in Hdraw. injection Hdraw as <- <-. discriminate Hcount.
Qed.

End ActorListExamples.

(** ** gnpparticle: Particle and Emitter *)

Section MonadInversion.

Lemma bind_Ok {X Y} (c : M X) (k : X -> M Y) (g : Rng) (r : Y * Rng) :
  bind c k g = Ok r -> exists a g1, c g = Ok (a, g1) /\ k a g1 = Ok r.
Proof.
  unfold bind. destruct (c g) as [[a g1]|e]; [|discriminate].
  intros Hk. exists a, g1. split; [reflexivity|exact Hk].
Qed.

Lemma lift_Ok {X} (c : Exn X) (g g' : Rng) (a : X) :
  lift c g = Ok (a, g') -> c = Ok a /\ g' = g.
Proof.
  unfold lift. destruct c as [a0|e]; [|discriminate].
  intros Heq. injection Heq as <- <-. split; reflexivity.
Qed.

Lemma ret_Ok {X} (a a' : X) (g g' : Rng) :
  ret a g = Ok (a', g') -> a' = a /\ g' = g.
Proof.
  unfold ret. intros Heq. injection Heq as <- <-. split; reflexivity.
Qed.

End MonadInversion.

Section ParticleProperties.
Import gnipMath gnppygame gnpparticle.

(** A successful [Particle.step]: the particle was alive, moved by its
    velocity, and lost [dt] of lifetime, not going below zero. *)
Lemma Particle_step_Ok (dt : Q) (p p' : Particle.t) :
  Particle.step dt p = Ok p' ->
  Particle.can_reap p = false /\
  Particle._velocity p' = Particle._velocity p /\
  Particle._position p' =
    cVector2_add (Particle._position p) (cVector2_mul (Particle._velocity p) dt) /\
  Particle._lifetime_remaining p' =
    (if Qltb (Particle._lifetime_remaining p - dt) 0 then 0%Q
     else (Particle._lifetime_remaining p - dt)%Q).
Proof.
  unfold Particle.step, py_assert.
  destruct (Particle.can_reap p); simpl; [discriminate|].
  intros Heq. injection Heq as <-. simpl. repeat split.
Qed.

End ParticleProperties.

Section EmitterProperties.
Import gnipMath gnppygame gnpparticle.
Context `{Math}.

(** What the emitting loop does: it appends [n] new particles, created at the
    position of the emitter, and touches nothing else. *)
Lemma emit_loop_spec (n : nat) :
  forall (e e1 : Emitter.t) (g g1 : Rng),
  Emitter.emit_loop n e g = Ok (e1, g1) ->
  Emitter._position e1 = Emitter._position e /\
  Emitter._field_obj e1 = Emitter._field_obj e /\
  Emitter._rate_obj e1 = Emitter._rate_obj e /\
  Emitter._can_emit e1 = Emitter._can_emit e /\
  items (Emitter._particles e1) =
    items (Emitter._particles e) ++ seq (next_ref (Emitter._particles e)) n /\
  next_ref (Emitter._particles e1) = (next_ref (Emitter._particles e) + n)%nat /\
  (forall r, (r < next_ref (Emitter._particles e))%nat ->
     heap (Emitter._particles e1) !! r = heap (Emitter._particles e) !! r) /\
  (forall r, (next_ref (Emitter._particles e) <= r < next_ref (Emitter._particles e) + n)%nat ->
     exists p, heap (Emitter._particles e1) !! r = Some p /\
               Particle._position p = Emitter._position e).
Proof.
  induction n as [|n IH]; intros e e1 g g1 Hrun.
  - simpl in Hrun. apply ret_Ok in Hrun as [-> ->].
    repeat split; try reflexivity.
    + simpl. symmetry. apply app_nil_r.
    + lia.
    + intros r Hr. lia.
  - cbn [Emitter.emit_loop] in Hrun.
    apply bind_Ok in Hrun as (speed & g2 & _ & Hrun).
    apply bind_Ok in Hrun as (dir & g3 & _ & Hrun).
    apply bind_Ok in Hrun as (lifetime & g4 & _ & Hrun).
    apply bind_Ok in Hrun as (color & g5 & _ & Hrun).
    apply IH in Hrun as (Hpos & Hfield & Hrate & Hcan & Hitems & Hnext & Hold & Hnew).
    simpl in *.
    split; [exact Hpos|]. split; [exact Hfield|]. split; [exact Hrate|].
    split; [exact Hcan|].
    split; [rewrite Hitems, <- app_assoc; reflexivity|].
    split; [lia|]. split.
    + intros r Hr. rewrite Hold by lia. apply lookup_insert_ne. lia.
    + intros r Hr.
      destruct (Nat.eq_dec r (next_ref (Emitter._particles e))) as [->|Hne].
      * rewrite Hold by lia. rewrite lookup_insert_eq.
        eexists. split; [reflexivity|]. reflexivity.
      * apply Hnew. lia.
Qed.

(** The emitting phase of [Emitter.step], whether or not anything is emitted. *)
Lemma emit_phase_spec (dt : Q) (e e1 : Emitter.t) (g g1 : Rng) :
  (if Emitter._can_emit e then Emitter._emit dt e else ret e) g = Ok (e1, g1) ->
  exists n : nat,
    Emitter._position e1 = Emitter._position e /\
    Emitter._field_obj e1 = Emitter._field_obj e /\
    items (Emitter._particles e1) =
      items (Emitter._particles e) ++ seq (next_ref (Emitter._particles e)) n /\
    next_ref (Emitter._particles e1) = (next_ref (Emitter._particles e) + n)%nat /\
    (forall r, (r < next_ref (Emitter._particles e))%nat ->
       heap (Emitter._particles e1) !! r = heap (Emitter._particles e) !! r) /\
    (forall r, (next_ref (Emitter._particles e) <= r < next_ref (Emitter._particles e) + n)%nat ->
       exists p, heap (Emitter._particles e1) !! r = Some p /\
                 Particle._position p = Emitter._position e).
Proof.
  intros Hrun.
  assert (ret e g = Ok (e1, g1) -> exists n : nat,
    Emitter._position e1 = Emitter._position e /\
    Emitter._field_obj e1 = Emitter._field_obj e /\
    items (Emitter._particles e1) =
      items (Emitter._particles e) ++ seq (next_ref (Emitter._particles e)) n /\
    next_ref (Emitter._particles e1) = (next_ref (Emitter._particles e) + n)%nat /\
    (forall r, (r < next_ref (Emitter._particles e))%nat ->
       heap (Emitter._particles e1) !! r = heap (Emitter._particles e) !! r) /\
    (forall r, (next_ref (Emitter._particles e) <= r < next_ref (Emitter._particles e) + n)%nat ->
       exists p, heap (Emitter._particles e1) !! r = Some p /\
                 Particle._position p = Emitter._position e)) as Hsame.
  { intros Hret. apply ret_Ok in Hret as [-> ->]. exists 0%nat.
    repeat split; try reflexivity.
    - simpl. symmetry. apply app_nil_r.
    - lia.
    - intros r Hr. lia. }
  destruct (Emitter._can_emit e); [|exact (Hsame Hrun)].
  unfold Emitter._emit in Hrun.
  destruct (negb (is_complete (Emitter._rate_obj e))); [|exact (Hsame Hrun)].
  apply bind_Ok in Hrun as ([count rate'] & g2 & _ & Hrun).
  apply emit_loop_spec in Hrun as (Hpos & Hfield & _ & _ & Hitems & Hnext & Hold & Hnew).
  exists (Z.to_nat count). simpl in *.
  repeat split; assumption.
Qed.

(** The field pass over a list without repeated objects: every particle of
    the list gets [field.get_accel_vector(position, velocity) * dt] added to
    its velocity, once; nothing else changes. *)
Lemma field_loop_spec (field : EmitterField) (dt : Q) (todo : list ref) :
  forall (h h' : gmap nat Particle.t) (g g' : Rng),
  NoDup todo ->
  Emitter.field_loop field dt todo h g = Ok (h', g') ->
  (forall r, r ∉ todo -> h' !! r = h !! r) /\
  (forall r p, r ∈ todo -> h !! r = Some p ->
     exists accel ga gb,
       get_accel_vector field (Particle._position p) (Particle._velocity p) ga =
         Ok (accel, gb) /\
       h' !! r =
         Some (Particle.set_velocity
                 (cVector2_add (Particle._velocity p) (cVector2_mul accel dt)) p)).
Proof.
  induction todo as [|r0 todo IH]; intros h h' g g' Hnd Hrun.
  - simpl in Hrun. apply ret_Ok in Hrun as [-> ->]. split; [reflexivity|].
    intros r p Hr. apply elem_of_nil in Hr. contradiction.
  - apply NoDup_cons in Hnd as [Hr0 Hnd].
    cbn [Emitter.field_loop] in Hrun.
    destruct (h !! r0) as [p0|] eqn:Hh0; [|discriminate].
    apply bind_Ok in Hrun as (accel & g1 & Haccel & Hrun).
    destruct (IH _ _ _ _ Hnd Hrun) as [Hframe Hobj]. split.
    + intros r Hr. apply not_elem_of_cons in Hr as [Hne Hr].
      rewrite (Hframe _ Hr). apply lookup_insert_ne. congruence.
    + intros r p Hr Hp. apply elem_of_cons in Hr as [->|Hr].
      * rewrite Hh0 in Hp. injection Hp as <-.
        exists accel, g, g1. split; [exact Haccel|].
        rewrite (Hframe _ Hr0). apply lookup_insert_eq.
      * apply (Hobj r p Hr). rewrite lookup_insert_ne; [exact Hp|].
        intros ->. contradiction.
Qed.

(** [Emitter.step] is its three phases in order: emit, field, step the list. *)
Lemma Emitter_step_phases (dt : Q) (e e' : Emitter.t) (g g' : Rng) :
  Emitter.step dt e g = Ok (e', g') ->
  Emitter.can_reap e = false /\
  exists e1 g1 e2 al' stepped,
    (if Emitter._can_emit e then Emitter._emit dt e else ret e) g = Ok (e1, g1) /\
    Emitter.apply_field dt e1 g1 = Ok (e2, g') /\
    gnppygame.step dt (Emitter._particles e2) tt = Ok (al', tt, stepped) /\
    e' = Emitter.set_particles al' e2.
Proof.
  unfold Emitter.step. intros Hrun.
  apply bind_Ok in Hrun as (u & g0 & Hassert & Hrun).
  apply lift_Ok in Hassert as [Hassert ->].
  apply bind_Ok in Hrun as (e1 & g1 & Hemit & Hrun).
  apply bind_Ok in Hrun as (e2 & g2 & Hfield & Hrun).
  apply bind_Ok in Hrun as ([[al' []] stepped] & g3 & Hstep & Hrun).
  apply lift_Ok in Hstep as [Hstep ->].
  apply ret_Ok in Hrun as [-> ->].
  split.
  - unfold py_assert in Hassert. destruct (Emitter.can_reap e); [discriminate|reflexivity].
  - exists e1, g1, e2, al', stepped.
    split; [exact Hemit|]. split; [exact Hfield|]. split; [exact Hstep|reflexivity].
Qed.

Lemma apply_field_spec (dt : Q) (e1 e2 : Emitter.t) (g1 g2 : Rng) :
  Emitter.apply_field dt e1 g1 = Ok (e2, g2) ->
  items (Emitter._particles e2) = items (Emitter._particles e1) /\
  next_ref (Emitter._particles e2) = next_ref (Emitter._particles e1) /\
  match Emitter._field_obj e1 with
  | Some field =>
      Emitter.field_loop field dt (items (Emitter._particles e1))
        (heap (Emitter._particles e1)) g1 = Ok (heap (Emitter._particles e2), g2)
  | None => e2 = e1
  end.
Proof.
  unfold Emitter.apply_field. destruct (Emitter._field_obj e1) as [field|].
  - intros Hrun. apply bind_Ok in Hrun as (h & g3 & Hloop & Hret).
    apply ret_Ok in Hret as [-> ->]. simpl. repeat split. exact Hloop.
  - intros Hret. apply ret_Ok in Hret as [-> ->]. repeat split.
Qed.

(** Emitting keeps the list free of repeated objects. *)
Lemma emitted_items_NoDup (l : list ref) (next n : nat) :
  NoDup l -> Forall (fun r => r < next)%nat l -> NoDup (l ++ seq next n).
Proof.
  intros Hnd Hlt. apply NoDup_app. split; [exact Hnd|]. split; [|apply NoDup_seq].
  intros r Hr Hseq. apply elem_of_seq in Hseq.
  rewrite Forall_forall in Hlt. specialize (Hlt r Hr). lia.
Qed.

(** [Emitter.step] keeps the particle list well formed. *)
Lemma Emitter_step_wf (dt : Q) (e e' : Emitter.t) (g g' : Rng) :
  ActorList_wf (Emitter._particles e) ->
  Emitter.step dt e g = Ok (e', g') ->
  ActorList_wf (Emitter._particles e').
Proof.
  intros [Hnd Hlt] Hstep.
  apply Emitter_step_phases in Hstep
    as (_ & e1 & g1 & e2 & al' & stepped & Hemit & Hfield & Hstep & ->).
  apply emit_phase_spec in Hemit as (n & _ & _ & Hitems1 & Hnext1 & _ & _).
  apply apply_field_spec in Hfield as (Hitems2 & Hnext2 & _).
  assert (NoDup (items (Emitter._particles e2))) as Hnd2.
  { rewrite Hitems2, Hitems1. apply emitted_items_NoDup; assumption. }
  destruct (step_spec _ _ _ _ _ _ Hnd2 Hstep) as (_ & Hnext' & Hnd' & Hsub & _).
  split; [exact Hnd'|]. simpl.
  apply Forall_forall. intros r Hr. apply Hsub in Hr.
  rewrite Hitems2, Hitems1 in Hr. rewrite Hnext', Hnext2, Hnext1.
  apply elem_of_app in Hr as [Hr|Hr].
  - rewrite Forall_forall in Hlt. specialize (Hlt r Hr). lia.
  - apply elem_of_seq in Hr. lia.
Qed.

Lemma Emitter_init_wf (position : cVector2) (rate_obj : EmitterRate)
    (speed_obj : EmitterSpeed) (direction_obj : EmitterDirection)
    (lifetime_obj : EmitterLifetime) (color_obj : EmitterColor) (size : Z)
    (field_obj : option EmitterField) :
  ActorList_wf
    (Emitter._particles
       (Emitter.init position rate_obj speed_obj direction_obj lifetime_obj
          color_obj size field_obj)).
Proof.
  split; simpl; [apply NoDup_nil_2 | apply Forall_nil_2].
Qed.

(** What happens to one particle of the list between the end of the emitting
    phase and the end of [Emitter.step], when a field is attached. *)
Lemma Emitter_step_particle (dt : Q) (e1 e2 : Emitter.t) (g1 g2 : Rng)
    (al' : ActorList Particle.t) (stepped : list ref) (field : EmitterField)
    (r : ref) (p : Particle.t) :
  NoDup (items (Emitter._particles e1)) ->
  Emitter._field_obj e1 = Some field ->
  Emitter.apply_field dt e1 g1 = Ok (e2, g2) ->
  gnppygame.step dt (Emitter._particles e2) tt = Ok (al', tt, stepped) ->
  r ∈ items (Emitter._particles e1) ->
  heap (Emitter._particles e1) !! r = Some p ->
  exists accel ga gb p',
    get_accel_vector field (Particle._position p) (Particle._velocity p) ga =
      Ok (accel, gb) /\
    heap al' !! r = Some p' /\
    Particle._velocity p' =
      cVector2_add (Particle._velocity p) (cVector2_mul accel dt) /\
    Particle._position p' =
      cVector2_add (Particle._position p) (cVector2_mul (Particle._velocity p') dt) /\
    Particle._lifetime_remaining p' =
      (if Qltb (Particle._lifetime_remaining p - dt) 0 then 0%Q
       else (Particle._lifetime_remaining p - dt)%Q).
Proof.
  intros Hnd Hfield Happly Hstep Hr Hp.
  apply apply_field_spec in Happly as (Hitems2 & _ & Hloop).
  rewrite Hfield in Hloop.
  destruct (field_loop_spec _ _ _ _ _ _ _ Hnd Hloop) as [_ Hobj].
  destruct (Hobj r p Hr Hp) as (accel & ga & gb & Haccel & Hp2).
  rewrite <- Hitems2 in Hnd, Hr.
  destruct (step_spec _ _ _ _ _ _ Hnd Hstep) as (_ & _ & _ & _ & _ & Hstepped & _).
  destruct (Hstepped r _ Hr Hp2) as (p' & sa & sb & Hpstep & Hp').
  simpl in Hpstep. apply exn_bind_Ok in Hpstep as (p'' & Hpstep & Hok).
  injection Hok as <- _.
  apply Particle_step_Ok in Hpstep as (_ & Hvel & Hpos & Hlife). simpl in *.
  exists accel, ga, gb, p''.
  split; [exact Haccel|]. split; [exact Hp'|]. split; [exact Hvel|].
  split; [rewrite Hvel; exact Hpos | exact Hlife].
Qed.

(** C3: with a field that returns the constant acceleration [a], a particle
    that is in the list of the emitter with velocity [v0] and position [p0]
    has, after one [Emitter.step dt], velocity [v0 + a*dt] and position
    [p0 + (v0 + a*dt)*dt]: the field changes the velocity first and the
    position is integrated with the new velocity. *)
Theorem Emitter_step_field_then_position (dt : Q) (e e' : Emitter.t) (g g' : Rng)
    (a : cVector2) (r : ref) (p : Particle.t) :
  ActorList_wf (Emitter._particles e) ->
  Emitter._field_obj e = Some (cEmitterField_Constant a) ->
  r ∈ items (Emitter._particles e) ->
  heap (Emitter._particles e) !! r = Some p ->
  Emitter.step dt e g = Ok (e', g') ->
  exists p',
    heap (Emitter._particles e') !! r = Some p' /\
    Particle._velocity p' = cVector2_add (Particle._velocity p) (cVector2_mul a dt) /\
    Particle._position p' =
      cVector2_add (Particle._position p) (cVector2_mul (Particle._velocity p') dt) /\
    (x (Particle._velocity p') == x (Particle._velocity p) + x a * dt)%Q /\
    (y (Particle._velocity p') == y (Particle._velocity p) + y a * dt)%Q /\
    (x (Particle._position p') ==
       x (Particle._position p) + (x (Particle._velocity p) + x a * dt) * dt)%Q /\
    (y (Particle._position p') ==
       y (Particle._position p) + (y (Particle._velocity p) + y a * dt) * dt)%Q.
Proof.
  intros [Hnd Hlt] Hfield Hr Hp Hstep.
  apply Emitter_step_phases in Hstep
    as (_ & e1 & g1 & e2 & al' & stepped & Hemit & Happly & Hstep & ->).
  apply emit_phase_spec in Hemit as (n & _ & Hfield1 & Hitems1 & _ & Hold & _).
  assert (NoDup (items (Emitter._particles e1))) as Hnd1
    by (rewrite Hitems1; apply emitted_items_NoDup; assumption).
  assert (r ∈ items (Emitter._particles e1)) as Hr1
    by (rewrite Hitems1; apply elem_of_app; left; exact Hr).
  assert (heap (Emitter._particles e1) !! r = Some p) as Hp1.
  { rewrite Hold; [exact Hp|]. rewrite Forall_forall in Hlt. exact (Hlt r Hr). }
  rewrite Hfield in Hfield1.
  destruct (Emitter_step_particle _ _ _ _ _ _ _ _ _ _ Hnd1 Hfield1 Happly Hstep Hr1 Hp1)
    as (accel & ga & gb & p' & Haccel & Hp' & Hvel & Hpos & _).
  simpl in Haccel. apply ret_Ok in Haccel as [-> _].
  exists p'. split; [exact Hp'|]. split; [exact Hvel|]. split; [exact Hpos|].
  rewrite Hpos, Hvel. simpl. repeat split; ring.
Qed.

(** C10: when the emitter may emit and has a field, every particle created by
    the emitting phase of [Emitter.step dt] is in the list before the field
    pass and the list step of that same call: at the end of the call its
    velocity is the initial one plus the field acceleration times [dt], its
    position has been integrated once with that velocity, and its lifetime
    has been reduced by [dt]. *)
Theorem Emitter_step_new_particles (dt : Q) (e e1 e' : Emitter.t) (g g1 g' : Rng)
    (field : EmitterField) :
  ActorList_wf (Emitter._particles e) ->
  Emitter._can_emit e = true ->
  Emitter._field_obj e = Some field ->
  Emitter._emit dt e g = Ok (e1, g1) ->
  Emitter.step dt e g = Ok (e', g') ->
  exists news,
    items (Emitter._particles e1) = items (Emitter._particles e) ++ news /\
    forall r, r ∈ news ->
      (r ∉ items (Emitter._particles e)) /\
      exists p_new accel ga gb p',
        heap (Emitter._particles e1) !! r = Some p_new /\
        Particle._position p_new = Emitter._position e /\
        get_accel_vector field (Particle._position p_new) (Particle._velocity p_new) ga =
          Ok (accel, gb) /\
        heap (Emitter._particles e') !! r = Some p' /\
        Particle._velocity p' =
          cVector2_add (Particle._velocity p_new) (cVector2_mul accel dt) /\
        Particle._position p' =
          cVector2_add (Particle._position p_new)
            (cVector2_mul (Particle._velocity p') dt) /\
        Particle._lifetime_remaining p' =
          (if Qltb (Particle._lifetime_remaining p_new - dt) 0 then 0%Q
           else (Particle._lifetime_remaining p_new - dt)%Q).
Proof.
  intros [Hnd Hlt] Hcan Hfield Hemit Hstep.
  apply Emitter_step_phases in Hstep
    as (_ & e1' & g1' & e2 & al' & stepped & Hemit' & Happly & Hstep & ->).
  rewrite Hcan, Hemit in Hemit'. injection Hemit' as <- <-.
  assert ((if Emitter._can_emit e then Emitter._emit dt e else ret e) g = Ok (e1, g1))
    as Hphase by (rewrite Hcan; exact Hemit).
  apply emit_phase_spec in Hphase as (n & _ & Hfield1 & Hitems1 & _ & _ & Hnew).
  assert (NoDup (items (Emitter._particles e1))) as Hnd1
    by (rewrite Hitems1; apply emitted_items_NoDup; assumption).
  rewrite Hfield in Hfield1.
  exists (seq (next_ref (Emitter._particles e)) n). split; [exact Hitems1|].
  intros r Hr.
  assert (r ∈ items (Emitter._particles e1)) as Hr1
    by (rewrite Hitems1; apply elem_of_app; right; exact Hr).
  apply elem_of_seq in Hr. split.
  - intros Hin. rewrite Forall_forall in Hlt. specialize (Hlt r Hin). lia.
  - destruct (Hnew r Hr) as (p_new & Hp_new & Hpos_new).
    destruct (Emitter_step_particle _ _ _ _ _ _ _ _ _ _ Hnd1 Hfield1 Happly Hstep Hr1 Hp_new)
      as (accel & ga & gb & p' & Haccel & Hp' & Hvel & Hpos & Hlife).
    exists p_new, accel, ga, gb, p'.
    split; [exact Hp_new|]. split; [exact Hpos_new|]. split; [exact Haccel|].
    split; [exact Hp'|]. split; [exact Hvel|]. split; [exact Hpos | exact Hlife].
Qed.

End EmitterProperties.

Section EmitterReapProperties.
Import gnipMath gnppygame gnpparticle.

(** C4: [Emitter.can_reap] is true exactly when the rate policy is complete
    and the particle list of the emitter is empty. *)
Theorem Emitter_can_reap_iff (e : Emitter.t) :
  Emitter.can_reap e = true <->
  is_complete (Emitter._rate_obj e) = true /\ items (Emitter._particles e) = [].
Proof.
  unfold Emitter.can_reap, len.
  destruct (items (Emitter._particles e)) as [|r l]; simpl.
  - split; [intros Hc; split; [exact Hc|reflexivity] | intros [Hc _]; exact Hc].
  - split; [discriminate | intros [_ Hnil]; discriminate].
Qed.

Lemma random_choice_empty {X} (g : Rng) : random_choice (@nil X) g = Raise IndexError.
Proof.
  unfold random_choice, bind, random_random. simpl.
  destruct (Z.to_nat _); reflexivity.
Qed.

(** C7, as amended: constructing the colour-choice policy with an empty tuple
    succeeds; the failure comes later, at every [get_color] call, which raises
    [IndexError]. *)
Theorem EmitterColor_Choice_empty (g : Rng) :
  EmitterColor_Choice (PyTuple []) = Ok (Color_Choice []) /\
  get_color (Color_Choice []) g = Raise IndexError.
Proof.
  split; [reflexivity|]. apply random_choice_empty.
Qed.

(** The construction with an empty tuple does not raise. *)
Lemma EmitterColor_Choice_empty_succeeds :
  ~ (exists err, EmitterColor_Choice (PyTuple []) = Raise err).
Proof.
  intros [err Herr]. discriminate Herr.
Qed.

End EmitterReapProperties.

Section EmitterExamples.
Import gnipMath gnppygame gnpparticle.

Lemma example_emitter_wf (p : Particle.t) :
  ActorList_wf (Emitter._particles (example_emitter_with p)).
Proof.
  split; simpl.
  - apply NoDup_cons. split; [|apply NoDup_singleton].
    intros Hin. apply list_elem_of_singleton in Hin. discriminate.
  - repeat constructor.
Qed.

Lemma Emitter_step_field_then_position_witness :
  ActorList_wf (Emitter._particles (example_emitter_with example_particle_1)) /\
  Emitter._field_obj (example_emitter_with example_particle_1) =
    Some (cEmitterField_Constant example_gravity) /\
  0%nat ∈ items (Emitter._particles (example_emitter_with example_particle_1)) /\
  heap (Emitter._particles (example_emitter_with example_particle_1)) !! 0%nat =
    Some example_particle_1 /\
  @Emitter.step example_math (1 # 2) (example_emitter_with example_particle_1) example_rng =
    Ok (example_emitter_with example_particle_2, example_rng) /\
  exists p',
    heap (Emitter._particles (example_emitter_with example_particle_2)) !! 0%nat = Some p' /\
    Particle._velocity p' =
      cVector2_add (Particle._velocity example_particle_1)
        (cVector2_mul example_gravity (1 # 2)) /\
    Particle._position p' =
      cVector2_add (Particle._position example_particle_1)
        (cVector2_mul (Particle._velocity p') (1 # 2)).
Proof.
  pose proof (example_emitter_wf example_particle_1) as Hwf.
  assert (Emitter._field_obj (example_emitter_with example_particle_1) =
            Some (cEmitterField_Constant example_gravity)) as Hfield by reflexivity.
  assert (0%nat ∈ items (Emitter._particles (example_emitter_with example_particle_1)))
    as Hin by (apply elem_of_cons; left; reflexivity).
  assert (heap (Emitter._particles (example_emitter_with example_particle_1)) !! 0%nat =
            Some example_particle_1) as Hobj by (vm_compute; reflexivity).
  assert (@Emitter.step example_math (1 # 2) (example_emitter_with example_particle_1)
            example_rng = Ok (example_emitter_with example_particle_2, example_rng))
    as Hstep by (vm_compute; reflexivity).
  split; [exact Hwf|]. split; [exact Hfield|]. split; [exact Hin|].
  split; [exact Hobj|]. split; [exact Hstep|].
  destruct (@Emitter_step_field_then_position example_math (1 # 2) _ _ _ _ _ _ _
              Hwf Hfield Hin Hobj Hstep) as (p' & Hp' & Hvel & Hpos & _).
  exists p'. split; [exact Hp'|]. split; [exact Hvel | exact Hpos].
Defined.

Lemma Emitter_step_new_particles_witness :
  ActorList_wf (Emitter._particles example_emitter) /\
  Emitter._can_emit example_emitter = true /\
  Emitter._field_obj example_emitter = Some (cEmitterField_Constant example_gravity) /\
  @Emitter._emit example_math (1 # 2) example_emitter example_rng =
    Ok (example_emitter_with example_emitted_particle, example_rng) /\
  @Emitter.step example_math (1 # 2) example_emitter example_rng =
    Ok (example_emitter_with example_particle_1, example_rng) /\
  exists news,
    items (Emitter._particles (example_emitter_with example_emitted_particle)) =
      items (Emitter._particles example_emitter) ++ news /\
    forall r, r ∈ news ->
      (r ∉ items (Emitter._particles example_emitter)) /\
      exists p_new accel ga gb p',
        heap (Emitter._particles (example_emitter_with example_emitted_particle)) !! r =
          Some p_new /\
        Particle._position p_new = Emitter._position example_emitter /\
        @get_accel_vector example_math (cEmitterField_Constant example_gravity)
          (Particle._position p_new) (Particle._velocity p_new) ga = Ok (accel, gb) /\
        heap (Emitter._particles (example_emitter_with example_particle_1)) !! r = Some p' /\
        Particle._velocity p' =
          cVector2_add (Particle._velocity p_new) (cVector2_mul accel (1 # 2)) /\
        Particle._position p' =
          cVector2_add (Particle._position p_new)
            (cVector2_mul (Particle._velocity p') (1 # 2)) /\
        Particle._lifetime_remaining p' =
          (if Qltb (Particle._lifetime_remaining p_new - (1 # 2)) 0 then 0%Q
           else (Particle._lifetime_remaining p_new - (1 # 2))%Q).
Proof.
  assert (ActorList_wf (Emitter._particles example_emitter)) as Hwf
    by (split; simpl; [apply NoDup_nil_2 | apply Forall_nil_2]).
  assert (Emitter._can_emit example_emitter = true) as Hcan by reflexivity.
  assert (Emitter._field_obj example_emitter =
            Some (cEmitterField_Constant example_gravity)) as Hfield by reflexivity.
  assert (@Emitter._emit example_math (1 # 2) example_emitter example_rng =
            Ok (example_emitter_with example_emitted_particle, example_rng))
    as Hemit by (vm_compute; reflexivity).
  assert (@Emitter.step example_math (1 # 2) example_emitter example_rng =
            Ok (example_emitter_with example_particle_1, example_rng))
    as Hstep by (vm_compute; reflexivity).
  split; [exact Hwf|]. split; [exact Hcan|]. split; [exact Hfield|].
  split; [exact Hemit|]. split; [exact Hstep|].
  exact (@Emitter_step_new_particles example_math (1 # 2) _ _ _ _ _ _ _
           Hwf Hcan Hfield Hemit Hstep).
Defined.

End EmitterExamples.

(** * Further properties *)

(** ** gnipMath: integers *)

Section IntegerProperties.
Import gnipMath.
Local Open Scope Z_scope.

Lemma GCD_zero (a : Z) : GCD a 0 = a.
Proof. rewrite GCD_equation_1. reflexivity. Qed.

Lemma GCD_step (a b : Z) : b <> 0 -> GCD a b = GCD b (a mod b).
Proof.
  intros Hne. rewrite GCD_equation_1 at 1.
  destruct (Z.eq_dec b 0) as [Heq|Hne']; [contradiction|reflexivity].
Qed.

Lemma GCD_properties (n : nat) :
  forall a b, (Z.abs_nat b < n)%nat ->
  Z.abs (GCD a b) = Z.gcd a b /\ (0 <= a -> 0 <= b -> 0 <= GCD a b).
Proof.
  induction n as [|n IH]; intros a b Hlt; [lia|].
  destruct (Z.eq_dec b 0) as [->|Hne].
  - rewrite GCD_zero, Z.gcd_0_r. split; [reflexivity|]. intros Ha _. exact Ha.
  - rewrite (GCD_step a b Hne).
    pose proof (Z.mod_bound_or a b Hne) as Hmod.
    destruct (IH b (a mod b) ltac:(lia)) as [Habs Hnn]. split.
    + rewrite Habs, Z.gcd_mod_r. apply Z.gcd_comm.
    + intros Ha Hb. apply Hnn; [exact Hb|]. apply Z.mod_pos_bound. lia.
Qed.

(** X1: Euclid's loop ends for every pair of integers and returns their greatest
    common divisor up to sign: the sign follows Python's [%], which takes the
    sign of the divisor, so [GCD 4 (-6)] is [-2]. *)
Theorem GCD_abs (a b : Z) :
  Z.abs (GCD a b) = Z.gcd a b /\ GCD 4 (-6) = -2.
Proof.
  split; [|reflexivity].
  exact (proj1 (GCD_properties (S (Z.abs_nat b)) a b ltac:(lia))).
Qed.











End IntegerProperties.

(** ** gnipMath: interpolation and clamping *)

Section InterpolationRoundTrip.
Import gnipMath.
Local Open Scope Q_scope.

(** X4: [InverseLerp] undoes [LinInterp] and [LinInterp] undoes [InverseLerp],
    on any range whose ends differ. *)
Theorem LinInterp_InverseLerp_round_trip (lo hi u val : Q) :
  ~ lo == hi ->
  (exists r, InverseLerp (LinInterp lo hi u) lo hi = Ok r /\ r == u) /\
  (exists r, InverseLerp val lo hi = Ok r /\ LinInterp lo hi r == val).
Proof.
  intros Hne.
  assert (Qeq_bool lo hi = false) as Hb.
  { destruct (Qeq_bool lo hi) eqn:E; [|reflexivity].
    apply Qeq_bool_iff in E. contradiction. }
  assert (~ hi - lo == 0) as Hd by (intros H0; apply Hne; lra).
  unfold InverseLerp, py_truediv. cbv zeta. rewrite !Qeq_bool_sub_zero, Hb.
  split; eexists; (split; [reflexivity|]); unfold LinInterp; field; exact Hd.
Qed.

Lemma LinInterp_InverseLerp_round_trip_witness :
  ~ 10 == 20 /\
  (exists r, InverseLerp (LinInterp 10 20 (1 # 4)) 10 20 = Ok r /\ r == 1 # 4) /\
  (exists r, InverseLerp 12 10 20 = Ok r /\ LinInterp 10 20 r == 12).
Proof.
  assert (~ 10 == 20) as Hne by discriminate.
  split; [exact Hne|].
  exact (LinInterp_InverseLerp_round_trip 10 20 (1 # 4) 12 Hne).
Defined.

(** X5: [QuadraticInterp] passes through its three values at [u = 0], [1/2], [1];
    [BiLinInterp] returns its four corner values at the corners. *)
Theorem Interp_through_points (x0 x1 x2 a b c d : Q) :
  QuadraticInterp x0 x1 x2 0 == x0 /\
  QuadraticInterp x0 x1 x2 (1 # 2) == x1 /\
  QuadraticInterp x0 x1 x2 1 == x2 /\
  BiLinInterp a b c d 0 0 == a /\
  BiLinInterp a b c d 1 0 == b /\
  BiLinInterp a b c d 1 1 == c /\
  BiLinInterp a b c d 0 1 == d.
Proof.
  unfold QuadraticInterp, BiLinInterp, LinInterp. repeat split; field.
Qed.

Lemma Clamp_Q_spec (val lo hi : Q) :
  lo <= hi ->
  lo <= Clamp Qltb val lo hi /\ Clamp Qltb val lo hi <= hi /\
  (Qle_bool lo val && Qle_bool val hi = true -> Clamp Qltb val lo hi = val) /\
  Clamp Qltb val lo hi = ClampHi Qltb (ClampLo Qltb val lo) hi.
Proof.
  intros Hle. unfold Clamp, ClampHi, ClampLo.
  destruct (Qltb val lo) eqn:E1.
  - apply Qltb_true in E1.
    assert (Qltb hi lo = false) as E3 by (apply Qltb_false; exact Hle).
    rewrite E3. split; [apply Qle_refl|]. split; [exact Hle|]. split; [|reflexivity].
    intros Hin. apply andb_true_iff in Hin as [Hin _]. apply Qle_bool_iff in Hin. lra.
  - apply Qltb_false in E1. destruct (Qltb hi val) eqn:E2.
    + apply Qltb_true in E2. split; [exact Hle|]. split; [apply Qle_refl|].
      split; [|reflexivity].
      intros Hin. apply andb_true_iff in Hin as [_ Hin]. apply Qle_bool_iff in Hin. lra.
    + apply Qltb_false in E2. repeat split; assumption.
Qed.

(** X6: With [lo <= hi], [Clamp] returns a value of the interval, leaves a value
    of the interval unchanged, and is [ClampLo] followed by [ClampHi]. *)
Theorem Clamp_in_range (val lo hi : Q) :
  lo <= hi ->
  lo <= Clamp Qltb val lo hi /\ Clamp Qltb val lo hi <= hi /\
  (Qle_bool lo val && Qle_bool val hi = true -> Clamp Qltb val lo hi = val) /\
  Clamp Qltb val lo hi = ClampHi Qltb (ClampLo Qltb val lo) hi.
Proof. exact (Clamp_Q_spec val lo hi). Qed.

Lemma Clamp_in_range_witness :
  0 <= 1 /\ 0 <= Clamp Qltb (3 # 2) 0 1 /\ Clamp Qltb (3 # 2) 0 1 <= 1.
Proof.
  assert (0 <= 1) as Hle by discriminate.
  split; [exact Hle|].
  destruct (Clamp_in_range (3 # 2) 0 1 Hle) as (Hlo & Hhi & _).
  split; [exact Hlo | exact Hhi].
Defined.

End InterpolationRoundTrip.

(** ** gnipMath: cRange, the other methods *)

Section RangeMethods.
Import gnipMath.
Local Open Scope Q_scope.

Lemma Contains_iff (w lo hi : Q) :
  cRange_Contains w (mk_cRange true (Some lo) (Some hi)) = Ok true <->
  lo <= w /\ w <= hi.
Proof.
  unfold cRange_Contains. simpl.
  destruct (Qle_bool lo w) eqn:E1.
  - apply Qle_bool_iff in E1. simpl. split.
    + intros Heq. injection Heq as Heq. apply Qle_bool_iff in Heq. split; assumption.
    + intros [_ Hhi]. apply Qle_bool_iff in Hhi. rewrite Hhi. reflexivity.
  - split; [discriminate|]. intros [Hlo _]. apply Qle_bool_iff in Hlo. congruence.
Qed.

(** [Include] widens an initialised range just enough to hold the value. *)
Lemma Include_hull (v lo hi : Q) :
  lo <= hi ->
  exists lo' hi',
    Include v (mk_cRange true (Some lo) (Some hi)) =
      Ok (mk_cRange true (Some lo') (Some hi')) /\
    lo' <= lo /\ hi <= hi' /\ lo' <= v /\ v <= hi' /\ lo' <= hi'.
Proof.
  intros Hle. unfold Include. simpl.
  destruct (Qltb v lo) eqn:Hlo; simpl.
  - apply Qltb_true in Hlo.
    assert (Qltb hi v = false) as Hhi by (apply Qltb_false; lra).
    rewrite Hhi. exists v, hi. split; [reflexivity|].
    repeat split; lra.
  - apply Qltb_false in Hlo. destruct (Qltb hi v) eqn:Hhi.
    + apply Qltb_true in Hhi. exists lo, v. split; [reflexivity|].
      repeat split; lra.
    + apply Qltb_false in Hhi. exists lo, hi. split; [reflexivity|].
      repeat split; lra.
Qed.

(** X7: After [Include v] on an initialised range, [Contains v] holds, and every
    value the range contained before is still contained. *)
Theorem Include_then_Contains (v : Q) (r : cRange) :
  cRange_inv r ->
  exists r',
    Include v r = Ok r' /\
    cRange_inv r' /\
    cRange_Contains v r' = Ok true /\
    (forall w, cRange_Contains w r = Ok true -> cRange_Contains w r' = Ok true).
Proof.
  intros (lo & hi & -> & Hle).
  destruct (Include_hull v lo hi Hle)
    as (lo' & hi' & Hinc & Hlo & Hhi & Hvlo & Hvhi & Hle').
  eexists. split; [exact Hinc|]. split; [exists lo', hi'; split; [reflexivity|exact Hle']|].
  split; [apply Contains_iff; split; assumption|].
  intros w Hw. apply Contains_iff in Hw as [Hw1 Hw2]. apply Contains_iff. split; lra.
Qed.

Lemma Include_then_Contains_witness :
  cRange_inv (mk_cRange true (Some (-5)) (Some 5)) /\
  exists r',
    Include 27 (mk_cRange true (Some (-5)) (Some 5)) = Ok r' /\
    cRange_inv r' /\
    cRange_Contains 27 r' = Ok true /\
    (forall w, cRange_Contains w (mk_cRange true (Some (-5)) (Some 5)) = Ok true ->
               cRange_Contains w r' = Ok true).
Proof.
  assert (cRange_inv (mk_cRange true (Some (-5)) (Some 5))) as Hinv
    by (exists (-5), 5; split; [reflexivity|discriminate]).
  split; [exact Hinv|].
  exact (Include_then_Contains 27 _ Hinv).
Defined.

(** X8: On an initialised range, [Clamp] returns a value that [Contains] accepts,
    and returns a contained value unchanged. *)
Theorem cRange_Clamp_Contains (val : Q) (r : cRange) :
  cRange_inv r ->
  exists c,
    cRange_Clamp val r = Ok c /\
    cRange_Contains c r = Ok true /\
    (cRange_Contains val r = Ok true -> c = val).
Proof.
  intros (lo & hi & -> & Hle).
  destruct (Clamp_Q_spec val lo hi Hle) as (Hlo & Hhi & Hid & _).
  exists (Clamp Qltb val lo hi). split; [reflexivity|].
  split; [apply Contains_iff; split; assumption|].
  intros Hin. apply Contains_iff in Hin as [H1 H2]. apply Hid.
  apply andb_true_iff. split; apply Qle_bool_iff; assumption.
Qed.

Lemma cRange_Clamp_Contains_witness :
  cRange_inv (mk_cRange true (Some (-15)) (Some 27)) /\
  exists c,
    cRange_Clamp 99 (mk_cRange true (Some (-15)) (Some 27)) = Ok c /\
    cRange_Contains c (mk_cRange true (Some (-15)) (Some 27)) = Ok true /\
    (cRange_Contains 99 (mk_cRange true (Some (-15)) (Some 27)) = Ok true -> c = 99).
Proof.
  assert (cRange_inv (mk_cRange true (Some (-15)) (Some 27))) as Hinv
    by (exists (-15), 27; split; [reflexivity|discriminate]).
  split; [exact Hinv|].
  exact (cRange_Clamp_Contains 99 _ Hinv).
Defined.

(** X9: [IncludeRange] of two initialised ranges gives a range that contains
    whatever either of them contained. *)
Theorem IncludeRange_contains_both (a b : cRange) :
  cRange_inv a -> cRange_inv b ->
  exists r',
    cRange_IncludeRange b a = Ok r' /\
    cRange_inv r' /\
    (forall w, cRange_Contains w a = Ok true \/ cRange_Contains w b = Ok true ->
               cRange_Contains w r' = Ok true).
Proof.
  intros (alo & ahi & -> & Hale) (blo & bhi & -> & Hble).
  destruct (Include_hull blo alo ahi Hale)
    as (lo1 & hi1 & Hinc1 & Hlo1 & Hhi1 & Hv1lo & Hv1hi & Hle1).
  destruct (Include_hull bhi lo1 hi1 Hle1)
    as (lo2 & hi2 & Hinc2 & Hlo2 & Hhi2 & Hv2lo & Hv2hi & Hle2).
  exists (mk_cRange true (Some lo2) (Some hi2)). split.
  - unfold cRange_IncludeRange. simpl. rewrite Hinc1. simpl. exact Hinc2.
  - split; [exists lo2, hi2; split; [reflexivity|exact Hle2]|].
    intros w [Hw|Hw]; apply Contains_iff in Hw as [Hw1 Hw2]; apply Contains_iff; split; lra.
Qed.

Lemma IncludeRange_contains_both_witness :
  cRange_inv (mk_cRange true (Some 0) (Some 1)) /\
  cRange_inv (mk_cRange true (Some 3) (Some 4)) /\
  exists r',
    cRange_IncludeRange (mk_cRange true (Some 3) (Some 4))
      (mk_cRange true (Some 0) (Some 1)) = Ok r' /\
    cRange_inv r' /\
    (forall w, cRange_Contains w (mk_cRange true (Some 0) (Some 1)) = Ok true \/
               cRange_Contains w (mk_cRange true (Some 3) (Some 4)) = Ok true ->
               cRange_Contains w r' = Ok true).
Proof.
  assert (cRange_inv (mk_cRange true (Some 0) (Some 1))) as Ha
    by (exists 0, 1; split; [reflexivity|discriminate]).
  assert (cRange_inv (mk_cRange true (Some 3) (Some 4))) as Hb
    by (exists 3, 4; split; [reflexivity|discriminate]).
  split; [exact Ha|]. split; [exact Hb|].
  exact (IncludeRange_contains_both _ _ Ha Hb).
Defined.

End RangeMethods.

(** ** gnipMath: cPulseWave *)

Section PulseWaveProperties.
Import gnipMath.
Local Open Scope Q_scope.

Lemma Qfloor_succ (q : Q) : Qfloor (q + 1) = (Qfloor q + 1)%Z.
Proof.
  pose proof (Qfloor_le q) as Hlo. pose proof (Qlt_floor q) as Hhi.
  rewrite inject_Z_plus in Hhi. change (inject_Z 1) with 1 in Hhi.
  apply Qfloor_unique.
  - rewrite inject_Z_plus. change (inject_Z 1) with 1. lra.
  - rewrite !inject_Z_plus. change (inject_Z 1) with 1. lra.
Qed.

Lemma py_int_Qeq (p q : Q) : 0 <= p -> p == q -> py_int p = py_int q.
Proof.
  intros Hp Heq. rewrite !py_int_floor by lra. apply Qfloor_comp. exact Heq.
Qed.

(** The fractional part repeats with period 1 on non-negative numbers. *)
Lemma math_modf_frac_succ (p q : Q) :
  0 <= q -> p == q + 1 -> math_modf_frac p == math_modf_frac q.
Proof.
  intros Hq Heq. unfold math_modf_frac.
  rewrite (py_int_Qeq p (q + 1)) by lra.
  rewrite !py_int_floor by lra. rewrite Qfloor_succ, inject_Z_plus.
  change (inject_Z 1) with 1. lra.
Qed.

(** The fractional part of a number that is not positive is not positive. *)
Lemma math_modf_frac_nonpos (q : Q) : q <= 0 -> math_modf_frac q <= 0.
Proof.
  intros Hq. unfold math_modf_frac.
  assert (py_int q = (- py_int (- q))%Z) as Hopp.
  { unfold py_int. destruct q as [n d]. simpl. rewrite Z.quot_opp_l by lia. lia. }
  rewrite Hopp, py_int_floor by lra.
  pose proof (Qfloor_le (- q)) as Hfl. rewrite inject_Z_opp. lra.
Qed.

Lemma Qltb_Qeq (a b c : Q) : a == b -> Qltb a c = Qltb b c.
Proof.
  intros Heq. unfold Qltb. f_equal. apply Qleb_comp; [reflexivity|exact Heq].
Qed.

(** X10: A pulse wave built by the constructor repeats with its wavelength on
    non-negative times: [Get (t + wavelength)] is [Get t]. *)
Theorem cPulseWave_periodic (wavelength phaseShift pulseWidth t : Q)
    (amplitudeRange : cRange) (w : cPulseWave) :
  cPulseWave_init wavelength amplitudeRange phaseShift pulseWidth = Ok w ->
  0 < wavelength -> 0 <= t ->
  cPulseWave_Get (t + wavelength) w = cPulseWave_Get t w.
Proof.
  intros Hinit Hw Ht. unfold cPulseWave_init, py_assert in Hinit.
  destruct (Qle_bool 0 phaseShift && Qle_bool phaseShift 1) eqn:Hph; [|discriminate].
  destruct (Qle_bool 0 pulseWidth && Qle_bool pulseWidth 1); [|discriminate].
  simpl in Hinit. injection Hinit as <-.
  apply andb_true_iff in Hph as [Hph _]. apply Qle_bool_iff in Hph.
  unfold cPulseWave_Get, py_truediv. simpl.
  destruct (Qeq_bool wavelength 0) eqn:E.
  { apply Qeq_bool_iff in E. lra. }
  simpl.
  assert (0 <= t / wavelength) as Hq by (apply Qle_shift_div_l; lra).
  rewrite (Qltb_Qeq (math_modf_frac ((t + wavelength) / wavelength + phaseShift))
             (math_modf_frac (t / wavelength + phaseShift))); [reflexivity|].
  apply math_modf_frac_succ; [lra|]. field. lra.
Qed.

Lemma cPulseWave_periodic_witness :
  cPulseWave_init 4 (mk_cRange true (Some (-5)) (Some 2)) 0 (1 # 2) =
    Ok (mk_cPulseWave 4 (mk_cRange true (Some (-5)) (Some 2)) 0 (1 # 2)) /\
  0 < 4 /\ 0 <= 21 # 10 /\
  cPulseWave_Get ((21 # 10) + 4)
    (mk_cPulseWave 4 (mk_cRange true (Some (-5)) (Some 2)) 0 (1 # 2)) =
  cPulseWave_Get (21 # 10)
    (mk_cPulseWave 4 (mk_cRange true (Some (-5)) (Some 2)) 0 (1 # 2)).
Proof.
  assert (cPulseWave_init 4 (mk_cRange true (Some (-5)) (Some 2)) 0 (1 # 2) =
            Ok (mk_cPulseWave 4 (mk_cRange true (Some (-5)) (Some 2)) 0 (1 # 2)))
    as Hinit by reflexivity.
  assert (0 < 4) as Hw by reflexivity.
  assert (0 <= 21 # 10) as Ht by discriminate.
  split; [exact Hinit|]. split; [exact Hw|]. split; [exact Ht|].
  exact (cPulseWave_periodic 4 0 (1 # 2) (21 # 10) _ _ Hinit Hw Ht).
Defined.

(** X11: Before time zero the wave does not repeat: wherever
    [t / wavelength + phaseShift] is not positive, a wave with a positive
    pulse width returns the low end of its range. *)
Theorem cPulseWave_nonpositive_phase (t : Q) (w : cPulseWave) :
  0 < _wavelength w -> 0 < _pulseWidth w ->
  t / _wavelength w + _phaseShift w <= 0 ->
  cPulseWave_Get t w = __getattr__ (_amplitudeRange w) "lo".
Proof.
  intros Hw Hpw Harg. unfold cPulseWave_Get, py_truediv.
  destruct (Qeq_bool (_wavelength w) 0) eqn:E.
  { apply Qeq_bool_iff in E. lra. }
  simpl. pose proof (math_modf_frac_nonpos _ Harg) as Hfrac.
  assert (Qltb (math_modf_frac (t / _wavelength w + _phaseShift w)) (_pulseWidth w) = true)
    as Hlt by (apply Qltb_true; lra).
  rewrite Hlt. reflexivity.
Qed.

Lemma cPulseWave_nonpositive_phase_witness :
  0 < 4 /\ 0 < 1 # 2 /\ (- (3)) / 4 + 0 <= 0 /\
  cPulseWave_Get (- (3)) (mk_cPulseWave 4 (mk_cRange true (Some (-5)) (Some 2)) 0 (1 # 2)) =
    Ok (-5).
Proof.
  assert (0 < 4) as Hw by reflexivity.
  assert (0 < 1 # 2) as Hpw by reflexivity.
  assert ((- (3)) / 4 + 0 <= 0) as Harg by discriminate.
  split; [exact Hw|]. split; [exact Hpw|]. split; [exact Harg|].
  exact (cPulseWave_nonpositive_phase (- (3))
           (mk_cPulseWave 4 (mk_cRange true (Some (-5)) (Some 2)) 0 (1 # 2)) Hw Hpw Harg).
Defined.

End PulseWaveProperties.

(** ** gnppygame: rectangles *)

Section RectProperties.
Import gnppygame.
Local Open Scope Z_scope.

Lemma Clamp_Z_in_range (val lo hi : Z) :
  lo <= hi ->
  lo <= gnipMath.Clamp Z.ltb val lo hi <= hi /\
  (lo <= val <= hi -> gnipMath.Clamp Z.ltb val lo hi = val).
Proof.
  intros Hle. unfold gnipMath.Clamp.
  destruct (Z.ltb_spec val lo); [lia|]. destruct (Z.ltb_spec hi val); lia.
Qed.

(** X12: For a rectangle at least one pixel wide and high, the clamped point is a
    pixel of the rectangle ([left <= x < right], [top <= y < bottom]), and a
    point that already is one is returned unchanged. *)
Theorem clamp_point_to_rect_inside (p : Z * Z) (r : Rect) :
  1 <= rect_width r -> 1 <= rect_height r ->
  rect_left r <= fst (clamp_point_to_rect p r) < rect_right r /\
  rect_top r <= snd (clamp_point_to_rect p r) < rect_bottom r /\
  (rect_left r <= fst p < rect_right r -> rect_top r <= snd p < rect_bottom r ->
   clamp_point_to_rect p r = p).
Proof.
  intros Hw Hh. unfold clamp_point_to_rect, rect_left, rect_right, rect_top, rect_bottom.
  destruct (Clamp_Z_in_range (fst p) (rect_x r) (rect_x r + rect_width r - 1) ltac:(lia))
    as [Hx Hxid].
  destruct (Clamp_Z_in_range (snd p) (rect_y r) (rect_y r + rect_height r - 1) ltac:(lia))
    as [Hy Hyid].
  simpl. split; [lia|]. split; [lia|].
  intros Hpx Hpy. rewrite Hxid, Hyid by lia. destruct p; reflexivity.
Qed.

Lemma clamp_point_to_rect_inside_witness :
  1 <= rect_width (mk_Rect 0 0 640 480) /\ 1 <= rect_height (mk_Rect 0 0 640 480) /\
  rect_left (mk_Rect 0 0 640 480) <=
    fst (clamp_point_to_rect (700, -3) (mk_Rect 0 0 640 480)) <
    rect_right (mk_Rect 0 0 640 480) /\
  rect_top (mk_Rect 0 0 640 480) <=
    snd (clamp_point_to_rect (700, -3) (mk_Rect 0 0 640 480)) <
    rect_bottom (mk_Rect 0 0 640 480).
Proof.
  assert (1 <= rect_width (mk_Rect 0 0 640 480)) as Hw by (simpl; lia).
  assert (1 <= rect_height (mk_Rect 0 0 640 480)) as Hh by (simpl; lia).
  split; [exact Hw|]. split; [exact Hh|].
  destruct (clamp_point_to_rect_inside (700, -3) (mk_Rect 0 0 640 480) Hw Hh)
    as (Hx & Hy & _).
  split; [exact Hx | exact Hy].
Defined.



End RectProperties.

(** ** gnppygame: the generators *)

Section GeneratorProperties.
Import gnppygame.
Context {T : Type}.

Lemma cycle_through_items_take_from (items : list T) (n : nat) :
  forall (state : option nat) (start : nat),
  items <> [] ->
  (start < length items)%nat ->
  (state = None /\ start = 0%nat \/
   exists i, state = Some i /\ (i < length items)%nat /\
             start = (if (length items <=? S i)%nat then 0%nat else S i)) ->
  exists vals,
    cycle_through_items_take items n state = Ok vals /\
    length vals = n /\
    forall k, (k < n)%nat ->
      nth_error vals k = nth_error items ((start + k) mod length items).
Proof.
  induction n as [|n IH]; intros state start Hne Hstart Hstate.
  - exists []. split; [reflexivity|]. split; [reflexivity|]. intros k Hk. lia.
  - assert (exists v, nth_error items start = Some v) as [v Hv].
    { destruct (nth_error items start) as [v|] eqn:E; [exists v; reflexivity|].
      apply nth_error_None in E. lia. }
    assert (cycle_through_items_next items state = Ok (v, Some start)) as Hnext.
    { unfold cycle_through_items_next.
      destruct Hstate as [[-> ->]|(i & -> & Hi & ->)]; rewrite Hv; reflexivity. }
    set (start' := if (length items <=? S start)%nat then 0%nat else S start).
    assert (start' < length items)%nat as Hstart'.
    { subst start'. destruct (Nat.leb_spec (length items) (S start)); lia. }
    assert (Some start = None /\ start' = 0%nat \/
            exists i, Some start = Some i /\ (i < length items)%nat /\
                      start' = (if (length items <=? S i)%nat then 0%nat else S i))
      as Hstate'.
    { right. exists start. split; [reflexivity|]. split; [exact Hstart|reflexivity]. }
    destruct (IH (Some start) start' Hne Hstart' Hstate')
      as (vals & Htake & Hlen & Hnth).
    exists (v :: vals). split.
    + cbn [cycle_through_items_take]. rewrite Hnext. simpl. rewrite Htake. reflexivity.
    + split; [simpl; congruence|]. intros k Hk. destruct k as [|k].
      * simpl. rewrite Nat.add_0_r, Nat.mod_small by exact Hstart. symmetry. exact Hv.
      * simpl. rewrite Hnth by lia. f_equal. subst start'.
        destruct (Nat.leb_spec (length items) (S start)) as [Hwrap|Hnowrap].
        -- assert (S start = length items) as Heq by lia.
           replace (start + S k)%nat with (k + 1 * length items)%nat by lia.
           rewrite Nat.Div0.mod_add. reflexivity.
        -- f_equal. lia.
Qed.

(** X14: On a non-empty list the generator never ends and its [k]-th value is
    [items[k mod len(items)]]; on an empty list the first [next()] raises
    [IndexError]. *)
Theorem cycle_through_items_nth (items : list T) (n : nat) :
  items <> [] ->
  (exists vals,
     cycle_through_items_take items n None = Ok vals /\
     length vals = n /\
     forall k, (k < n)%nat -> nth_error vals k = nth_error items (k mod length items)) /\
  cycle_through_items_next (@nil T) None = Raise IndexError.
Proof.
  intros Hne. split; [|reflexivity].
  assert (0 < length items)%nat as Hlen by (destruct items; [contradiction|simpl; lia]).
  exact (cycle_through_items_take_from items n None 0%nat Hne Hlen
           ltac:(left; split; reflexivity)).
Qed.

Lemma random_choice_In (seq : list T) (g g' : Rng) (v : T) :
  random_choice seq g = Ok (v, g') -> In v seq.
Proof.
  unfold random_choice, bind, random_random.
  destruct (nth_error seq _) as [a|] eqn:E; [|discriminate].
  unfold ret. intros Heq. injection Heq as <- _.
  exact (nth_error_In _ _ E).
Qed.

Variable eqb : T -> T -> bool.

Lemma random_no_repeat_next_spec (items : list T) (last : option T) (g g' : Rng)
    (v : T) (st : option T) :
  length items <> 1%nat ->
  random_no_repeat_next eqb items last g = Ok ((v, st), g') ->
  st = Some v /\ In v items /\
  (forall l, last = Some l -> eqb v l = false).
Proof.
  intros Hlen Hnext. unfold random_no_repeat_next in Hnext.
  destruct last as [l|].
  - destruct (Nat.eqb_spec (length items) 1) as [H1|_]; [contradiction|].
    apply bind_Ok in Hnext as (v0 & g1 & Hchoice & Hret).
    apply ret_Ok in Hret as [Heq _]. injection Heq as <- <-.
    apply random_choice_In in Hchoice. apply filter_In in Hchoice as [Hin Hne].
    split; [reflexivity|]. split; [exact Hin|].
    intros l' Hl'. injection Hl' as <-. apply negb_true_iff. exact Hne.
  - apply bind_Ok in Hnext as (v0 & g1 & Hchoice & Hret).
    apply ret_Ok in Hret as [Heq _]. injection Heq as <- <-.
    split; [reflexivity|]. split; [exact (random_choice_In _ _ _ _ Hchoice)|].
    intros l Hl. discriminate.
Qed.

Lemma random_no_repeat_take_spec (items : list T) (n : nat) :
  forall (last : option T) (g g' : Rng) (vals : list T),
  length items <> 1%nat ->
  random_no_repeat_take eqb items n last g = Ok (vals, g') ->
  (forall v, In v vals -> In v items) /\
  (forall l v, last = Some l -> nth_error vals 0 = Some v -> eqb v l = false) /\
  (forall k a b, nth_error vals k = Some a -> nth_error vals (S k) = Some b ->
                 eqb b a = false).
Proof.
  induction n as [|n IH]; intros last g g' vals Hlen Htake.
  - simpl in Htake. apply ret_Ok in Htake as [-> _].
    split; [intros v []|]. split; [intros l v _ Hv; discriminate|].
    intros k a b Ha. destruct k; discriminate.
  - cbn [random_no_repeat_take] in Htake.
    apply bind_Ok in Htake as ([v st] & g1 & Hnext & Htake).
    apply bind_Ok in Htake as (rest & g2 & Hrest & Hret).
    apply ret_Ok in Hret as [-> _]. simpl in *.
    destruct (random_no_repeat_next_spec _ _ _ _ _ _ Hlen Hnext) as (-> & Hin & Hdiff).
    destruct (IH _ _ _ _ Hlen Hrest) as (Hall & Hfirst & Hadj).
    split; [intros w [<-|Hw]; [exact Hin|exact (Hall _ Hw)]|].
    split.
    + intros l w Hl Hw. injection Hw as <-. exact (Hdiff _ Hl).
    + intros k a b Ha Hb. destruct k as [|k].
      * simpl in Ha. injection Ha as <-. exact (Hfirst _ _ eq_refl Hb).
      * exact (Hadj _ _ _ Ha Hb).
Qed.

Lemma random_choice_total (seq : list T) (g : Rng) :
  seq <> [] ->
  (0 <= samples g (cursor g))%Q -> (samples g (cursor g) < 1)%Q ->
  exists v,
    random_choice seq g = Ok (v, {| samples := samples g; cursor := S (cursor g) |}) /\
    In v seq.
Proof.
  intros Hne Hlo Hhi. unfold random_choice, bind, random_random.
  set (u := samples g (cursor g)) in *.
  assert (0 < length seq)%nat as Hlen by (destruct seq; [contradiction|simpl; lia]).
  assert (0 < inject_Z (Z.of_nat (length seq)))%Q as Hn.
  { change 0%Q with (inject_Z 0). rewrite <- Zlt_Qlt. lia. }
  assert (0 <= u * inject_Z (Z.of_nat (length seq)))%Q as Hq by nra.
  assert (Z.to_nat (py_int (u * inject_Z (Z.of_nat (length seq)))) < length seq)%nat
    as Hidx.
  { rewrite (py_int_floor _ Hq).
    pose proof (Qfloor_le (u * inject_Z (Z.of_nat (length seq)))) as Hfl.
    assert (inject_Z (Qfloor (u * inject_Z (Z.of_nat (length seq)))) <
            inject_Z (Z.of_nat (length seq)))%Q as Hlt by nra.
    rewrite <- Zlt_Qlt in Hlt.
    pose proof (Qfloor_resp_le _ _ Hq) as H0. change (Qfloor 0) with 0%Z in H0.
    lia. }
  destruct (nth_error seq _) as [a|] eqn:E.
  - exists a. split; [reflexivity|exact (nth_error_In _ _ E)].
  - apply nth_error_None in E. lia.
Qed.

Lemma random_no_repeat_next_total (items : list T) (last : option T) (g : Rng) :
  (forall x y, eqb x y = true <-> x = y) ->
  (exists a b, In a items /\ In b items /\ a <> b) ->
  (forall i, 0 <= samples g i /\ samples g i < 1)%Q ->
  exists v,
    random_no_repeat_next eqb items last g =
      Ok ((v, Some v), {| samples := samples g; cursor := S (cursor g) |}).
Proof.
  intros Heqb (a & b & Ha & Hb & Hab) Hg.
  destruct (Hg (cursor g)) as [Hlo Hhi].
  unfold random_no_repeat_next. destruct last as [l|].
  - destruct (Nat.eqb_spec (length items) 1) as [H1|_].
    { destruct items as [|c [|d items]]; try discriminate.
      destruct Ha as [<-|[]]. destruct Hb as [<-|[]]. contradiction. }
    assert (List.filter (fun item => negb (eqb item l)) items <> []) as Hne.
    { assert (exists c, In c items /\ c <> l) as (c & Hc & Hcl).
      { destruct (eqb a l) eqn:Eal.
        - apply Heqb in Eal. subst l. exists b. split; [exact Hb|congruence].
        - exists a. split; [exact Ha|]. intros ->.
          assert (eqb l l = true) as Hll by (apply Heqb; reflexivity). congruence. }
      assert (In c (List.filter (fun item => negb (eqb item l)) items)) as Hin.
      { apply filter_In. split; [exact Hc|]. apply negb_true_iff.
        destruct (eqb c l) eqn:Ecl; [|reflexivity]. apply Heqb in Ecl. contradiction. }
      intros Hnil. rewrite Hnil in Hin. exact Hin. }
    destruct (random_choice_total _ g Hne Hlo Hhi) as (v & Hv & _).
    exists v. unfold bind. rewrite Hv. reflexivity.
  - assert (items <> []) as Hne by (intros ->; exact Ha).
    destruct (random_choice_total _ g Hne Hlo Hhi) as (v & Hv & _).
    exists v. unfold bind. rewrite Hv. reflexivity.
Qed.

Lemma random_no_repeat_take_total (items : list T) (n : nat) :
  (forall x y, eqb x y = true <-> x = y) ->
  (exists a b, In a items /\ In b items /\ a <> b) ->
  forall (last : option T) (g : Rng),
  (forall i, 0 <= samples g i /\ samples g i < 1)%Q ->
  exists vals,
    random_no_repeat_take eqb items n last g =
      Ok (vals, {| samples := samples g; cursor := (n + cursor g)%nat |}) /\
    length vals = n.
Proof.
  intros Heqb Htwo. induction n as [|n IH]; intros last g Hg.
  - exists []. split; [|reflexivity]. destruct g; reflexivity.
  - destruct (random_no_repeat_next_total items last g Heqb Htwo Hg) as (v & Hv).
    destruct (IH (Some v) {| samples := samples g; cursor := S (cursor g) |} Hg)
      as (rest & Hrest & Hlen).
    exists (v :: rest). split; [|simpl; congruence].
    cbn [random_no_repeat_take]. unfold bind at 1. rewrite Hv. cbn [snd fst].
    unfold bind at 1. rewrite Hrest. unfold ret. cbn [samples cursor].
    replace (n + S (cursor g))%nat with (S n + cursor g)%nat by lia. reflexivity.
Qed.

Lemma filter_repeat_same (x l : T) (m : nat) :
  eqb x l = true ->
  List.filter (fun item => negb (eqb item l)) (repeat x m) = [].
Proof.
  intros Hx. induction m as [|m IH]; [reflexivity|]. simpl. rewrite Hx. exact IH.
Qed.

(** X15: On a list with two different items, fed by a [random()] that stays in
    [0, 1), the generator never ends, yields only items of the list, and
    never yields the value it yielded just before.  On a list of two or more
    items that are all equal the second [next()] raises [IndexError]. *)
Theorem random_no_repeat_never_repeats (items : list T) (n : nat) (g : Rng) :
  (forall x y, eqb x y = true <-> x = y) ->
  (exists a b, In a items /\ In b items /\ a <> b) ->
  (forall i, 0 <= samples g i /\ samples g i < 1)%Q ->
  (exists vals g',
     random_no_repeat_take eqb items n None g = Ok (vals, g') /\
     length vals = n /\
     (forall v, In v vals -> In v items) /\
     (forall k a b, nth_error vals k = Some a -> nth_error vals (S k) = Some b ->
                    b <> a)) /\
  (forall x m, random_no_repeat_take eqb (repeat x (S (S m))) 2 None g =
               Raise IndexError).
Proof.
  intros Heqb Htwo Hg. split.
  - destruct (random_no_repeat_take_total items n Heqb Htwo None g Hg)
      as (vals & Htake & Hlen).
    assert (length items <> 1%nat) as Hne1.
    { destruct Htwo as (a & b & Ha & Hb & Hab).
      destruct items as [|c [|d items]]; try discriminate.
      destruct Ha as [<-|[]]. destruct Hb as [<-|[]]. contradiction. }
    destruct (random_no_repeat_take_spec items n None g _ vals Hne1 Htake)
      as (Hall & _ & Hadj).
    exists vals. eexists. split; [exact Htake|]. split; [exact Hlen|].
    split; [exact Hall|].
    intros k a b Ha Hb Hab. pose proof (Hadj k a b Ha Hb) as Hne.
    assert (eqb b a = true) as Heq by (apply Heqb; exact Hab). congruence.
  - intros x m. destruct (Hg (cursor g)) as [Hlo Hhi].
    assert (repeat x (S (S m)) <> []) as Hne by discriminate.
    destruct (random_choice_total _ g Hne Hlo Hhi) as (v & Hv & Hin).
    apply repeat_spec in Hin. subst v.
    cbn [random_no_repeat_take random_no_repeat_next].
    unfold bind at 1. unfold bind at 1. rewrite Hv. unfold ret at 1. cbn [snd fst].
    unfold bind at 1. unfold random_no_repeat_next.
    rewrite repeat_length. cbn [Nat.eqb].
    rewrite filter_repeat_same by (apply Heqb; reflexivity).
    unfold bind. rewrite random_choice_empty. reflexivity.
Qed.

End GeneratorProperties.

Section GeneratorExamples.
Import gnppygame.

Lemma cycle_through_items_nth_witness :
  [10; 20; 30]%Z <> [] /\
  exists vals,
    cycle_through_items_take [10; 20; 30]%Z 5 None = Ok vals /\
    length vals = 5%nat /\
    forall k, (k < 5)%nat ->
      nth_error vals k = nth_error [10; 20; 30]%Z (k mod length [10; 20; 30]%Z).
Proof.
  assert ([10; 20; 30]%Z <> []) as Hne by discriminate.
  split; [exact Hne|].
  exact (proj1 (cycle_through_items_nth [10; 20; 30]%Z 5 Hne)).
Defined.

Lemma random_no_repeat_never_repeats_witness :
  (forall x y, Z.eqb x y = true <-> x = y) /\
  (exists a b, In a [1; 2; 3]%Z /\ In b [1; 2; 3]%Z /\ a <> b) /\
  (forall i, 0 <= samples example_rng i /\ samples example_rng i < 1)%Q /\
  (exists vals g',
     random_no_repeat_take Z.eqb [1; 2; 3]%Z 3 None example_rng = Ok (vals, g') /\
     length vals = 3%nat /\
     (forall v, In v vals -> In v [1; 2; 3]%Z) /\
     (forall k a b, nth_error vals k = Some a -> nth_error vals (S k) = Some b ->
                    b <> a)) /\
  (forall x m, random_no_repeat_take Z.eqb (repeat x (S (S m))) 2 None example_rng =
               Raise IndexError).
Proof.
  assert (forall x y, Z.eqb x y = true <-> x = y) as Heqb by exact Z.eqb_eq.
  assert (exists a b, In a [1; 2; 3]%Z /\ In b [1; 2; 3]%Z /\ a <> b) as Htwo
    by (exists 1%Z, 2%Z; simpl; split; [tauto|split; [tauto|discriminate]]).
  assert (forall i, 0 <= samples example_rng i /\ samples example_rng i < 1)%Q as Hg
    by (intros i; simpl; split; [discriminate|reflexivity]).
  split; [exact Heqb|]. split; [exact Htwo|]. split; [exact Hg|].
  exact (random_no_repeat_never_repeats Z.eqb [1; 2; 3]%Z 3 example_rng Heqb Htwo Hg).
Defined.

End GeneratorExamples.

(** ** gnppygame: TimerManager *)

Section TimerManagerProperties.
Import gnppygame.
Local Open Scope Q_scope.

Lemma timer_eqb_refl (t : Q * nat) : TimerManager.timer_eqb t t = true.
Proof.
  unfold TimerManager.timer_eqb. apply andb_true_iff. split.
  - apply Qeq_bool_iff. reflexivity.
  - apply Nat.eqb_refl.
Qed.

(** Equal timers expire together. *)
Lemma timer_eqb_expired (elapsed : Q) (t1 t2 : Q * nat) :
  TimerManager.timer_eqb t1 t2 = true ->
  Qltb (fst t1) elapsed = Qltb (fst t2) elapsed.
Proof.
  unfold TimerManager.timer_eqb. intros Heq. apply andb_true_iff in Heq as [Heq _].
  apply Qeq_bool_iff in Heq. unfold Qltb. f_equal. apply Qleb_comp; [reflexivity|exact Heq].
Qed.

Lemma fire_loop_spec (elapsed : Q) (todo : list (Q * nat)) :
  forall called dels,
  TimerManager.fire_loop elapsed todo called dels =
    (called ++ map snd (List.filter (fun t => Qltb (fst t) elapsed) todo),
     dels ++ List.filter (fun t => Qltb (fst t) elapsed) todo).
Proof.
  induction todo as [|t todo IH]; intros called dels; simpl.
  - rewrite !app_nil_r. reflexivity.
  - destruct (Qltb (fst t) elapsed); [|apply IH].
    rewrite IH. simpl. rewrite <- !app_assoc. reflexivity.
Qed.

Lemma py_remove_first_expired (elapsed : Q) (kept : list (Q * nat)) (t : Q * nat)
    (rest : list (Q * nat)) :
  Forall (fun k => Qltb (fst k) elapsed = false) kept ->
  Qltb (fst t) elapsed = true ->
  py_remove TimerManager.timer_eqb t (kept ++ t :: rest) = Ok (kept ++ rest).
Proof.
  intros Hkept Ht. induction Hkept as [|k kept Hk _ IH]; simpl.
  - rewrite timer_eqb_refl. reflexivity.
  - destruct (TimerManager.timer_eqb t k) eqn:E.
    + apply (timer_eqb_expired elapsed) in E. congruence.
    + rewrite IH. reflexivity.
Qed.

Lemma delete_loop_spec (elapsed : Q) (timers : list (Q * nat)) :
  forall kept,
  Forall (fun k => Qltb (fst k) elapsed = false) kept ->
  TimerManager.delete_loop
    (List.filter (fun t => Qltb (fst t) elapsed) timers) (kept ++ timers) =
  Ok (kept ++ List.filter (fun t => negb (Qltb (fst t) elapsed)) timers).
Proof.
  induction timers as [|t timers IH]; intros kept Hkept; simpl.
  - reflexivity.
  - destruct (Qltb (fst t) elapsed) eqn:Ht; simpl.
    + rewrite (py_remove_first_expired elapsed kept t timers Hkept Ht). simpl.
      apply IH. exact Hkept.
    + replace (kept ++ t :: timers) with ((kept ++ [t]) ++ timers)
        by (rewrite <- app_assoc; reflexivity).
      rewrite IH.
      * rewrite <- app_assoc. reflexivity.
      * apply Forall_app. split; [exact Hkept|]. constructor; [exact Ht|constructor].
Qed.

(** X16: [TimerManager.step] never raises.  It calls, in registration order, the
    callbacks of exactly the timers whose trigger time is strictly below the
    new elapsed time, and keeps the other timers, in order; a timer whose
    trigger time equals the elapsed time waits for a later step. *)
Theorem TimerManager_step_fires_expired (time_delta : Q) (self : TimerManager.t)
    (called : list nat) :
  let elapsed := TimerManager._elapsed_seconds self + time_delta in
  let expired := fun t : Q * nat => Qltb (fst t) elapsed in
  TimerManager.step time_delta self called =
    Ok ({| TimerManager._elapsed_seconds := elapsed;
           TimerManager._timers :=
             List.filter (fun t => negb (expired t)) (TimerManager._timers self) |},
        called ++ map snd (List.filter expired (TimerManager._timers self))).
Proof.
  intros elapsed expired. unfold TimerManager.step. fold elapsed.
  rewrite fire_loop_spec. simpl.
  pose proof (delete_loop_spec elapsed (TimerManager._timers self) [] ltac:(constructor))
    as Hdel.
  simpl in Hdel. rewrite Hdel. reflexivity.
Qed.

End TimerManagerProperties.

(** ** gnppygame: ScreenFader and the prototype particle system *)

Section ScreenFaderProperties.
Import gnppygame.
Local Open Scope Q_scope.

Lemma Clamp_unit (u : Q) :
  0 <= gnipMath.Clamp Qltb u 0 1 /\ gnipMath.Clamp Qltb u 0 1 <= 1 /\
  (1 <= u -> gnipMath.Clamp Qltb u 0 1 == 1) /\
  (u <= 0 -> gnipMath.Clamp Qltb u 0 1 == 0).
Proof.
  unfold gnipMath.Clamp.
  destruct (Qltb u 0) eqn:E0.
  - apply Qltb_true in E0. repeat split; lra.
  - apply Qltb_false in E0. destruct (Qltb 1 u) eqn:E1.
    + apply Qltb_true in E1. repeat split; lra.
    + apply Qltb_false in E1. repeat split; lra.
Qed.

(** X17: For a fader of positive length, [step] never raises, the alpha it sets
    lies between the start and the end alpha, it is the start alpha while no
    time has elapsed, and it is the end alpha as soon as [can_reap] holds. *)
Theorem ScreenFader_alpha_range (time_delta : Q) (f : ScreenFader.t) :
  0 < ScreenFader._length f ->
  exists f',
    ScreenFader.step time_delta f = Ok f' /\
    ScreenFader._elapsed_time f' = ScreenFader._elapsed_time f + time_delta /\
    ((ScreenFader._start_alpha f <= ScreenFader._end_alpha f)%Z ->
       inject_Z (ScreenFader._start_alpha f) <= ScreenFader._alpha f' /\
       ScreenFader._alpha f' <= inject_Z (ScreenFader._end_alpha f)) /\
    ((ScreenFader._end_alpha f <= ScreenFader._start_alpha f)%Z ->
       inject_Z (ScreenFader._end_alpha f) <= ScreenFader._alpha f' /\
       ScreenFader._alpha f' <= inject_Z (ScreenFader._start_alpha f)) /\
    (ScreenFader._elapsed_time f + time_delta <= 0 ->
       ScreenFader._alpha f' == inject_Z (ScreenFader._start_alpha f)) /\
    (ScreenFader.can_reap f' = true ->
       ScreenFader._alpha f' == inject_Z (ScreenFader._end_alpha f)).
Proof.
  intros Hlen. unfold ScreenFader.step, py_truediv.
  destruct (Qeq_bool (ScreenFader._length f) 0) eqn:E.
  { apply Qeq_bool_iff in E. lra. }
  simpl. eexists. split; [reflexivity|]. simpl. split; [reflexivity|].
  set (ratio := (ScreenFader._elapsed_time f + time_delta) / ScreenFader._length f).
  destruct (Clamp_unit ratio) as (Hu0 & Hu1 & Hone & Hzero).
  set (u := gnipMath.Clamp Qltb ratio 0 1) in *.
  set (sa := inject_Z (ScreenFader._start_alpha f)).
  set (ea := inject_Z (ScreenFader._end_alpha f)).
  unfold gnipMath.LinInterp.
  split; [|split; [|split]].
  - intros Hz. rewrite Zle_Qle in Hz. fold sa ea in Hz. split; nra.
  - intros Hz. rewrite Zle_Qle in Hz. fold sa ea in Hz. split; nra.
  - intros Hel. assert (ratio <= 0) as Hr.
    { subst ratio. apply Qle_shift_div_r; [exact Hlen|]. lra. }
    rewrite (Hzero Hr). ring.
  - unfold ScreenFader.can_reap. simpl. intros Hreap. apply Qle_bool_iff in Hreap.
    assert (1 <= ratio) as Hr.
    { subst ratio. apply Qle_shift_div_l; [exact Hlen|]. lra. }
    rewrite (Hone Hr). ring.
Qed.

Lemma ScreenFader_alpha_range_witness :
  0 < ScreenFader._length (ScreenFader.mk PyNone 2 0 255 0 0) /\
  exists f',
    ScreenFader.step (1 # 2) (ScreenFader.mk PyNone 2 0 255 0 0) = Ok f' /\
    ScreenFader._elapsed_time f' = 0 + (1 # 2).
Proof.
  assert (0 < ScreenFader._length (ScreenFader.mk PyNone 2 0 255 0 0)) as Hlen
    by reflexivity.
  split; [exact Hlen|].
  destruct (ScreenFader_alpha_range (1 # 2) (ScreenFader.mk PyNone 2 0 255 0 0) Hlen)
    as (f' & Hstep & Hel & _).
  exists f'. split; [exact Hstep | exact Hel].
Defined.

(** X18: The constructor accepts a length of zero; such a fader is reapable from
    the start, and every [step] on it raises [ZeroDivisionError]. *)
Theorem ScreenFader_zero_length (color : PyObj) (start_alpha end_alpha : Z) :
  (0 <= start_alpha <= 255)%Z -> (0 <= end_alpha <= 255)%Z ->
  exists f,
    ScreenFader.init color 0 start_alpha end_alpha = Ok f /\
    ScreenFader.can_reap f = true /\
    forall time_delta, ScreenFader.step time_delta f = Raise ZeroDivisionError.
Proof.
  intros Hs He. unfold ScreenFader.init, py_assert.
  assert ((0 <=? start_alpha)%Z && (start_alpha <=? 255)%Z = true) as E1
    by (apply andb_true_iff; split; apply Z.leb_le; lia).
  assert ((0 <=? end_alpha)%Z && (end_alpha <=? 255)%Z = true) as E2
    by (apply andb_true_iff; split; apply Z.leb_le; lia).
  rewrite E1, E2. simpl. eexists. split; [reflexivity|]. split; [reflexivity|].
  intros time_delta. reflexivity.
Qed.

Lemma ScreenFader_zero_length_witness :
  (0 <= 0 <= 255)%Z /\ (0 <= 255 <= 255)%Z /\
  exists f,
    ScreenFader.init PyNone 0 0 255 = Ok f /\
    ScreenFader.can_reap f = true /\
    forall time_delta, ScreenFader.step time_delta f = Raise ZeroDivisionError.
Proof.
  assert (0 <= 0 <= 255)%Z as Hs by lia.
  assert (0 <= 255 <= 255)%Z as He by lia.
  split; [exact Hs|]. split; [exact He|].
  exact (ScreenFader_zero_length PyNone 0 255 Hs He).
Defined.

End ScreenFaderProperties.

Section ParticleSystemProtoProperties.
Import gnppygame.
Context `{gnipMath.Math}.


End ParticleSystemProtoProperties.

Section ParticleSystemProtoSteps.
Import gnppygame.




End ParticleSystemProtoSteps.

Section ParticleSystemProtoLifetime.
Import gnppygame.
Context `{gnipMath.Math}.


End ParticleSystemProtoLifetime.

Section ParticleSystemProtoExample.
Import gnppygame.


End ParticleSystemProtoExample.

(** ** gnppygame: more on ActorList *)

Section ActorListMore.
Import gnppygame.
Context {A S : Type} `{Actor A S}.

Lemma step_loop_domain (dt : Q) (todo : list ref) :
  forall (h : gmap nat A) (s : S) (dead stepped : list ref)
         (h' : gmap nat A) (s' : S) (dead' stepped' : list ref),
  step_loop dt todo h s dead stepped = Ok (h', s', dead', stepped') ->
  (forall r, is_Some (h !! r) -> is_Some (h' !! r)) /\
  (forall r, r ∈ todo -> is_Some (h' !! r)).
Proof.
  induction todo as [|r0 todo IH]; intros h s dead stepped h' s' dead' stepped' Hrun.
  - simpl in Hrun. injection Hrun as <- <- <- <-. split; [tauto|].
    intros r Hr. apply elem_of_nil in Hr. contradiction.
  - simpl in Hrun. destruct (h !! r0) as [a0|] eqn:Hh0; [|discriminate].
    apply exn_bind_Ok in Hrun as ([a1 s1] & Hstep & Hrun). simpl in Hrun.
    destruct (IH _ _ _ _ _ _ _ _ Hrun) as [Hkeep Hin].
    assert (forall r, is_Some (h !! r) -> is_Some (h' !! r)) as Hkeep'.
    { intros r Hr. apply Hkeep. destruct (Nat.eq_dec r0 r) as [->|Hne].
      - rewrite lookup_insert_eq. eexists. reflexivity.
      - rewrite lookup_insert_ne by exact Hne. exact Hr. }
    split; [exact Hkeep'|].
    intros r Hr. apply elem_of_cons in Hr as [->|Hr]; [|exact (Hin _ Hr)].
    apply Hkeep'. exists a0. exact Hh0.
Qed.

(** [actors_to_delete] lists, in order, the actors that are reapable after
    their step. *)
Lemma step_loop_dead (dt : Q) (todo : list ref) :
  forall (h : gmap nat A) (s : S) (dead stepped : list ref)
         (h' : gmap nat A) (s' : S) (dead' stepped' : list ref),
  NoDup todo ->
  step_loop dt todo h s dead stepped = Ok (h', s', dead', stepped') ->
  dead' = dead ++ List.filter (reapable_in h') todo.
Proof.
  induction todo as [|r0 todo IH]; intros h s dead stepped h' s' dead' stepped' Hnd Hrun.
  - simpl in Hrun. injection Hrun as <- <- <- <-. simpl. symmetry. apply app_nil_r.
  - pose proof Hnd as Hnd0. apply NoDup_cons in Hnd as [Hr0 Hnd].
    simpl in Hrun. destruct (h !! r0) as [a0|] eqn:Hh0; [|discriminate].
    apply exn_bind_Ok in Hrun as ([a1 s1] & Hstep & Hrun). simpl in Hrun.
    destruct (step_loop_spec _ _ _ _ _ _ _ _ _ _ Hnd Hrun) as (_ & Hframe & _ & _).
    assert (h' !! r0 = Some a1) as Hh'0
      by (rewrite (Hframe _ Hr0); apply lookup_insert_eq).
    rewrite (IH _ _ _ _ _ _ _ _ Hnd Hrun). simpl.
    unfold reapable_in at 2. rewrite Hh'0.
    destruct (actor_can_reap a1); [rewrite <- app_assoc|]; reflexivity.
Qed.

Lemma list_remove_after_prefix (x : ref) (kept rest : list ref) :
  x ∉ kept -> list_remove x (kept ++ x :: rest) = Ok (kept ++ rest).
Proof.
  induction kept as [|k kept IH]; intros Hx; simpl.
  - rewrite Nat.eqb_refl. reflexivity.
  - apply not_elem_of_cons in Hx as [Hne Hx].
    destruct (Nat.eqb_spec x k) as [->|_]; [contradiction|].
    rewrite (IH Hx). reflexivity.
Qed.

(** Removing the members of a list that satisfy [P], in order, from that list
    succeeds and leaves the other members in order. *)
Lemma remove_loop_filter (P : ref -> bool) (l : list ref) :
  forall kept,
  NoDup (kept ++ l) ->
  remove_loop (List.filter P l) (kept ++ l) =
    Ok (kept ++ List.filter (fun r => negb (P r)) l).
Proof.
  induction l as [|x l IH]; intros kept Hnd.
  - reflexivity.
  - cbn [List.filter]. destruct (P x) eqn:Hx; cbn [negb remove_loop].
    + assert (x ∉ kept) as Hnot.
      { apply NoDup_app in Hnd as (_ & Hdisj & _). intros Hin.
        apply (Hdisj x Hin). apply elem_of_cons. left. reflexivity. }
      rewrite (list_remove_after_prefix x kept l Hnot). cbn [exn_bind]. apply IH.
      apply NoDup_app in Hnd as (Hk & Hdisj & Hl). apply NoDup_cons in Hl as [_ Hl].
      apply NoDup_app. split; [exact Hk|]. split; [|exact Hl].
      intros y Hy Hyl. apply (Hdisj y Hy). apply elem_of_cons. right. exact Hyl.
    + replace (kept ++ x :: l) with ((kept ++ [x]) ++ l)
        by (rewrite <- app_assoc; reflexivity).
      rewrite IH.
      * rewrite <- app_assoc. reflexivity.
      * rewrite <- app_assoc. exact Hnd.
Qed.

Lemma step_loop_total (dt : Q) (todo : list ref) :
  forall (h : gmap nat A) (s : S) (dead stepped : list ref),
  NoDup todo ->
  (forall r, r ∈ todo ->
     exists a, h !! r = Some a /\ forall s0, exists a' s1, actor_step dt a s0 = Ok (a', s1)) ->
  exists res, step_loop dt todo h s dead stepped = Ok res.
Proof.
  induction todo as [|r0 todo IH]; intros h s dead stepped Hnd Hok.
  - eexists. reflexivity.
  - apply NoDup_cons in Hnd as [Hr0 Hnd].
    destruct (Hok r0 ltac:(apply elem_of_cons; left; reflexivity)) as (a0 & Hh0 & Hstep).
    destruct (Hstep s) as (a1 & s1 & Hs). simpl. rewrite Hh0, Hs. simpl.
    apply IH; [exact Hnd|].
    intros r Hr. destruct (Hok r ltac:(apply elem_of_cons; right; exact Hr))
      as (a & Ha & Hsa).
    exists a. split; [|exact Hsa]. rewrite lookup_insert_ne; [exact Ha|].
    intros ->. contradiction.
Qed.

Lemma step_survivors (dt : Q) (al al' : ActorList A) (s s' : S) (stepped : list ref) :
  NoDup (items al) ->
  step dt al s = Ok (al', s', stepped) ->
  items al' = List.filter (fun r => negb (reapable_in (heap al') r)) (items al) /\
  (forall r, r ∈ items al -> is_Some (heap al' !! r)).
Proof.
  intros Hnd Hstep. unfold step in Hstep.
  apply exn_bind_Ok in Hstep as ([[[h1 s1] dead] stepped1] & Hloop & Hrest).
  apply exn_bind_Ok in Hrest as (l & Hrm & Hok). injection Hok as <- <- <-.
  pose proof (step_loop_dead _ _ _ _ _ _ _ _ _ _ Hnd Hloop) as Hdead. simpl in Hdead.
  destruct (step_loop_domain _ _ _ _ _ _ _ _ _ _ Hloop) as [_ Hdom].
  subst dead.
  pose proof (remove_loop_filter (reapable_in h1) (items al) [] Hnd) as Hfilter.
  simpl in Hfilter. rewrite Hfilter in Hrm. injection Hrm as <-.
  simpl. split; [reflexivity|exact Hdom].
Qed.

(** X20: After [step] on a list that holds no actor twice, the list holds exactly
    the actors that are not reapable, in their former order. *)
Theorem ActorList_step_keeps_order (dt : Q) (al al' : ActorList A) (s s' : S)
    (stepped : list ref) :
  NoDup (items al) ->
  step dt al s = Ok (al', s', stepped) ->
  items al' = List.filter (fun r => negb (reapable_in (heap al') r)) (items al).
Proof.
  intros Hnd Hstep. exact (proj1 (step_survivors dt al al' s s' stepped Hnd Hstep)).
Qed.

Lemma step_total (dt : Q) (al : ActorList A) (s : S) :
  NoDup (items al) ->
  (forall r, r ∈ items al ->
     exists a, heap al !! r = Some a /\
               forall s0, exists a' s1, actor_step dt a s0 = Ok (a', s1)) ->
  exists al' s', step dt al s = Ok (al', s', items al).
Proof.
  intros Hnd Hok.
  destruct (step_loop_total dt (items al) (heap al) s [] [] Hnd Hok)
    as ([[[h1 s1] dead] stepped1] & Hloop).
  pose proof (step_loop_dead _ _ _ _ _ _ _ _ _ _ Hnd Hloop) as Hdead. simpl in Hdead.
  destruct (step_loop_spec _ _ _ _ _ _ _ _ _ _ Hnd Hloop) as (Hst & _).
  simpl in Hst. subst dead stepped1.
  pose proof (remove_loop_filter (reapable_in h1) (items al) [] Hnd) as Hfilter.
  simpl in Hfilter.
  unfold step. rewrite Hloop. simpl. rewrite Hfilter. simpl.
  eexists. eexists. reflexivity.
Qed.

(** X21: [step] on a list that holds no actor twice raises only if the [step] of
    one of its actors raises: the removal of the reaped actors never fails. *)
Theorem ActorList_step_total (dt : Q) (al : ActorList A) (s : S) :
  NoDup (items al) ->
  (forall r, r ∈ items al ->
     exists a, heap al !! r = Some a /\
               forall s0, exists a' s1, actor_step dt a s0 = Ok (a', s1)) ->
  exists al' s', step dt al s = Ok (al', s', items al).
Proof. exact (step_total dt al s). Qed.

End ActorListMore.

Section ActorListMoreExamples.
Import gnppygame gnpparticle.

Lemma ActorList_step_keeps_order_witness :
  NoDup (items example_list) /\
  step 1 example_list tt = Ok (example_list_stepped, tt, [0%nat]) /\
  items example_list_stepped =
    List.filter (fun r => negb (reapable_in (heap example_list_stepped) r))
      (items example_list).
Proof.
  assert (NoDup (items example_list)) as Hnd by (apply NoDup_singleton).
  pose proof example_list_step as Hstep.
  split; [exact Hnd|]. split; [exact Hstep|].
  exact (ActorList_step_keeps_order 1 example_list example_list_stepped tt tt [0%nat]
           Hnd Hstep).
Defined.

Lemma ActorList_step_total_witness :
  NoDup (items example_list) /\
  exists al' s', step 1 example_list tt = Ok (al', s', items example_list).
Proof.
  assert (NoDup (items example_list)) as Hnd by (apply NoDup_singleton).
  assert (forall r, r ∈ items example_list ->
            exists a, heap example_list !! r = Some a /\
                      forall s0 : unit, exists a' s1, actor_step 1 a s0 = Ok (a', s1))
    as Hok.
  { intros r Hr. apply list_elem_of_singleton in Hr. subst r.
    exists example_particle. split; [reflexivity|].
    intros s0. eexists. eexists. vm_compute. reflexivity. }
  split; [exact Hnd|].
  exact (ActorList_step_total 1 example_list tt Hnd Hok).
Defined.

End ActorListMoreExamples.

(** ** gnpactor *)

Section DotProperties.
Import gnipMath gnppygame gnpactor.
Local Open Scope Q_scope.

Lemma reap_loop_Dots (todo : list ref) :
  forall h : gmap nat Dot.t,
  (forall r, r ∈ todo -> is_Some (h !! r)) ->
  exists h',
    reap_loop todo h = Ok h' /\
    (forall r, is_Some (h !! r) -> is_Some (h' !! r)) /\
    (forall r d, h !! r = Some d -> Dot.can_reap d = true ->
       exists d', h' !! r = Some d' /\ Dot.can_reap d' = true) /\
    (forall r, r ∈ todo -> exists d, h' !! r = Some d /\ Dot.can_reap d = true).
Proof.
  induction todo as [|r0 todo IH]; intros h Hdom.
  - exists h. split; [reflexivity|]. split; [tauto|]. split.
    + intros r d Hd Hreap. exists d. split; assumption.
    + intros r Hr. apply elem_of_nil in Hr. contradiction.
  - destruct (Hdom r0 ltac:(apply elem_of_cons; left; reflexivity)) as [d0 Hd0].
    set (h1 := <[r0 := Dot.reap d0]> h).
    assert (forall r, is_Some (h !! r) -> is_Some (h1 !! r)) as Hdom1.
    { intros r Hr. subst h1. destruct (Nat.eq_dec r0 r) as [->|Hne].
      - rewrite lookup_insert_eq. eexists. reflexivity.
      - rewrite lookup_insert_ne by exact Hne. exact Hr. }
    destruct (IH h1 ltac:(intros r Hr; apply Hdom1, Hdom, elem_of_cons; right; exact Hr))
      as (h' & Hrun & Hkeep & Hstay & Hall).
    assert (forall r d, h !! r = Some d -> Dot.can_reap d = true ->
              exists d', h' !! r = Some d' /\ Dot.can_reap d' = true) as Hstay'.
    { intros r d Hd Hreap. destruct (Nat.eq_dec r0 r) as [->|Hne].
      - apply (Hstay r (Dot.reap d0)); [subst h1; apply lookup_insert_eq|reflexivity].
      - apply (Hstay r d); [|exact Hreap]. subst h1.
        rewrite lookup_insert_ne by exact Hne. exact Hd. }
    exists h'. split; [simpl; rewrite Hd0; simpl; exact Hrun|].
    split; [intros r Hr; apply Hkeep, Hdom1, Hr|]. split; [exact Hstay'|].
    intros r Hr. apply elem_of_cons in Hr as [->|Hr]; [|exact (Hall _ Hr)].
    apply (Hstay r0 (Dot.reap d0)); [subst h1; apply lookup_insert_eq|reflexivity].
Qed.

(** X22: [reap] on a list of [Dot] actors never raises: it leaves every listed
    actor reapable and empties the list. *)
Theorem ActorList_reap_Dots (al : ActorList Dot.t) :
  (forall r, r ∈ items al -> is_Some (heap al !! r)) ->
  exists al',
    reap al = Ok al' /\
    items al' = [] /\
    (forall r, r ∈ items al -> exists d, heap al' !! r = Some d /\ Dot.can_reap d = true).
Proof.
  intros Hdom. destruct (reap_loop_Dots (items al) (heap al) Hdom)
    as (h' & Hrun & _ & _ & Hall).
  unfold reap. rewrite Hrun. simpl. eexists. split; [reflexivity|].
  split; [reflexivity|exact Hall].
Qed.

Lemma ActorList_reap_Dots_witness :
  (forall r, r ∈ items (append_new (example_dot 3) ActorList_init) ->
     is_Some (heap (append_new (example_dot 3) ActorList_init) !! r)) /\
  exists al',
    reap (append_new (example_dot 3) ActorList_init) = Ok al' /\
    items al' = [] /\
    (forall r, r ∈ items (append_new (example_dot 3) ActorList_init) ->
       exists d, heap al' !! r = Some d /\ Dot.can_reap d = true).
Proof.
  assert (forall r, r ∈ items (append_new (example_dot 3) ActorList_init) ->
            is_Some (heap (append_new (example_dot 3) ActorList_init) !! r)) as Hdom.
  { intros r Hr. apply list_elem_of_singleton in Hr. subst r.
    exists (example_dot 3). reflexivity. }
  split; [exact Hdom|].
  exact (ActorList_reap_Dots _ Hdom).
Defined.

(** X23: An actor that is in the list twice is stepped twice by one [step].  When
    it becomes reapable at its second step only, it is removed once: it stays
    in the list, reapable, and is drawn by the next [draw]. *)
Theorem ActorList_duplicate_survives (dt : Q) (al : ActorList Dot.t) (r : ref)
    (d : Dot.t) :
  items al = [r; r] ->
  heap al !! r = Some d ->
  Dot.can_reap (Dot.step dt d) = false ->
  Dot.can_reap (Dot.step dt (Dot.step dt d)) = true ->
  exists al',
    step dt al tt = Ok (al', tt, [r; r]) /\
    items al' = [r] /\
    heap al' !! r = Some (Dot.step dt (Dot.step dt d)) /\
    forall surface, exists surface', draw al' surface = Ok (surface', [r]).
Proof.
  intros Hitems Hd Halive Hdead.
  unfold step. rewrite Hitems. cbn [step_loop]. rewrite Hd.
  cbn [actor_step Dot_Actor exn_bind fst snd actor_can_reap]. rewrite Halive.
  rewrite lookup_insert_eq.
  cbn [actor_step Dot_Actor exn_bind fst snd actor_can_reap]. rewrite Hdead.
  cbn [app remove_loop list_remove]. rewrite Nat.eqb_refl. cbn [exn_bind].
  eexists. split; [reflexivity|]. cbn [items heap]. split; [reflexivity|].
  split; [apply lookup_insert_eq|].
  intros surface. unfold draw. cbn [items heap draw_loop]. rewrite lookup_insert_eq.
  cbn [actor_draw Dot_Actor exn_bind draw_loop app]. eexists. reflexivity.
Qed.

Lemma ActorList_duplicate_survives_witness :
  items (append 0%nat (append_new (example_dot 2) ActorList_init)) = [0%nat; 0%nat] /\
  heap (append 0%nat (append_new (example_dot 2) ActorList_init)) !! 0%nat =
    Some (example_dot 2) /\
  Dot.can_reap (Dot.step 1 (example_dot 2)) = false /\
  Dot.can_reap (Dot.step 1 (Dot.step 1 (example_dot 2))) = true /\
  exists al',
    step 1 (append 0%nat (append_new (example_dot 2) ActorList_init)) tt =
      Ok (al', tt, [0%nat; 0%nat]) /\
    items al' = [0%nat] /\
    heap al' !! 0%nat = Some (Dot.step 1 (Dot.step 1 (example_dot 2))) /\
    forall surface, exists surface', draw al' surface = Ok (surface', [0%nat]).
Proof.
  assert (items (append 0%nat (append_new (example_dot 2) ActorList_init)) =
            [0%nat; 0%nat]) as Hitems by reflexivity.
  assert (heap (append 0%nat (append_new (example_dot 2) ActorList_init)) !! 0%nat =
            Some (example_dot 2)) as Hd by reflexivity.
  assert (Dot.can_reap (Dot.step 1 (example_dot 2)) = false) as Halive by reflexivity.
  assert (Dot.can_reap (Dot.step 1 (Dot.step 1 (example_dot 2))) = true) as Hdead
    by reflexivity.
  split; [exact Hitems|]. split; [exact Hd|]. split; [exact Halive|].
  split; [exact Hdead|].
  exact (ActorList_duplicate_survives 1 _ 0%nat (example_dot 2) Hitems Hd Halive Hdead).
Defined.

(** X24: The radius of a [GrowingCircle] is linear in the time stepped: after
    frames that sum to [T] it is
    [starting_radius + (ending_radius - starting_radius) * T / lifetime], and
    the remaining lifetime is [lifetime - T] (it is not clamped at zero). *)
Theorem GrowingCircle_radius_linear (position : cVector2)
    (starting_radius ending_radius lifetime : Q) (color : PyObj) (dts : list Q) :
  ~ lifetime == 0 ->
  exists c,
    GrowingCircle.run_frames dts
      (GrowingCircle.init position starting_radius ending_radius color lifetime) = Ok c /\
    GrowingCircle.lifetime_remaining c == lifetime - gnpparticle.sumQ dts /\
    GrowingCircle._radius c ==
      starting_radius +
      (ending_radius - starting_radius) * (gnpparticle.sumQ dts / lifetime).
Proof.
  intros Hne.
  assert (forall dts c0,
            GrowingCircle._total_lifetime c0 = lifetime ->
            GrowingCircle._starting_radius c0 = starting_radius ->
            GrowingCircle._ending_radius c0 = ending_radius ->
            GrowingCircle._radius c0 ==
              starting_radius + (ending_radius - starting_radius) *
                ((lifetime - GrowingCircle.lifetime_remaining c0) / lifetime) ->
            exists c,
              GrowingCircle.run_frames dts c0 = Ok c /\
              GrowingCircle.lifetime_remaining c ==
                GrowingCircle.lifetime_remaining c0 - gnpparticle.sumQ dts /\
              GrowingCircle._radius c ==
                starting_radius + (ending_radius - starting_radius) *
                  ((lifetime - GrowingCircle.lifetime_remaining c) / lifetime)) as Hgen.
  { clear dts. induction dts as [|dt dts IH]; intros c0 Htot Hsr Her Hrad.
    - exists c0. split; [reflexivity|]. split; [|exact Hrad].
      unfold gnpparticle.sumQ. simpl. ring.
    - cbn [GrowingCircle.run_frames]. unfold GrowingCircle.step, py_truediv.
      rewrite Htot. destruct (Qeq_bool lifetime 0) eqn:E.
      { apply Qeq_bool_iff in E. contradiction. }
      cbn [exn_bind].
      match goal with
      | |- context [GrowingCircle.run_frames dts ?c1] =>
          destruct (IH c1) as (c & Hrun & Hlife & Hradius)
      end.
      + cbn. first [reflexivity | exact Htot].
      + cbn. first [reflexivity | exact Hsr].
      + cbn. first [reflexivity | exact Her].
      + cbn [GrowingCircle._radius GrowingCircle.lifetime_remaining].
        rewrite ?Hsr, ?Her. unfold Lerp, LinInterp. field. exact Hne.
      + exists c. split; [exact Hrun|]. split; [|exact Hradius].
        rewrite Hlife. cbn [GrowingCircle.lifetime_remaining].
        unfold gnpparticle.sumQ. simpl. ring. }
  destruct (Hgen dts (GrowingCircle.init position starting_radius ending_radius color
                        lifetime))
    as (c & Hrun & Hlife & Hrad); try reflexivity.
  - simpl. field. exact Hne.
  - simpl in Hlife. exists c. split; [exact Hrun|]. split; [exact Hlife|].
    rewrite Hrad, Hlife. field. exact Hne.
Qed.

Lemma GrowingCircle_radius_linear_witness :
  ~ 2 == 0 /\
  exists c,
    GrowingCircle.run_frames [1 # 2; 1 # 2]
      (GrowingCircle.init (mk_cVector2 0 0) 10 30 PyNone 2) = Ok c /\
    GrowingCircle.lifetime_remaining c == 2 - gnpparticle.sumQ [1 # 2; 1 # 2] /\
    GrowingCircle._radius c ==
      10 + (30 - 10) * (gnpparticle.sumQ [1 # 2; 1 # 2] / 2).
Proof.
  assert (~ 2 == 0) as Hne by discriminate.
  split; [exact Hne|].
  exact (GrowingCircle_radius_linear (mk_cVector2 0 0) 10 30 2 PyNone [1 # 2; 1 # 2] Hne).
Defined.

End DotProperties.

(** ** gnpparticle: more on rates, fields and the emitter *)

Section RateLifetimeProperties.
Import gnipMath gnppygame gnpparticle.
Local Open Scope Q_scope.







End RateLifetimeProperties.

Section EmitterMore.
Import gnipMath gnppygame gnpparticle.
Context `{Math}.

Lemma apply_field_keeps (dt : Q) (e1 e2 : Emitter.t) (g1 g2 : Rng) :
  Emitter.apply_field dt e1 g1 = Ok (e2, g2) ->
  Emitter._rate_obj e2 = Emitter._rate_obj e1 /\
  Emitter._can_emit e2 = Emitter._can_emit e1.
Proof.
  unfold Emitter.apply_field. destruct (Emitter._field_obj e1) as [field|].
  - intros Hrun. apply bind_Ok in Hrun as (h & g3 & _ & Hret).
    apply ret_Ok in Hret as [-> _]. split; reflexivity.
  - intros Hret. apply ret_Ok in Hret as [-> _]. split; reflexivity.
Qed.

(** X26: While the emitter is stopped, or once its rate is complete, [step] does
    not ask the rate policy anything and creates no particle: the rate
    object and the allocator are unchanged and the list only shrinks. *)
Theorem Emitter_step_without_emission (dt : Q) (e e' : Emitter.t) (g g' : Rng) :
  Emitter._can_emit e = false \/ is_complete (Emitter._rate_obj e) = true ->
  Emitter.step dt e g = Ok (e', g') ->
  Emitter._rate_obj e' = Emitter._rate_obj e /\
  next_ref (Emitter._particles e') = next_ref (Emitter._particles e) /\
  (forall r, r ∈ items (Emitter._particles e') -> r ∈ items (Emitter._particles e)).
Proof.
  intros Hquiet Hstep.
  apply Emitter_step_phases in Hstep
    as (_ & e1 & g1 & e2 & al' & stepped & Hemit & Happly & Hstep & ->).
  assert (e1 = e) as ->.
  { destruct Hquiet as [Hstop|Hdone].
    - rewrite Hstop in Hemit. apply ret_Ok in Hemit as [-> _]. reflexivity.
    - destruct (Emitter._can_emit e).
      + unfold Emitter._emit in Hemit. rewrite Hdone in Hemit. simpl in Hemit.
        apply ret_Ok in Hemit as [-> _]. reflexivity.
      + apply ret_Ok in Hemit as [-> _]. reflexivity. }
  destruct (apply_field_keeps _ _ _ _ _ Happly) as [Hrate _].
  apply apply_field_spec in Happly as (Hitems & Hnext & _).
  unfold gnppygame.step in Hstep.
  apply exn_bind_Ok in Hstep as ([[[h1 s1] dead] stepped1] & Hloop & Hrest).
  apply exn_bind_Ok in Hrest as (l & Hrm & Hok). injection Hok as <- _ _.
  simpl. split; [exact Hrate|]. split; [exact Hnext|].
  intros r Hr. rewrite <- Hitems. exact (remove_loop_subset _ _ _ Hrm _ Hr).
Qed.

Lemma draw_loop_alive (todo : list ref) :
  forall (h : gmap nat Particle.t) (surface : Surface) (drawn : list ref),
  (forall r, r ∈ todo -> exists p, h !! r = Some p /\ Particle.can_reap p = false) ->
  exists surface',
    draw_loop todo h surface drawn = Ok (surface', drawn ++ todo) /\
    length surface' = (length surface + length todo)%nat.
Proof.
  induction todo as [|r0 todo IH]; intros h surface drawn Halive.
  - exists surface. split; [simpl; rewrite app_nil_r; reflexivity|simpl; lia].
  - destruct (Halive r0 ltac:(apply elem_of_cons; left; reflexivity)) as (p & Hp & Hlive).
    destruct (IH h (if (Particle._size p =? 0)%Z
                    then surface ++ [set_at (AsIntTuple (Particle._position p))
                                       (Particle._color p)]
                    else surface ++ [draw_circle (Particle._color p)
                                       (AsIntTuple (Particle._position p))
                                       (Particle._size p)])
                (drawn ++ [r0])
                ltac:(intros r Hr; apply Halive, elem_of_cons; right; exact Hr))
      as (surface' & Hrun & Hlen).
    exists surface'. split.
    + cbn [draw_loop]. rewrite Hp.
      cbn [actor_draw Particle_Actor]. unfold Particle.draw, py_assert. rewrite Hlive.
      cbn [negb exn_bind].
      destruct (Particle._size p =? 0)%Z; cbn [exn_bind]; rewrite Hrun, <- app_assoc;
        reflexivity.
    + rewrite Hlen. destruct (Particle._size p =? 0)%Z; rewrite length_app; simpl; lia.
Qed.

(** X27: After a successful [Emitter.step], every particle left in the list is
    alive, so the [draw] that follows never trips the dead-particle assertion:
    it raises [AssertionError] only when the emitter itself is reapable, and
    otherwise draws one shape per particle. *)
Theorem Emitter_step_then_draw (dt : Q) (e e' : Emitter.t) (g g' : Rng)
    (surface : Surface) :
  ActorList_wf (Emitter._particles e) ->
  Emitter.step dt e g = Ok (e', g') ->
  (forall r, r ∈ items (Emitter._particles e') ->
     exists p, heap (Emitter._particles e') !! r = Some p /\ Particle.can_reap p = false) /\
  (Emitter.can_reap e' = true /\ Emitter.draw e' surface = Raise AssertionError \/
   Emitter.can_reap e' = false /\
   exists surface',
     Emitter.draw e' surface = Ok surface' /\
     length surface' = (length surface + len (Emitter._particles e'))%nat).
Proof.
  intros [Hnd Hlt] Hstep.
  apply Emitter_step_phases in Hstep
    as (_ & e1 & g1 & e2 & al' & stepped & Hemit & Happly & Hstep & ->).
  apply emit_phase_spec in Hemit as (n & _ & _ & Hitems1 & _ & _ & _).
  apply apply_field_spec in Happly as (Hitems2 & _ & _).
  assert (NoDup (items (Emitter._particles e2))) as Hnd2
    by (rewrite Hitems2, Hitems1; apply emitted_items_NoDup; assumption).
  destruct (step_survivors _ _ _ _ _ _ Hnd2 Hstep) as [Hfilter Hdom].
  assert (forall r, r ∈ items al' ->
            exists p, heap al' !! r = Some p /\ Particle.can_reap p = false) as Halive.
  { intros r Hr. rewrite Hfilter in Hr. apply list_elem_of_In, filter_In in Hr as [Hin Hlive].
    apply list_elem_of_In in Hin. destruct (Hdom r Hin) as [p Hp].
    exists p. split; [exact Hp|]. unfold reapable_in in Hlive. rewrite Hp in Hlive.
    apply negb_true_iff in Hlive. exact Hlive. }
  split; [exact Halive|].
  unfold Emitter.draw, py_assert.
  destruct (Emitter.can_reap (Emitter.set_particles al' e2)) eqn:Hreap.
  - left. split; reflexivity.
  - right. split; [reflexivity|]. cbn [negb exn_bind].
    destruct (draw_loop_alive (items al') (heap al') surface [] Halive)
      as (surface' & Hdraw & Hlen).
    exists surface'. unfold gnppygame.draw. cbn [Emitter._particles Emitter.set_particles].
    rewrite Hdraw. split; [reflexivity|exact Hlen].
Qed.

(** What one [Emitter.step] does to a particle that is already in the list,
    for any field. *)
Lemma Emitter_step_existing_particle (dt : Q) (e e' : Emitter.t) (g g' : Rng)
    (field : EmitterField) (r : ref) (p : Particle.t) :
  ActorList_wf (Emitter._particles e) ->
  Emitter._field_obj e = Some field ->
  r ∈ items (Emitter._particles e) ->
  heap (Emitter._particles e) !! r = Some p ->
  Emitter.step dt e g = Ok (e', g') ->
  exists accel ga gb p',
    get_accel_vector field (Particle._position p) (Particle._velocity p) ga =
      Ok (accel, gb) /\
    heap (Emitter._particles e') !! r = Some p' /\
    Particle._velocity p' =
      cVector2_add (Particle._velocity p) (cVector2_mul accel dt) /\
    Particle._position p' =
      cVector2_add (Particle._position p) (cVector2_mul (Particle._velocity p') dt).
Proof.
  intros [Hnd Hlt] Hfield Hr Hp Hstep.
  apply Emitter_step_phases in Hstep
    as (_ & e1 & g1 & e2 & al' & stepped & Hemit & Happly & Hstep & ->).
  apply emit_phase_spec in Hemit as (n & _ & Hfield1 & Hitems1 & _ & Hold & _).
  assert (NoDup (items (Emitter._particles e1))) as Hnd1
    by (rewrite Hitems1; apply emitted_items_NoDup; assumption).
  assert (r ∈ items (Emitter._particles e1)) as Hr1
    by (rewrite Hitems1; apply elem_of_app; left; exact Hr).
  assert (heap (Emitter._particles e1) !! r = Some p) as Hp1.
  { rewrite Hold; [exact Hp|]. rewrite Forall_forall in Hlt. exact (Hlt r Hr). }
  rewrite Hfield in Hfield1.
  destruct (Emitter_step_particle _ _ _ _ _ _ _ _ _ _ Hnd1 Hfield1 Happly Hstep Hr1 Hp1)
    as (accel & ga & gb & p' & Haccel & Hp' & Hvel & Hpos & _).
  exists accel, ga, gb, p'. repeat split; assumption.
Qed.

(** X28: With a drag field of coefficient [k], one [Emitter.step dt] multiplies the
    velocity of a particle by [1 - k*dt] before moving it: the velocity is
    unchanged for [k = 0], zero when [k*dt = 1], and reversed beyond. *)
Theorem Emitter_step_drag (dt k : Q) (e e' : Emitter.t) (g g' : Rng) (r : ref)
    (p : Particle.t) :
  ActorList_wf (Emitter._particles e) ->
  Emitter._field_obj e = Some (EmitterField_Drag k) ->
  r ∈ items (Emitter._particles e) ->
  heap (Emitter._particles e) !! r = Some p ->
  Emitter.step dt e g = Ok (e', g') ->
  exists p',
    heap (Emitter._particles e') !! r = Some p' /\
    (x (Particle._velocity p') == x (Particle._velocity p) * (1 - k * dt))%Q /\
    (y (Particle._velocity p') == y (Particle._velocity p) * (1 - k * dt))%Q /\
    (x (Particle._position p') ==
       x (Particle._position p) + x (Particle._velocity p) * (1 - k * dt) * dt)%Q /\
    (y (Particle._position p') ==
       y (Particle._position p) + y (Particle._velocity p) * (1 - k * dt) * dt)%Q.
Proof.
  intros Hwf Hfield Hr Hp Hstep.
  destruct (Emitter_step_existing_particle _ _ _ _ _ _ _ _ Hwf Hfield Hr Hp Hstep)
    as (accel & ga & gb & p' & Haccel & Hp' & Hvel & Hpos).
  simpl in Haccel. apply ret_Ok in Haccel as [-> _].
  exists p'. split; [exact Hp'|].
  rewrite Hpos, Hvel. simpl. repeat split; ring.
Qed.

(** X29: At the attracting point itself a point-attract field gives no
    acceleration, with or without a positive falloff radius and whatever the
    host's square root returns: the direction is not normalised there. *)
Theorem PointAttract_at_point (point vel : cVector2) (mag : Q) (falloff : option Q)
    (g : Rng) :
  match falloff with Some radius => (0 < radius)%Q | None => True end ->
  exists accel,
    get_accel_vector (EmitterField_PointAttract point mag falloff) point vel g =
      Ok (accel, g) /\
    (x accel == 0)%Q /\ (y accel == 0)%Q.
Proof.
  intros Hfall. unfold get_accel_vector.
  assert (NormalizeSafe (cVector2_sub point point) = Ok (cVector2_sub point point))
    as Hnorm.
  { unfold NormalizeSafe. simpl.
    assert (Qeq_bool (x point - x point) 0 = true) as Ex
      by (apply Qeq_bool_iff; ring).
    assert (Qeq_bool (y point - y point) 0 = true) as Ey
      by (apply Qeq_bool_iff; ring).
    rewrite Ex, Ey. reflexivity. }
  rewrite Hnorm. unfold bind at 1. unfold lift at 1.
  destruct falloff as [radius|].
  - assert (Qltb 0 radius = true) as Hpos by (apply Qltb_true; exact Hfall).
    rewrite Hpos. unfold bind at 1. unfold lift at 1. cbn [py_assert].
    destruct (Qltb radius (Magnitude (cVector2_sub point point))).
    + eexists. split; [reflexivity|]. split; reflexivity.
    + unfold py_truediv.
      destruct (Qeq_bool radius 0) eqn:E.
      { apply Qeq_bool_iff in E. lra. }
      unfold bind, lift, ret. eexists. split; [reflexivity|]. simpl. split; ring.
  - unfold ret. eexists. split; [reflexivity|]. simpl. split; ring.
Qed.

End EmitterMore.

Section EmitterMoreExamples.
Import gnipMath gnppygame gnpparticle.

Lemma Emitter_step_without_emission_witness :
  (Emitter._can_emit (example_emitter_with example_particle_1) = false \/
   is_complete (Emitter._rate_obj (example_emitter_with example_particle_1)) = true) /\
  @Emitter.step example_math (1 # 2) (example_emitter_with example_particle_1) example_rng =
    Ok (example_emitter_with example_particle_2, example_rng) /\
  Emitter._rate_obj (example_emitter_with example_particle_2) =
    Emitter._rate_obj (example_emitter_with example_particle_1) /\
  next_ref (Emitter._particles (example_emitter_with example_particle_2)) =
    next_ref (Emitter._particles (example_emitter_with example_particle_1)).
Proof.
  assert (Emitter._can_emit (example_emitter_with example_particle_1) = false \/
          is_complete (Emitter._rate_obj (example_emitter_with example_particle_1)) = true)
    as Hquiet by (right; reflexivity).
  assert (@Emitter.step example_math (1 # 2) (example_emitter_with example_particle_1)
            example_rng = Ok (example_emitter_with example_particle_2, example_rng))
    as Hstep by (vm_compute; reflexivity).
  split; [exact Hquiet|]. split; [exact Hstep|].
  destruct (@Emitter_step_without_emission example_math (1 # 2) _ _ _ _ Hquiet Hstep)
    as (Hrate & Hnext & _).
  split; [exact Hrate | exact Hnext].
Defined.

Lemma Emitter_step_then_draw_witness :
  ActorList_wf (Emitter._particles (example_emitter_with example_particle_1)) /\
  @Emitter.step example_math (1 # 2) (example_emitter_with example_particle_1) example_rng =
    Ok (example_emitter_with example_particle_2, example_rng) /\
  (forall r, r ∈ items (Emitter._particles (example_emitter_with example_particle_2)) ->
     exists p,
       heap (Emitter._particles (example_emitter_with example_particle_2)) !! r = Some p /\
       Particle.can_reap p = false).
Proof.
  pose proof (example_emitter_wf example_particle_1) as Hwf.
  assert (@Emitter.step example_math (1 # 2) (example_emitter_with example_particle_1)
            example_rng = Ok (example_emitter_with example_particle_2, example_rng))
    as Hstep by (vm_compute; reflexivity).
  split; [exact Hwf|]. split; [exact Hstep|].
  exact (proj1 (@Emitter_step_then_draw example_math (1 # 2) _ _ _ _ [] Hwf Hstep)).
Defined.

Lemma PointAttract_at_point_witness :
  match Some 5%Q with Some radius => (0 < radius)%Q | None => True end /\
  exists accel,
    @get_accel_vector example_math
      (EmitterField_PointAttract (mk_cVector2 1 2) 3 (Some 5%Q))
      (mk_cVector2 1 2) (mk_cVector2 0 0) example_rng = Ok (accel, example_rng) /\
    (x accel == 0)%Q /\ (y accel == 0)%Q.
Proof.
  assert (match Some 5%Q with Some radius => (0 < radius)%Q | None => True end) as Hfall
    by reflexivity.
  split; [exact Hfall|].
  exact (@PointAttract_at_point example_math (mk_cVector2 1 2) (mk_cVector2 0 0) 3
           (Some 5%Q) example_rng Hfall).
Defined.

End EmitterMoreExamples.

Section EmitterDragExample.
Import gnipMath gnppygame gnpparticle.

Lemma Emitter_step_drag_witness :
  ActorList_wf (Emitter._particles (example_drag_emitter example_particle_1)) /\
  Emitter._field_obj (example_drag_emitter example_particle_1) =
    Some (EmitterField_Drag (1 # 2)) /\
  0%nat ∈ items (Emitter._particles (example_drag_emitter example_particle_1)) /\
  heap (Emitter._particles (example_drag_emitter example_particle_1)) !! 0%nat =
    Some example_particle_1 /\
  @Emitter.step example_math (1 # 2) (example_drag_emitter example_particle_1) example_rng =
    Ok (example_drag_emitter example_particle_dragged, example_rng) /\
  exists p',
    heap (Emitter._particles (example_drag_emitter example_particle_dragged)) !! 0%nat =
      Some p' /\
    (x (Particle._velocity p') ==
       x (Particle._velocity example_particle_1) * (1 - (1 # 2) * (1 # 2)))%Q /\
    (y (Particle._velocity p') ==
       y (Particle._velocity example_particle_1) * (1 - (1 # 2) * (1 # 2)))%Q.
Proof.
  assert (ActorList_wf (Emitter._particles (example_drag_emitter example_particle_1)))
    as Hwf.
  { split; simpl; [apply NoDup_singleton | repeat constructor]. }
  assert (Emitter._field_obj (example_drag_emitter example_particle_1) =
            Some (EmitterField_Drag (1 # 2))) as Hfield by reflexivity.
  assert (0%nat ∈ items (Emitter._particles (example_drag_emitter example_particle_1)))
    as Hin by (apply list_elem_of_singleton; reflexivity).
  assert (heap (Emitter._particles (example_drag_emitter example_particle_1)) !! 0%nat =
            Some example_particle_1) as Hobj by (vm_compute; reflexivity).
  assert (@Emitter.step example_math (1 # 2) (example_drag_emitter example_particle_1)
            example_rng = Ok (example_drag_emitter example_particle_dragged, example_rng))
    as Hstep by (vm_compute; reflexivity).
  split; [exact Hwf|]. split; [exact Hfield|]. split; [exact Hin|].
  split; [exact Hobj|]. split; [exact Hstep|].
  destruct (@Emitter_step_drag example_math (1 # 2) (1 # 2) _ _ _ _ _ _
              Hwf Hfield Hin Hobj Hstep) as (p' & Hp' & Hvx & Hvy & _).
  exists p'. split; [exact Hp'|]. split; [exact Hvx | exact Hvy].
Defined.

End EmitterDragExample.

(** ** gnpparticle: the life of a burst emitter *)

Section BurstLifecycle.
Import gnipMath gnppygame gnpparticle.
Local Open Scope Q_scope.

Lemma Qle_bool_false (a b : Q) : b < a -> Qle_bool a b = false.
Proof.
  intros Hlt. destruct (Qle_bool a b) eqn:E; [|reflexivity].
  apply Qle_bool_iff in E. lra.
Qed.

Lemma append_copies_spec (count : nat) (p : Particle.t) :
  forall al : ActorList Particle.t,
  items (append_copies count p al) = items al ++ seq (next_ref al) count /\
  next_ref (append_copies count p al) = (next_ref al + count)%nat /\
  (forall r, (r < next_ref al)%nat ->
     heap (append_copies count p al) !! r = heap al !! r) /\
  (forall r, (next_ref al <= r < next_ref al + count)%nat ->
     heap (append_copies count p al) !! r = Some p).
Proof.
  induction count as [|count IH]; intros al.
  - simpl. split; [symmetry; apply app_nil_r|]. split; [lia|]. split; [reflexivity|].
    intros r Hr. lia.
  - destruct (IH (append_new p al)) as (Hitems & Hnext & Hold & Hnew).
    cbn [append_copies]. simpl in *.
    split; [rewrite Hitems, <- app_assoc; reflexivity|]. split; [lia|]. split.
    + intros r Hr. rewrite Hold by lia. apply lookup_insert_ne. lia.
    + intros r Hr. destruct (Nat.eq_dec r (next_ref al)) as [->|Hne].
      * rewrite Hold by lia. apply lookup_insert_eq.
      * apply Hnew. lia.
Qed.

Lemma filter_uniform {X} (f : X -> bool) (b : bool) (l : list X) :
  (forall v, In v l -> f v = b) -> List.filter f l = if b then l else [].
Proof.
  induction l as [|v l IH]; intros Hall.
  - destruct b; reflexivity.
  - simpl. rewrite (Hall v (or_introl eq_refl)).
    rewrite IH by (intros w Hw; apply Hall; right; exact Hw).
    destruct b; reflexivity.
Qed.

(** One [step] of a list whose particles are all the same live particle. *)
Lemma particle_list_step_uniform (dt : Q) (al : ActorList Particle.t) (p : Particle.t) :
  NoDup (items al) ->
  (forall r, r ∈ items al -> heap al !! r = Some p) ->
  Particle.can_reap p = false ->
  exists al' p',
    Particle.step dt p = Ok p' /\
    gnppygame.step dt al tt = Ok (al', tt, items al) /\
    NoDup (items al') /\
    (forall r, r ∈ items al -> heap al' !! r = Some p') /\
    items al' = (if Particle.can_reap p' then [] else items al).
Proof.
  intros Hnd Hall Hlive.
  assert (exists p', Particle.step dt p = Ok p') as [p' Hp'].
  { unfold Particle.step, py_assert. rewrite Hlive. simpl. eexists. reflexivity. }
  assert (forall s0 : unit, actor_step dt p s0 = Ok (p', s0)) as Hactor.
  { intros s0. cbn [actor_step Particle_Actor]. rewrite Hp'. reflexivity. }
  destruct (step_total dt al tt Hnd) as (al' & [] & Hstep).
  { intros r Hr. exists p. split; [exact (Hall r Hr)|].
    intros s0. exists p', s0. apply Hactor. }
  destruct (step_spec _ _ _ _ _ _ Hnd Hstep) as (_ & _ & Hnd' & _ & _ & Hobj & _).
  assert (forall r, r ∈ items al -> heap al' !! r = Some p') as Hall'.
  { intros r Hr. destruct (Hobj r p Hr (Hall r Hr)) as (a' & sa & sb & Hs & Ha').
    rewrite Hactor in Hs. injection Hs as <- _. exact Ha'. }
  destruct (step_survivors _ _ _ _ _ _ Hnd Hstep) as [Hfilter _].
  exists al', p'. split; [exact Hp'|]. split; [exact Hstep|]. split; [exact Hnd'|].
  split; [exact Hall'|].
  rewrite Hfilter.
  rewrite (filter_uniform _ (negb (Particle.can_reap p'))).
  - destruct (Particle.can_reap p'); reflexivity.
  - intros r Hr. apply list_elem_of_In in Hr. unfold reapable_in.
    rewrite (Hall' r Hr). reflexivity.
Qed.

Context `{Math}.

Lemma emit_loop_constant (count : nat) :
  forall (e : Emitter.t) (g : Rng) (speed : Q) (dir : cVector2) (lifetime : Q)
         (color : PyObj),
  Emitter._speed_obj e = EmitterSpeed_Constant speed ->
  Emitter._direction_obj e = Direction_Constant dir ->
  Emitter._lifetime_obj e = EmitterLifetime_Constant lifetime ->
  Emitter._color_obj e = EmitterColor_Constant color ->
  Emitter.emit_loop count e g =
    Ok (Emitter.set_particles
          (append_copies count
             (Particle.mk (Emitter._position e) (cVector2_mul dir speed) lifetime color
                (Emitter._start_size e))
             (Emitter._particles e)) e, g).
Proof.
  induction count as [|count IH]; intros e g speed dir lifetime color Hs Hd Hl Hc.
  - destruct e. reflexivity.
  - cbn [Emitter.emit_loop]. rewrite Hs, Hd, Hl, Hc.
    cbn [get_speed get_direction get_lifetime get_color]. unfold bind at 1. cbn [ret].
    unfold bind at 1. cbn [ret]. unfold bind at 1. cbn [ret]. unfold bind at 1. cbn [ret].
    rewrite (IH _ g speed dir lifetime color) by (simpl; assumption).
    reflexivity.
Qed.

Lemma Emitter_step_compose (dt : Q) (e e1 e2 : Emitter.t) (g g1 g2 : Rng)
    (al' : ActorList Particle.t) (stepped : list ref) :
  Emitter.can_reap e = false ->
  (if Emitter._can_emit e then Emitter._emit dt e else ret e) g = Ok (e1, g1) ->
  Emitter.apply_field dt e1 g1 = Ok (e2, g2) ->
  gnppygame.step dt (Emitter._particles e2) tt = Ok (al', tt, stepped) ->
  Emitter.step dt e g = Ok (Emitter.set_particles al' e2, g2).
Proof.
  intros Hcan Hemit Happly Hstep.
  unfold Emitter.step. unfold bind at 1. unfold lift at 1. rewrite Hcan. cbn [negb py_assert].
  unfold bind at 1. rewrite Hemit. unfold bind at 1. rewrite Happly.
  unfold bind at 1. unfold lift at 1. rewrite Hstep. reflexivity.
Qed.

(** X30: The life of a burst emitter without a field whose particles all get the
    lifetime [lifetime > 0]: a first [step dt1] with [dt1 < lifetime] emits
    the [n] particles and keeps them all; a second [step dt2] that brings the
    time to [lifetime] or more removes them all and leaves the emitter
    reapable; stepping the emitter once more raises [AssertionError]. *)
Theorem Burst_emitter_lifecycle (position : cVector2) (n : Z) (speed : Q) (dir : cVector2)
    (lifetime : Q) (color : PyObj) (size : Z) (dt1 dt2 : Q) (g : Rng) :
  (0 < n)%Z -> 0 < lifetime -> dt1 < lifetime -> lifetime <= dt1 + dt2 ->
  exists e1 e2,
    Emitter.step dt1 (burst_emitter position n speed dir lifetime color size) g =
      Ok (e1, g) /\
    len (Emitter._particles e1) = Z.to_nat n /\
    Emitter.can_reap e1 = false /\
    Emitter.step dt2 e1 g = Ok (e2, g) /\
    items (Emitter._particles e2) = [] /\
    Emitter.can_reap e2 = true /\
    Emitter.step dt2 e2 g = Raise AssertionError.
Proof.
  intros Hn Hlife Hdt1 Hdt2.
  set (e0 := burst_emitter position n speed dir lifetime color size).
  set (p0 := Particle.mk position (cVector2_mul dir speed) lifetime color size).
  set (al0 := append_copies (Z.to_nat n) p0 ActorList_init).
  set (e1a := Emitter.set_particles al0 (Emitter.set_rate (Rate_Burst n true) e0)).
  destruct (append_copies_spec (Z.to_nat n) p0 ActorList_init)
    as (Hitems0 & _ & _ & Hnew0).
  fold al0 in Hitems0, Hnew0. simpl in Hitems0, Hnew0.
  assert (NoDup (items al0)) as Hnd0 by (rewrite Hitems0; apply NoDup_seq).
  assert (forall r, r ∈ items al0 -> heap al0 !! r = Some p0) as Hall0.
  { intros r Hr. rewrite Hitems0 in Hr. apply elem_of_seq in Hr. apply Hnew0. lia. }
  assert (Particle.can_reap p0 = false) as Hlive0.
  { unfold Particle.can_reap. simpl. apply Qle_bool_false. exact Hlife. }
  (* the first step *)
  assert ((if Emitter._can_emit e0 then Emitter._emit dt1 e0 else ret e0) g = Ok (e1a, g))
    as Hemit1.
  { cbn [Emitter._can_emit e0 burst_emitter Emitter.init]. unfold Emitter._emit.
    cbn [Emitter._rate_obj e0 burst_emitter Emitter.init is_complete EmitterRate_Burst negb].
    unfold bind at 1. unfold EmitterRate_Burst. cbn [how_many]. unfold ret at 1.
    cbn [fst snd].
    rewrite (emit_loop_constant (Z.to_nat n) _ g speed dir lifetime color)
      by reflexivity.
    reflexivity. }
  assert (Emitter.apply_field dt1 e1a g = Ok (e1a, g)) as Hfield1 by reflexivity.
  destruct (particle_list_step_uniform dt1 al0 p0 Hnd0 Hall0 Hlive0)
    as (al1 & p1 & Hp1 & Hstep1 & Hnd1 & Hall1 & Hitems1).
  apply Particle_step_Ok in Hp1 as (_ & _ & _ & Hlife1). simpl in Hlife1.
  assert (Qltb (lifetime - dt1) 0 = false) as Hpos1 by (apply Qltb_false; lra).
  rewrite Hpos1 in Hlife1.
  assert (Particle.can_reap p1 = false) as Hlive1.
  { unfold Particle.can_reap. rewrite Hlife1. apply Qle_bool_false. lra. }
  rewrite Hlive1 in Hitems1.
  set (e1 := Emitter.set_particles al1 e1a).
  assert (Emitter.step dt1 e0 g = Ok (e1, g)) as Hs1.
  { apply (Emitter_step_compose dt1 e0 e1a e1a g g g al1 (items al0));
      [reflexivity | exact Hemit1 | exact Hfield1 | exact Hstep1]. }
  assert (len (Emitter._particles e1) = Z.to_nat n) as Hlen1.
  { unfold len. simpl. rewrite Hitems1, Hitems0. apply length_seq. }
  assert (Emitter.can_reap e1 = false) as Hcan1.
  { unfold Emitter.can_reap. rewrite Hlen1.
    destruct (Nat.eqb_spec (Z.to_nat n) 0) as [H0|_]; [lia|reflexivity]. }
  (* the second step *)
  assert ((if Emitter._can_emit e1 then Emitter._emit dt2 e1 else ret e1) g = Ok (e1, g))
    as Hemit2 by reflexivity.
  assert (Emitter.apply_field dt2 e1 g = Ok (e1, g)) as Hfield2 by reflexivity.
  assert (forall r, r ∈ items al1 -> heap al1 !! r = Some p1) as Hall1'.
  { intros r Hr. apply Hall1. rewrite <- Hitems1. exact Hr. }
  destruct (particle_list_step_uniform dt2 al1 p1 Hnd1 Hall1' Hlive1)
    as (al2 & p2 & Hp2 & Hstep2 & _ & _ & Hitems2).
  apply Particle_step_Ok in Hp2 as (_ & _ & _ & Hlife2). rewrite Hlife1 in Hlife2.
  assert (Particle.can_reap p2 = true) as Hdead2.
  { unfold Particle.can_reap. rewrite Hlife2.
    destruct (Qltb (lifetime - dt1 - dt2) 0) eqn:E; apply Qle_bool_iff; lra. }
  rewrite Hdead2 in Hitems2.
  set (e2 := Emitter.set_particles al2 e1).
  assert (Emitter.step dt2 e1 g = Ok (e2, g)) as Hs2.
  { apply (Emitter_step_compose dt2 e1 e1 e1 g g g al2 (items al1));
      [exact Hcan1 | exact Hemit2 | exact Hfield2 | exact Hstep2]. }
  assert (Emitter.can_reap e2 = true) as Hcan2.
  { unfold Emitter.can_reap, len. simpl. rewrite Hitems2. reflexivity. }
  exists e1, e2. split; [exact Hs1|]. split; [exact Hlen1|]. split; [exact Hcan1|].
  split; [exact Hs2|]. split; [exact Hitems2|]. split; [exact Hcan2|].
  unfold Emitter.step. unfold bind at 1. unfold lift at 1. rewrite Hcan2. reflexivity.
Qed.

End BurstLifecycle.

Section BurstLifecycleExample.
Import gnipMath gnppygame gnpparticle.
Local Open Scope Q_scope.

Lemma Burst_emitter_lifecycle_witness :
  (0 < 3)%Z /\ 0 < 1 /\ 16 # 1000 < 1 /\ 1 <= (16 # 1000) + 1 /\
  exists e1 e2,
    @Emitter.step example_math (16 # 1000)
      (burst_emitter (mk_cVector2 10 20) 3 3 (mk_cVector2 1 0) 1 example_color 0)
      example_rng = Ok (e1, example_rng) /\
    len (Emitter._particles e1) = Z.to_nat 3 /\
    Emitter.can_reap e1 = false /\
    @Emitter.step example_math 1 e1 example_rng = Ok (e2, example_rng) /\
    items (Emitter._particles e2) = [] /\
    Emitter.can_reap e2 = true /\
    @Emitter.step example_math 1 e2 example_rng = Raise AssertionError.
Proof.
  assert (0 < 3)%Z as Hn by lia.
  assert (0 < 1) as Hlife by reflexivity.
  assert (16 # 1000 < 1) as Hdt1 by reflexivity.
  assert (1 <= (16 # 1000) + 1) as Hdt2 by discriminate.
  split; [exact Hn|]. split; [exact Hlife|]. split; [exact Hdt1|]. split; [exact Hdt2|].
  exact (@Burst_emitter_lifecycle example_math (mk_cVector2 10 20) 3 3 (mk_cVector2 1 0) 1
           example_color 0 (16 # 1000) 1 example_rng Hn Hlife Hdt1 Hdt2).
Defined.

End BurstLifecycleExample.
